(** * The MAC whitelist store of septsat: a shallow embedding

    Two implementations of the store live in the repository:

    - [mac_database]: class [MACDatabase] of [src/auth/mac-database.js]
      (snapshot [{version, created, macAddresses, statistics}], an access
      log bounded to 1000 events, timestamped backups, write through a
      temporary file);
    - [macdb]: class [MacDatabase] of [src/auth/macdb.js] (snapshot
      [{metadata, macAddresses}], a lock file polled every 10 ms for at
      most 5000 ms, write in place).

    The HTTP variants [api/mac-auth.js] keep the same map or an array of
    entries, and their handlers for the administrator validate their
    input before they touch it; the parts of
    them that the properties below speak about are embedded in
    [mac_auth] (the key-value variant) and [mac_auth_file] (the
    file-backed variant).

    Conventions of the embedding.
    - A JavaScript object used as a dictionary is the [gmap string _] of
      its own properties.  A lookup [obj[k]] also finds the members
      that every object inherits from [Object.prototype]
      ([js.prototype_members]); where the code tests such a lookup on a
      key that was not matched against the format of a MAC address
      first, the operation has a branch for the name of a member.
      Every operation starts in a process whose built-in objects are as
      the engine made them: what an operation assigns to a member it
      found is said at the operation and not carried over to the next.
    - An element of a list given to a bulk operation may come without
      a [macAddress] that is a string; the other properties have the
      type the code expects of them.
    - Strings are [string]s of 8-bit characters; [toLowerCase] lowers the
      letters [A]-[Z] and leaves every other character alone.
    - [new Date()] reads the field [clock] of the world (milliseconds).
    - [crypto.randomUUID()] is an oracle [randomUUID : nat -> string]
      indexed by the number of identifiers drawn so far.
    - Every operation is a function from the world before the call to the
      world after it and the value returned; [trace] records the
      file-system calls in the order they are issued.
    - A file is missing, unparsable or holds a document ([File]); writes
      succeed, except the [move] of fs-extra onto a file that exists,
      whose outcome is the parameter [overwrite] of [mac_database].
    - One process is modelled: time passes only in the sleep between two
      attempts on the lock file, and a lock file found present stays. *)

From Stdlib Require Import String Ascii ZArith List Lia Bool.
From stdpp Require Import base option list gmap strings sorting pretty.
From Equations Require Import Equations.

Local Open Scope string_scope.
Local Open Scope list_scope.

(** ** JavaScript values and strings *)

Module js.

(** [c.toLowerCase()] on one character. *)
Definition lower_ascii (c : ascii) : ascii :=
  let n := nat_of_ascii c in
  if (Nat.leb 65 n && Nat.leb n 90)%bool then ascii_of_nat (n + 32) else c.

(** [s.toLowerCase()]. *)
Fixpoint toLowerCase (s : string) : string :=
  match s with
  | EmptyString => EmptyString
  | String c r => String (lower_ascii c) (toLowerCase r)
  end.

(** White space removed by [String.prototype.trim] (the 8-bit part). *)
Definition is_space (c : ascii) : bool :=
  let n := nat_of_ascii c in
  (Nat.leb 9 n && Nat.leb n 13)%bool || Nat.eqb n 32 || Nat.eqb n 160.

Fixpoint trim_start (l : list ascii) : list ascii :=
  match l with
  | c :: r => if is_space c then trim_start r else l
  | [] => []
  end.

(** [s.trim()]. *)
Definition trim (s : string) : string :=
  string_of_list_ascii
    (rev (trim_start (rev (trim_start (list_ascii_of_string s))))).

(** Truthiness of a string-valued property that may be missing:
    [undefined], [null] and the empty string are falsy. *)
Definition truthy (o : option string) : bool :=
  match o with
  | Some EmptyString => false
  | Some _ => true
  | None => false
  end.

(** [o || d] for a string-valued [o]. *)
Definition or_default (o : option string) (d : string) : string :=
  match o with
  | Some EmptyString => d
  | Some s => s
  | None => d
  end.

(** [(n || 0)] for a numeric property that may be missing. *)
Definition or_zero (o : option nat) : nat := default 0 o.

(** [l.slice(-n)] for [n > 0]: the last [n] elements, all of them when
    there are fewer. *)
Definition slice_last {A} (n : nat) (l : list A) : list A :=
  drop (length l - n) l.

(** [s.substring(0, n)]. *)
Definition substring0 (n : nat) (s : string) : string := String.substring 0 n s.

(** The class [[a-f0-9]]. *)
Definition is_lower_hex (c : ascii) : bool :=
  let n := nat_of_ascii c in
  (Nat.leb 48 n && Nat.leb n 57) || (Nat.leb 97 n && Nat.leb n 102).

(** The class [[0-9a-f]] under the flag [i] (also [[0-9A-Fa-f]]). *)
Definition is_hex (c : ascii) : bool :=
  is_lower_hex c || (let n := nat_of_ascii c in Nat.leb 65 n && Nat.leb n 70).

(** A match of [^(HH<sep>){n}(HH)$] where [H] is a hexadecimal digit in
    either case. *)
Fixpoint mac_groups (sep : ascii -> bool) (n : nat) (l : list ascii) : bool :=
  match n, l with
  | O, [a; b] => is_hex a && is_hex b
  | S n', a :: b :: s :: rest =>
      is_hex a && is_hex b && sep s && mac_groups sep n' rest
  | _, _ => false
  end.

(** The separators accepted by [[:-]]. *)
Definition is_colon_or_hyphen (c : ascii) : bool :=
  Ascii.eqb c ":"%char || Ascii.eqb c "-"%char.

(** The names every object inherits from [Object.prototype].  On an
    object that has no property [k] of its own, [obj[k]] is the member
    of that name: a function ([Object] itself for [constructor]) or,
    for [__proto__], [Object.prototype].  Each of them is truthy and
    has no property [description], [accessType], [addedAt],
    [lastSeen], [accessCount] or [active] until one is assigned. *)
Definition prototype_members : list string :=
  ["constructor"; "__defineGetter__"; "__defineSetter__"; "hasOwnProperty";
   "__lookupGetter__"; "__lookupSetter__"; "isPrototypeOf";
   "propertyIsEnumerable"; "toString"; "valueOf"; "__proto__";
   "toLocaleString"].

(** [k] names a member of [Object.prototype]. *)
Definition inherited (k : string) : bool :=
  existsb (String.eqb k) prototype_members.

End js.

(** ** The file system *)

(** What a path holds: nothing, bytes that do not parse as the expected
    JSON document, or a document. *)
Inductive File (A : Type) : Type :=
| Missing
| Corrupt
| Content (a : A).
Arguments Missing {A}.
Arguments Corrupt {A}.
Arguments Content {A} a.

Definition pathExists {A} (f : File A) : bool :=
  match f with Missing => false | _ => true end.

(** [fs.readJson] / [JSON.parse(fs.readFile(..))]: [None] stands for the
    exception raised on a missing or unparsable file. *)
Definition readJson {A} (f : File A) : option A :=
  match f with Content a => Some a | _ => None end.

(** The file-system calls that the write paths issue. *)
Inductive FsOp : Type :=
| FsLockTry (acquired : bool)   (* writeFile(lockFile, pid, {flag: 'wx'}) *)
| FsSleep (ms : Z)              (* setTimeout(resolve, ms) *)
| FsUnlock                      (* unlink(lockFile) *)
| FsCopyBackup                  (* copy(macFile, backupFile) *)
| FsWriteTmp                    (* writeJson(macFile + '.tmp', data) *)
| FsMove (moved : bool)         (* move(tempFile, macFile) *)
| FsWriteDb                     (* writeFile(dbPath, ..): write in place *)
| FsWriteBackup                 (* writeFileSync(backupFile, ..) *)
| KvGet                         (* kv.get(MAC_DATA_KEY) *)
| KvSet (stored : bool)         (* kv.set(MAC_DATA_KEY, macData) *)
| FsWriteLog.                   (* writeJson(logFile, logData) *)

#[global] Instance FsOp_eq_dec : EqDecision FsOp.
Proof. solve_decision. Defined.

(** ** [src/auth/mac-database.js]: class [MACDatabase] *)

Module mac_database.

(** *** Data model *)

(** The device metadata sent by the caller. *)
Record DeviceInfo : Type := mkDeviceInfo {
  hostname : option string;
  username : option string;
  platform : option string;
  localIP : option string;
  publicIP : option string;
  fingerprint : option string }.

(** The five fields kept in [entry.lastDevice]. *)
Record LastDevice : Type := mkLastDevice {
  ld_hostname : option string;
  ld_username : option string;
  ld_platform : option string;
  ld_localIP : option string;
  ld_publicIP : option string }.

(** One whitelisted device; the key of the map is its MAC address. *)
Record Entry : Type := mkEntry {
  description : option string;
  accessType : option string;
  addedAt : Z;
  updatedAt : option Z;
  lastSeen : option Z;
  accessCount : option nat;
  lastDevice : option LastDevice;
  id : option string }.

Record Statistics : Type := mkStatistics {
  totalDevices : nat;
  totalAccesses : option nat;
  lastUpdated : Z }.

(** The document in [mac-whitelist.json]. *)
Record Database : Type := mkDatabase {
  version : string;
  created : Z;
  macAddresses : gmap string Entry;
  statistics : Statistics }.

Record LogEntry : Type := mkLogEntry {
  log_timestamp : Z;
  log_macAddress : string;
  log_deviceInfo : DeviceInfo;
  log_success : bool;
  log_message : string;
  log_id : string }.

(** The document in [access-log.json]. *)
Record LogData : Type := mkLogData {
  log_version : string;
  log_created : Z;
  accessEvents : list LogEntry }.

(** The data directory, the clock and the identifier oracle's position. *)
Record World : Type := mkWorld {
  macFile : File Database;                 (* mac-whitelist.json *)
  tmpFile : File Database;                 (* mac-whitelist.json.tmp *)
  logFile : File LogData;                  (* access-log.json *)
  backups : list (Z * File Database);      (* backups/mac-whitelist-<t>.json *)
  clock : Z;
  uuids : nat;
  trace : list FsOp }.

Definition set_macFile (f : File Database) (w : World) : World :=
  mkWorld f (tmpFile w) (logFile w) (backups w) (clock w) (uuids w) (trace w).
Definition set_tmpFile (f : File Database) (w : World) : World :=
  mkWorld (macFile w) f (logFile w) (backups w) (clock w) (uuids w) (trace w).
Definition set_logFile (f : File LogData) (w : World) : World :=
  mkWorld (macFile w) (tmpFile w) f (backups w) (clock w) (uuids w) (trace w).
Definition set_backups (b : list (Z * File Database)) (w : World) : World :=
  mkWorld (macFile w) (tmpFile w) (logFile w) b (clock w) (uuids w) (trace w).
Definition set_clock (t : Z) (w : World) : World :=
  mkWorld (macFile w) (tmpFile w) (logFile w) (backups w) t (uuids w) (trace w).
Definition set_uuids (n : nat) (w : World) : World :=
  mkWorld (macFile w) (tmpFile w) (logFile w) (backups w) (clock w) n (trace w).
Definition emit (ops : list FsOp) (w : World) : World :=
  mkWorld (macFile w) (tmpFile w) (logFile w) (backups w) (clock w) (uuids w)
          (trace w ++ ops).

(** The envelope [{success, message, data}] every operation returns. *)
Record Result (A : Type) : Type := mkResult {
  success : bool;
  message : string;
  data : option A }.
Arguments mkResult {A} _ _ _.
Arguments success {A} _.
Arguments message {A} _.
Arguments data {A} _.

(** Payload of a granted access check; [r_addedAt] is [undefined] when
    what was found under the key is not an entry. *)
Record AccessData : Type := mkAccessData {
  r_macAddress : string;
  r_description : option string;
  r_accessType : string;
  r_addedAt : option Z;
  r_lastSeen : option Z;
  r_accessCount : option nat }.

(** What [updateMACAccess] returns as [data]: the object found under
    the key after the two assignments, an entry of the snapshot or the
    member of [Object.prototype] of that name. *)
Inductive Updated : Type :=
| UpdatedEntry (e : Entry)
| UpdatedMember (name : string) (accessType_ : string) (updatedAt_ : Z).

(** One element of the list given to [bulkAddMACs]; [in_macAddress] is
    [None] for an element that has no [macAddress] that is a string. *)
Record MacEntry : Type := mkMacEntry {
  in_macAddress : option string;
  in_description : option string;
  in_accessType : option string }.

(** One element of [data.results] of [bulkAddMACs]. *)
Record BulkItem : Type := mkBulkItem {
  b_macAddress : string;
  b_status : string;
  b_reason : option string;
  b_accessType : option string }.

Record BulkSummary : Type := mkBulkSummary {
  total : nat;
  added : nat;
  skipped : nat }.

Record BulkData : Type := mkBulkData {
  results : list BulkItem;
  summary : BulkSummary }.

(** The variables of the loop of [bulkAddMACs]: the map being filled,
    the oracle's position, [results], [addedCount], [skippedCount]. *)
Record BulkState : Type := mkBulkState {
  bs_map : gmap string Entry;
  bs_uuids : nat;
  bs_results : list BulkItem;
  bs_added : nat;
  bs_skipped : nat }.

Record MaintenanceData : Type := mkMaintenanceData {
  backupsCreated : nat;
  entriesFixed : nat }.

(** Field updates on entries and snapshots. *)
Definition set_statistics (s : Statistics) (d : Database) : Database :=
  mkDatabase (version d) (created d) (macAddresses d) s.
Definition set_macAddresses (m : gmap string Entry) (d : Database) : Database :=
  mkDatabase (version d) (created d) m (statistics d).
Definition set_id (i : option string) (e : Entry) : Entry :=
  mkEntry (description e) (accessType e) (addedAt e) (updatedAt e)
          (lastSeen e) (accessCount e) (lastDevice e) i.
Definition set_accessType (a : option string) (e : Entry) : Entry :=
  mkEntry (description e) a (addedAt e) (updatedAt e)
          (lastSeen e) (accessCount e) (lastDevice e) (id e).
Definition set_updatedAt (t : option Z) (e : Entry) : Entry :=
  mkEntry (description e) (accessType e) (addedAt e) t
          (lastSeen e) (accessCount e) (lastDevice e) (id e).

(** The structure written by [initializeDatabase] and returned by
    [readDatabase] when the file cannot be read. *)
Definition emptyDatabase (now : Z) : Database :=
  mkDatabase "1.0" now ∅ (mkStatistics 0 (Some 0) now).

Definition emptyLog (now : Z) : LogData := mkLogData "1.0" now [].

(** Order of the backup files after [.sort().reverse()]: latest first. *)
Definition newer (a b : Z * File Database) : Prop := (b.1 ≤ a.1)%Z.

#[global] Instance newer_dec : RelDecision newer.
Proof. intros a b. unfold newer. apply _. Defined.

Section operations.

(** [crypto.randomUUID()]: the [n]-th identifier drawn. *)
Variable randomUUID : nat -> string.

(** fs-extra is a dependency, not part of the repository.  Whether its
    [move] replaces a destination that exists is decided by its
    [overwrite] option, which [writeDatabase] leaves at the library's
    default; that default is a parameter here.  The library documents
    it as [false]; the comment at the call ("then rename (atomic
    operation)") reads it as [true]. *)
Variable overwrite : bool.

(** [initializeDatabase()]: creates the two documents when absent. *)
Definition initializeDatabase (w : World) : World :=
  let w1 :=
    if pathExists (macFile w) then w
    else set_macFile (Content (emptyDatabase (clock w))) w in
  if pathExists (logFile w1) then w1
  else set_logFile (Content (emptyLog (clock w1))) w1.

(** [backupDatabase()]: copy the snapshot to a file named after the
    current time, then keep the ten backups whose names sort last.
    Names are ISO timestamps, so the order of names is the order of
    times. *)
Definition backupDatabase (w : World) : World :=
  let t := clock w in
  let copied := pathExists (macFile w) in
  let dir :=
    if copied
    then (t, macFile w) :: filter (λ p, p.1 ≠ t) (backups w)
    else backups w in
  let sortedBackups := merge_sort newer dir in
  let dir' :=
    if Nat.ltb 10 (length sortedBackups) then take 10 sortedBackups else dir in
  emit (if copied then [FsCopyBackup] else []) (set_backups dir' w).

(** [readDatabase()]: the snapshot, or the default structure when the
    file is missing or is not valid JSON. *)
Definition readDatabase (w : World) : Database :=
  match readJson (macFile w) with
  | Some d => d
  | None => emptyDatabase (clock w)
  end.

(** [data.statistics.lastUpdated = new Date().toISOString();
     data.statistics.totalDevices = Object.keys(data.macAddresses).length]. *)
Definition stamp (now : Z) (d : Database) : Database :=
  set_statistics
    (mkStatistics (size (macAddresses d)) (totalAccesses (statistics d)) now) d.

(** [writeDatabase(data)]. *)
Definition writeDatabase (d : Database) (w : World) : World * bool :=
  let w1 := backupDatabase w in
  let d' := stamp (clock w1) d in
  let w2 := emit [FsWriteTmp] (set_tmpFile (Content d') w1) in
  if (overwrite || negb (pathExists (macFile w2)))%bool
  then
    (emit [FsMove true] (set_tmpFile Missing (set_macFile (Content d') w2)),
     true)
  else (emit [FsMove false] w2, false).

(** [logAccess(macAddress, deviceInfo, success, message)]. *)
Definition logAccess (mac : string) (dev : DeviceInfo)
    (ok : bool) (msg : string) (w : World) : World :=
  let logData :=
    if pathExists (logFile w) then readJson (logFile w)
    else Some (emptyLog (clock w)) in
  match logData with
  | None => w                    (* readJson threw; caught and logged *)
  | Some ld =>
      let logEntry :=
        mkLogEntry (clock w) mac
          (mkDeviceInfo (hostname dev) (username dev) (platform dev)
             (localIP dev) (publicIP dev)
             (Some (match fingerprint dev with
                    | Some f => js.substring0 16 f
                    | None => "undefined"
                    end +:+ "...")))
          ok msg (randomUUID (uuids w)) in
      let events := accessEvents ld ++ [logEntry] in
      let events' :=
        if Nat.ltb 1000 (length events) then js.slice_last 1000 events
        else events in
      emit [FsWriteLog]
        (set_logFile
           (Content (mkLogData (log_version ld) (log_created ld) events'))
           (set_uuids (S (uuids w)) w))
  end.

(** The body of the loop of [checkAccess] for a candidate that is in
    the whitelist: update the entry and the access total, save, log,
    answer. *)
Definition grantAccess (d : Database) (normalizedMac : string)
    (entry : Entry) (dev : DeviceInfo) (w : World)
    : World * Result AccessData :=
  let entry' :=
    mkEntry (description entry) (accessType entry) (addedAt entry)
      (updatedAt entry)
      (Some (clock w))
      (Some (js.or_zero (accessCount entry) + 1))
      (Some (mkLastDevice (hostname dev) (username dev) (platform dev)
               (localIP dev) (publicIP dev)))
      (id entry) in
  let d' :=
    set_statistics
      (mkStatistics (totalDevices (statistics d))
         (Some (js.or_zero (totalAccesses (statistics d)) + 1))
         (lastUpdated (statistics d)))
      (set_macAddresses (<[normalizedMac := entry']> (macAddresses d)) d) in
  let w1 := (writeDatabase d' w).1 in
  let w2 := logAccess normalizedMac dev true "Access granted" w1 in
  (w2,
   mkResult true "Device authorized"
     (Some (mkAccessData normalizedMac (description entry')
              (js.or_default (accessType entry') "trial")
              (Some (addedAt entry')) (lastSeen entry')
              (accessCount entry')))).

(** The same body for a candidate that names a member of
    [Object.prototype] and no entry: [data.macAddresses[normalizedMac]]
    is that member, the three assignments go to it and leave the map
    as it is, the access total is raised, the snapshot saved, the
    event logged, and the answer built from the member's properties:
    before anything was assigned to it, it has no description, no
    access type, no date of addition and no access count. *)
Definition grantMember (d : Database) (normalizedMac : string)
    (dev : DeviceInfo) (w : World) : World * Result AccessData :=
  let d' :=
    set_statistics
      (mkStatistics (totalDevices (statistics d))
         (Some (js.or_zero (totalAccesses (statistics d)) + 1))
         (lastUpdated (statistics d)))
      d in
  let w1 := (writeDatabase d' w).1 in
  let w2 := logAccess normalizedMac dev true "Access granted" w1 in
  (w2,
   mkResult true "Device authorized"
     (Some (mkAccessData normalizedMac None (js.or_default None "trial")
              None (Some (clock w)) (Some (js.or_zero None + 1))))).

(** [for (const macAddress of macAddresses) { ... return ... }]; the
    test is [if (data.macAddresses[normalizedMac])]. *)
Fixpoint checkAccess_for (d : Database) (candidates : list string)
    (dev : DeviceInfo) (w : World) : option (World * Result AccessData) :=
  match candidates with
  | [] => None
  | macAddress :: rest =>
      let normalizedMac := js.toLowerCase macAddress in
      match macAddresses d !! normalizedMac with
      | Some entry => Some (grantAccess d normalizedMac entry dev w)
      | None =>
          if js.inherited normalizedMac
          then Some (grantMember d normalizedMac dev w)
          else checkAccess_for d rest dev w
      end
  end.

(** [checkAccess(macAddresses, deviceInfo)]. *)
Definition checkAccess (candidates : list string) (dev : DeviceInfo)
    (w : World) : World * Result AccessData :=
  let d := readDatabase w in
  match checkAccess_for d candidates dev w with
  | Some r => r
  | None =>
      let w1 :=
        logAccess (js.or_default (head candidates) "unknown") dev false
          "MAC address not whitelisted" w in
      (w1,
       mkResult false
         "Device not authorized. MAC address not in whitelist." None)
  end.

(** [addMACAddress(macAddress, description, accessType = 'trial')];
    [None] for [accessType] is the omitted argument. *)
Definition addMACAddress (macAddress : string) (desc : option string)
    (accessType_arg : option string) (w : World) : World * Result Entry :=
  let accessType := default "trial" accessType_arg in
  let normalizedMac := js.toLowerCase macAddress in
  let d := readDatabase w in
  match macAddresses d !! normalizedMac with
  | Some _ =>
      (w, mkResult false "MAC address already exists in whitelist" None)
  | None =>
      if js.inherited normalizedMac
      then (w, mkResult false "MAC address already exists in whitelist" None)
      else
        let entry :=
          mkEntry desc (Some accessType) (clock w) None None (Some 0) None
            (Some (randomUUID (uuids w))) in
        let d' :=
          set_macAddresses (<[normalizedMac := entry]> (macAddresses d)) d in
        let '(w1, saved) := writeDatabase d' (set_uuids (S (uuids w)) w) in
        if saved
        then (w1, mkResult true "MAC address added successfully" (Some entry))
        else (w1, mkResult false "Failed to save to database" None)
  end.

(** [updateMACAccess(macAddress, accessType)].  Under the name of a
    member of [Object.prototype] that is no key of the map, the test
    [!data.macAddresses[normalizedMac]] fails, the two assignments go
    to the member and the snapshot is saved with the entries it had. *)
Definition updateMACAccess (macAddress : string) (accessType : string)
    (w : World) : World * Result Updated :=
  let normalizedMac := js.toLowerCase macAddress in
  let d := readDatabase w in
  match macAddresses d !! normalizedMac with
  | None =>
      if js.inherited normalizedMac
      then
        let '(w1, saved) := writeDatabase d w in
        if saved
        then (w1, mkResult true "Access type updated successfully"
                    (Some (UpdatedMember normalizedMac accessType (clock w))))
        else (w1, mkResult false "Failed to save to database" None)
      else (w, mkResult false "MAC address not found in whitelist" None)
  | Some entry =>
      let entry' :=
        set_updatedAt (Some (clock w))
          (set_accessType (Some accessType) entry) in
      let d' :=
        set_macAddresses (<[normalizedMac := entry']> (macAddresses d)) d in
      let '(w1, saved) := writeDatabase d' w in
      if saved
      then (w1, mkResult true "Access type updated successfully"
                  (Some (UpdatedEntry entry')))
      else (w1, mkResult false "Failed to save to database" None)
  end.

(** [removeMACAddress(macAddress)].  Under the name of a member of
    [Object.prototype] that is no key of the map, the test
    [!data.macAddresses[normalizedMac]] fails, [delete] removes nothing
    and the snapshot is saved with the entries it had. *)
Definition removeMACAddress (macAddress : string) (w : World)
    : World * Result unit :=
  let normalizedMac := js.toLowerCase macAddress in
  let d := readDatabase w in
  match macAddresses d !! normalizedMac with
  | None =>
      if js.inherited normalizedMac
      then
        let '(w1, saved) := writeDatabase d w in
        if saved
        then (w1, mkResult true "MAC address removed successfully" None)
        else (w1, mkResult false "Failed to save to database" None)
      else (w, mkResult false "MAC address not found in whitelist" None)
  | Some _ =>
      let d' := set_macAddresses (delete normalizedMac (macAddresses d)) d in
      let '(w1, saved) := writeDatabase d' w in
      if saved
      then (w1, mkResult true "MAC address removed successfully" None)
      else (w1, mkResult false "Failed to save to database" None)
  end.

(** The turn of the loop of [bulkAddMACs] that finds the key taken:
    by an entry, or by a member of [Object.prototype]. *)
Definition bulkAdd_skip (normalizedMac : string) (st : BulkState)
    : BulkState :=
  mkBulkState (bs_map st) (bs_uuids st)
    (bs_results st ++
       [mkBulkItem normalizedMac "skipped" (Some "Already exists") None])
    (bs_added st) (S (bs_skipped st)).

(** One turn of the loop of [bulkAddMACs]; [None] is the [TypeError] of
    [macEntry.macAddress.toLowerCase()] on an element that has no
    [macAddress] that is a string. *)
Definition bulkAdd_step (now : Z) (macEntry : MacEntry) (st : BulkState)
    : option BulkState :=
  match in_macAddress macEntry with
  | None => None
  | Some macAddress =>
      let normalizedMac := js.toLowerCase macAddress in
      match bs_map st !! normalizedMac with
      | Some _ => Some (bulkAdd_skip normalizedMac st)
      | None =>
          if js.inherited normalizedMac
          then Some (bulkAdd_skip normalizedMac st)
          else
            Some
              (mkBulkState
                 (<[normalizedMac :=
                      mkEntry
                        (Some (js.or_default (in_description macEntry)
                                 "Bulk added device"))
                        (Some (js.or_default (in_accessType macEntry) "trial"))
                        now None None (Some 0) None
                        (Some (randomUUID (bs_uuids st)))]> (bs_map st))
                 (S (bs_uuids st))
                 (bs_results st ++
                    [mkBulkItem normalizedMac "added" None
                       (Some (js.or_default (in_accessType macEntry)
                                "trial"))])
                 (S (bs_added st)) (bs_skipped st))
      end
  end.

(** How the loop of [bulkAddMACs] ends: after the last element, or in
    the exception of a turn, with the variables as they were then. *)
Inductive BulkLoop : Type :=
| BulkDone (st : BulkState)
| BulkThrown (st : BulkState).

(** [for (const macEntry of macAddressList) { ... }]. *)
Fixpoint bulkAdd_for (now : Z) (l : list MacEntry) (st : BulkState)
    : BulkLoop :=
  match l with
  | [] => BulkDone st
  | macEntry :: rest =>
      match bulkAdd_step now macEntry st with
      | Some st' => bulkAdd_for now rest st'
      | None => BulkThrown st
      end
  end.

(** The text of the [TypeError] that
    [macEntry.macAddress.toLowerCase()] raises on such an element; it
    is the engine's. *)
Variable typeError : string.

(** [bulkAddMACs(macAddressList)].  The exception of a turn is caught
    around the whole body: nothing is written, the identifiers drawn
    by the turns before it are spent. *)
Definition bulkAddMACs (macAddressList : list MacEntry) (w : World)
    : World * Result BulkData :=
  let d := readDatabase w in
  match bulkAdd_for (clock w) macAddressList
          (mkBulkState (macAddresses d) (uuids w) [] 0 0) with
  | BulkThrown st =>
      (set_uuids (bs_uuids st) w,
       mkResult false ("Bulk add error: " +:+ typeError) None)
  | BulkDone st =>
      let d' := set_macAddresses (bs_map st) d in
      let '(w1, saved) := writeDatabase d' (set_uuids (bs_uuids st) w) in
      if saved
      then
        (w1,
         mkResult true
           ("Bulk operation completed: " +:+ pretty (bs_added st) +:+
            " added, " +:+ pretty (bs_skipped st) +:+ " skipped")
           (Some (mkBulkData (bs_results st)
                    (mkBulkSummary (length macAddressList)
                       (bs_added st) (bs_skipped st)))))
      else
        (w1, mkResult false "Failed to save bulk changes to database" None)
  end.

(** The body of the integrity sweep of [maintenance] for one entry:
    the entry after the fixes, the oracle's position and the number of
    fixes made. *)
Definition sweep_entry (entry : Entry) (u : nat) : Entry * nat * nat :=
  let '(e1, u1, f1) :=
    if js.truthy (id entry) then (entry, u, 0)
    else (set_id (Some (randomUUID u)) entry, S u, 1) in
  if js.truthy (accessType e1) then (e1, u1, f1)
  else (set_accessType (Some "trial") e1, u1, S f1).

(** [Object.entries(data.macAddresses).forEach(([mac, entry]) => ..)]. *)
Fixpoint sweep_for (l : list (string * Entry)) (u fixedCount : nat)
    : list (string * Entry) * nat * nat :=
  match l with
  | [] => ([], u, fixedCount)
  | (mac, entry) :: rest =>
      let '(entry', u', f) := sweep_entry entry u in
      let '(rest', u'', fixedCount') := sweep_for rest u' (fixedCount + f) in
      ((mac, entry') :: rest', u'', fixedCount')
  end.

(** The text of the exception [readJson] raises; it is the library's. *)
Variable jsonError : string.

(** [maintenance()]. *)
Definition maintenance (w : World) : World * Result MaintenanceData :=
  let w1 := backupDatabase w in
  let cleaned : option World :=
    if pathExists (logFile w1) then
      match readJson (logFile w1) with
      | None => None
      | Some logData =>
          if Nat.ltb 1000 (length (accessEvents logData))
          then
            Some (emit [FsWriteLog]
                    (set_logFile
                       (Content (mkLogData (log_version logData)
                                   (log_created logData)
                                   (js.slice_last 1000 (accessEvents logData))))
                       w1))
          else Some w1
      end
    else Some w1 in
  match cleaned with
  | None => (w1, mkResult false ("Maintenance error: " +:+ jsonError) None)
  | Some w2 =>
      let d := readDatabase w2 in
      let '(swept, u, fixedCount) :=
        sweep_for (map_to_list (macAddresses d)) (uuids w2) 0 in
      let d' := set_macAddresses (list_to_map swept) d in
      let w3 := set_uuids u w2 in
      let w4 := if Nat.ltb 0 fixedCount then (writeDatabase d' w3).1 else w3 in
      (w4,
       mkResult true "Maintenance completed successfully"
         (Some (mkMaintenanceData 1 fixedCount)))
  end.

End operations.

End mac_database.

(** ** [src/auth/macdb.js]: class [MacDatabase] *)

Module macdb.

(** *** Data model *)

(** What an [async] method does: return a value or reject with an
    [Error] carrying a message. *)
Inductive outcome (A : Type) : Type :=
| Return (a : A)
| Throw (err : string).
Arguments Return {A} a.
Arguments Throw {A} err.

Record Metadata : Type := mkMetadata {
  created : Z;
  version : string;
  totalEntries : nat;
  lastModified : option Z }.

(** One entry of [macAddresses]; [extra] holds the properties spread from
    the caller's [metadata] object. *)
Record Entry : Type := mkEntry {
  added : Z;
  hash : string;
  active : bool;
  lastAccess : option Z;
  accessCount : option nat;
  entry_lastModified : option Z;
  extra : gmap string string }.

(** The document in [mac_addresses.json]. *)
Record Database : Type := mkDatabase {
  metadata : Metadata;
  macAddresses : gmap string Entry }.

(** The database directory: the document, the lock file [.lock], the
    clock, and the file-system calls issued so far. *)
Record World : Type := mkWorld {
  dbFile : File Database;
  lockFile : bool;
  clock : Z;
  trace : list FsOp }.

Definition set_dbFile (f : File Database) (w : World) : World :=
  mkWorld f (lockFile w) (clock w) (trace w).
Definition set_lockFile (b : bool) (w : World) : World :=
  mkWorld (dbFile w) b (clock w) (trace w).
Definition set_clock (t : Z) (w : World) : World :=
  mkWorld (dbFile w) (lockFile w) t (trace w).
Definition emit (ops : list FsOp) (w : World) : World :=
  mkWorld (dbFile w) (lockFile w) (clock w) (trace w ++ ops).

(** [await new Promise(resolve => setTimeout(resolve, ms))]: the clock
    moves on by the delay asked for. *)
Definition sleep (ms : Z) (w : World) : World :=
  emit [FsSleep ms] (set_clock (clock w + ms) w).

Record AddResult : Type := mkAddResult {
  success : bool;
  message : string;
  macAddress : option string }.

Record AuthResult : Type := mkAuthResult {
  authenticated : bool;
  reason : option string;
  auth_macAddress : option string;
  auth_lastAccess : option Z;
  auth_accessCount : option nat }.

(** *** MAC strings *)

(** [.replace(/(.{2})(?=.)/g, '$1:')] on a string without line breaks:
    a colon after every pair that is followed by a character. *)
Fixpoint colonize (l : list ascii) : list ascii :=
  match l with
  | [] => []
  | a :: l1 =>
      match l1 with
      | [] => l
      | b :: rest =>
          match rest with
          | [] => l
          | _ :: _ => a :: b :: ":"%char :: colonize rest
          end
      end
  end.

(** [normalizeMac(macAddress)]. *)
Definition normalizeMac (macAddress : string) : string :=
  string_of_list_ascii
    (colonize
       (List.filter js.is_lower_hex
          (list_ascii_of_string (js.toLowerCase macAddress)))).

(** [isValidMac(macAddress)]: [/^([0-9a-f]{2}:){5}([0-9a-f]{2})$/i]. *)
Definition isValidMac (macAddress : string) : bool :=
  js.mac_groups (Ascii.eqb ":"%char) 5 (list_ascii_of_string macAddress).

(** *** The lock file *)

(** The loop of [acquireLock]:
    [while (Date.now() - startTime < timeout) { try { writeFile(lockFile,
    pid, {flag: 'wx'}); return true } catch { sleep 10 ms } }
    throw new Error('Could not acquire database lock')].
    The write with flag [wx] fails exactly when the lock file exists. *)
Equations? acquireLock_while (timeout startTime : Z) (w : World)
    : World * outcome bool
    by wf (Z.to_nat (timeout - (clock w - startTime))) lt :=
acquireLock_while timeout startTime w
  with Z_lt_dec (clock w - startTime) timeout := {
  | right _ => (w, Throw "Could not acquire database lock")
  | left _ with lockFile w := {
    | false =>
        (emit [FsLockTry true] (set_lockFile true w), Return true)
    | true =>
        acquireLock_while timeout startTime
          (sleep 10 (emit [FsLockTry false] w)) } }.
Proof. simpl. lia. Qed.

(** [acquireLock(timeout = 5000)]. *)
Definition acquireLock (w : World) : World * outcome bool :=
  acquireLock_while 5000 (clock w) w.

(** [releaseLock()]: unlink the lock file, whether it exists or not. *)
Definition releaseLock (w : World) : World :=
  emit [FsUnlock] (set_lockFile false w).

Section operations.

(** [crypto.createHash('sha256').update(s).digest('hex')]. *)
Variable sha256 : string -> string.

(** The text of the exception raised by [readFile] or [JSON.parse]. *)
Variable readError : string.

(** [generateHash(macAddress)]. *)
Definition generateHash (macAddress : string) : string :=
  sha256 (js.toLowerCase macAddress).

(** [init()]: writes the initial document when [fs.access] fails. *)
Definition init (w : World) : World :=
  if pathExists (dbFile w) then w
  else
    set_dbFile
      (Content (mkDatabase (mkMetadata (clock w) "1.0.0" 0 None) ∅)) w.

(** [readDatabase()]: lock, read and parse, unlock in [finally]; an
    exception of the read is logged and thrown again. *)
Definition readDatabase (w : World) : World * outcome Database :=
  match acquireLock w with
  | (w1, Throw e) => (w1, Throw e)
  | (w1, Return _) =>
      (releaseLock w1,
       match readJson (dbFile w1) with
       | Some d => Return d
       | None => Throw readError
       end)
  end.

(** [writeDatabase(data)]: lock, stamp the metadata, write the document
    in place, unlock in [finally]. *)
Definition writeDatabase (d : Database) (w : World) : World * outcome unit :=
  match acquireLock w with
  | (w1, Throw e) => (w1, Throw e)
  | (w1, Return _) =>
      let d' :=
        mkDatabase
          (mkMetadata (created (metadata d)) (version (metadata d))
             (size (macAddresses d)) (Some (clock w1)))
          (macAddresses d) in
      (releaseLock (emit [FsWriteDb] (set_dbFile (Content d') w1)), Return tt)
  end.

(** [addMacAddress(macAddress, metadata = {})].  The metadata is
    spread into the new entry after the five properties it is given;
    [meta] is taken to name none of them (nor [lastModified]), so that
    it replaces none and goes to [extra] as it is.  A normalized key is
    made of hexadecimal digits and colons and so is the name of no
    member of [Object.prototype]: the lookups of this class find own
    properties only. *)
Definition addMacAddress (mac : string) (meta : gmap string string)
    (w : World) : World * outcome AddResult :=
  let normalizedMac := normalizeMac mac in
  if negb (isValidMac normalizedMac)
  then (w, Throw "Invalid MAC address format")
  else
    match readDatabase w with
    | (w1, Throw e) => (w1, Throw e)
    | (w1, Return d) =>
        match macAddresses d !! normalizedMac with
        | Some _ =>
            (w1, Return (mkAddResult false "MAC address already exists" None))
        | None =>
            let entry :=
              mkEntry (clock w1) (generateHash normalizedMac) true None
                (Some 0) None meta in
            let d' :=
              mkDatabase (metadata d)
                (<[normalizedMac := entry]> (macAddresses d)) in
            match writeDatabase d' w1 with
            | (w2, Throw e) => (w2, Throw e)
            | (w2, Return _) =>
                (w2,
                 Return (mkAddResult true "MAC address added successfully"
                           (Some normalizedMac)))
            end
        end
    end.

(** [authenticateMac(macAddress)]. *)
Definition authenticateMac (mac : string) (w : World)
    : World * outcome AuthResult :=
  let normalizedMac := normalizeMac mac in
  if negb (isValidMac normalizedMac)
  then
    (w, Return (mkAuthResult false (Some "Invalid MAC format") None None None))
  else
    match readDatabase w with
    | (w1, Throw e) => (w1, Throw e)
    | (w1, Return d) =>
        match macAddresses d !! normalizedMac with
        | None =>
            (w1, Return (mkAuthResult false (Some "MAC address not found")
                           None None None))
        | Some entry =>
            if negb (active entry)
            then
              (w1, Return (mkAuthResult false (Some "MAC address is disabled")
                             None None None))
            else
              let entry' :=
                mkEntry (added entry) (hash entry) (active entry)
                  (Some (clock w1))
                  (Some (js.or_zero (accessCount entry) + 1))
                  (entry_lastModified entry) (extra entry) in
              let d' :=
                mkDatabase (metadata d)
                  (<[normalizedMac := entry']> (macAddresses d)) in
              match writeDatabase d' w1 with
              | (w2, Throw e) => (w2, Throw e)
              | (w2, Return _) =>
                  (w2,
                   Return (mkAuthResult true None (Some normalizedMac)
                             (lastAccess entry') (accessCount entry')))
              end
        end
    end.

(** [removeMacAddress(macAddress)]. *)
Definition removeMacAddress (mac : string) (w : World)
    : World * outcome AddResult :=
  let normalizedMac := normalizeMac mac in
  match readDatabase w with
  | (w1, Throw e) => (w1, Throw e)
  | (w1, Return d) =>
      match macAddresses d !! normalizedMac with
      | None => (w1, Return (mkAddResult false "MAC address not found" None))
      | Some _ =>
          let d' :=
            mkDatabase (metadata d) (delete normalizedMac (macAddresses d)) in
          match writeDatabase d' w1 with
          | (w2, Throw e) => (w2, Throw e)
          | (w2, Return _) =>
              (w2,
               Return (mkAddResult true "MAC address removed successfully"
                         (Some normalizedMac)))
          end
      end
  end.

End operations.

End macdb.

(** ** [src/api/mac-auth.js]: the handlers over the key-value store *)

Module mac_auth.

Record Entry : Type := mkEntry {
  macAddress : string;
  description : string;
  accessType : option string;
  addedAt : Z;
  updatedAt : option Z;
  accessCount : option nat;
  lastSeen : option Z;
  lastDevice : option mac_database.DeviceInfo }.

(** The value stored under [MAC_DATA_KEY] ([None]: never set), whether
    the service answers, the clock, and the calls made to the store. *)
Record World : Type := mkWorld {
  kvData : option (gmap string Entry);
  kvOnline : bool;
  clock : Z;
  trace : list FsOp }.

Definition set_kvData (m : option (gmap string Entry)) (w : World) : World :=
  mkWorld m (kvOnline w) (clock w) (trace w).
Definition emit (ops : list FsOp) (w : World) : World :=
  mkWorld (kvData w) (kvOnline w) (clock w) (trace w ++ ops).

Definition ADMIN_SECRET_KEYS : list string := ["122316"].

(** [getAllMacAddresses()]: [{}] when nothing is stored or the call fails. *)
Definition getAllMacAddresses (w : World) : World * gmap string Entry :=
  (emit [KvGet] w, if kvOnline w then default ∅ (kvData w) else ∅).

(** [saveAllMacAddresses(macData)]. *)
Definition saveAllMacAddresses (m : gmap string Entry) (w : World)
    : World * bool :=
  if kvOnline w then (emit [KvSet true] (set_kvData (Some m) w), true)
  else (emit [KvSet false] w, false).

(** [isValidAdmin(adminKey)]. *)
Definition isValidAdmin (adminKey : option string) : bool :=
  match adminKey with
  | Some k => bool_decide (k ∈ ADMIN_SECRET_KEYS)
  | None => false
  end.

(** [isValidMac(mac)]: [/^([0-9A-Fa-f]{2}[:-]){5}([0-9A-Fa-f]{2})$/]. *)
Definition isValidMac (mac : string) : bool :=
  js.mac_groups js.is_colon_or_hyphen 5 (list_ascii_of_string mac).

(** [['trial', 'unlimited', 'admin'].includes(accessType)]. *)
Definition isAccessType (accessType : option string) : bool :=
  match accessType with
  | Some a => bool_decide (a ∈ ["trial"; "unlimited"; "admin"])
  | None => false
  end.

(** The body of an [update-access] request. *)
Record UpdateBody : Type := mkUpdateBody {
  u_macAddress : option string;
  u_accessType : option string;
  u_adminKey : option string }.

Record UpdateData : Type := mkUpdateData {
  d_macAddress : string;
  d_accessType : string;
  d_updatedAt : option Z }.

(** [res.status(status).json({success, message, data})]. *)
Record Response (A : Type) : Type := mkResponse {
  status : nat;
  success : bool;
  message : string;
  data : option A }.
Arguments mkResponse {A} _ _ _ _.
Arguments status {A} _.
Arguments success {A} _.
Arguments message {A} _.
Arguments data {A} _.

(** [handleUpdateAccess(req, res)]. *)
Definition handleUpdateAccess (body : UpdateBody) (w : World)
    : World * Response UpdateData :=
  if negb (isValidAdmin (u_adminKey body))
  then (w, mkResponse 403 false "Invalid admin key" None)
  else
    match u_macAddress body with
    | None => (w, mkResponse 400 false "Invalid MAC address format" None)
    | Some mac =>
        if negb (isValidMac mac)
        then (w, mkResponse 400 false "Invalid MAC address format" None)
        else if negb (isAccessType (u_accessType body))
        then
          (w, mkResponse 400 false
                "Invalid access type. Must be: trial, unlimited, or admin" None)
        else
          let accessType := default "" (u_accessType body) in
          let normalizedMac := js.toLowerCase mac in
          let '(w1, allMacs) := getAllMacAddresses w in
          match allMacs !! normalizedMac with
          | None =>
              (w1, mkResponse 404 false "MAC address not found in whitelist" None)
          | Some entry =>
              let entry' :=
                mkEntry (macAddress entry) (description entry) (Some accessType)
                  (addedAt entry) (Some (clock w1)) (accessCount entry)
                  (lastSeen entry) (lastDevice entry) in
              let '(w2, saved) :=
                saveAllMacAddresses (<[normalizedMac := entry']> allMacs) w1 in
              if saved
              then
                (w2, mkResponse 200 true "Access type updated successfully"
                       (Some (mkUpdateData normalizedMac accessType
                                (updatedAt entry'))))
              else
                (w2, mkResponse 500 false
                       "Failed to update MAC address in database" None)
          end
    end.

(** The body of a [check-access] request. *)
Record CheckBody : Type := mkCheckBody {
  c_macAddresses : option (list string);
  c_deviceInfo : option mac_database.DeviceInfo }.

(** The [data] of the answer to a check: the entry's public fields when
    access is granted, the same fields of a member of
    [Object.prototype] found under the key ([description] and
    [addedAt] are [undefined] there and left out of the answer), the
    request echoed back when it is refused. *)
Inductive CheckData : Type :=
| Granted (mac : string) (desc : string) (accessType_ : string) (addedAt_ : Z)
    (lastSeen_ : option Z) (accessCount_ : option nat)
| GrantedMember (mac : string) (accessType_ : string)
    (lastSeen_ : option Z) (accessCount_ : option nat)
| Refused (providedMacs : list string)
    (deviceInfo : option mac_database.DeviceInfo).

(** The body of the loop of [handleCheckAccess] for a candidate that is
    stored. *)
Definition grant (allMacs : gmap string Entry) (normalizedMac : string)
    (macData : Entry) (dev : option mac_database.DeviceInfo) (w : World)
    : World * Response CheckData :=
  let macData' :=
    mkEntry (macAddress macData) (description macData) (accessType macData)
      (addedAt macData) (updatedAt macData)
      (Some (js.or_zero (accessCount macData) + 1))
      (Some (clock w)) dev in
  let w1 := (saveAllMacAddresses (<[normalizedMac := macData']> allMacs) w).1 in
  (w1,
   mkResponse 200 true "Device authorized"
     (Some (Granted normalizedMac (description macData')
              (js.or_default (accessType macData') "trial")
              (addedAt macData') (lastSeen macData') (accessCount macData')))).

(** The same body for a candidate that names a member of
    [Object.prototype] and no stored address: [allMacs[normalizedMac]]
    is that member and the three assignments go to it.  The assignment
    [allMacs[normalizedMac] = macData] puts a function under the key,
    which the JSON text sent to the store leaves out (under
    [__proto__] it sets the prototype to what it is), so the map that
    is saved is the one that was read.  Before anything was assigned
    to it, the member has no access type and no access count. *)
Definition grant_member (allMacs : gmap string Entry) (normalizedMac : string)
    (w : World) : World * Response CheckData :=
  let w1 := (saveAllMacAddresses allMacs w).1 in
  (w1,
   mkResponse 200 true "Device authorized"
     (Some (GrantedMember normalizedMac (js.or_default None "trial")
              (Some (clock w)) (Some (js.or_zero None + 1))))).

(** [for (const mac of macAddresses) { ... return ... }]; the test is
    [if (allMacs[normalizedMac])]. *)
Fixpoint handleCheckAccess_for (allMacs : gmap string Entry)
    (candidates : list string) (dev : option mac_database.DeviceInfo)
    (w : World) : option (World * Response CheckData) :=
  match candidates with
  | [] => None
  | mac :: rest =>
      let normalizedMac := js.toLowerCase mac in
      match allMacs !! normalizedMac with
      | Some macData => Some (grant allMacs normalizedMac macData dev w)
      | None =>
          if js.inherited normalizedMac
          then Some (grant_member allMacs normalizedMac w)
          else handleCheckAccess_for allMacs rest dev w
      end
  end.

(** [handleCheckAccess(req, res)]. *)
Definition handleCheckAccess (body : CheckBody) (w : World)
    : World * Response CheckData :=
  match c_macAddresses body with
  | None => (w, mkResponse 400 false "Invalid MAC addresses provided" None)
  | Some macAddresses =>
      let '(w1, allMacs) := getAllMacAddresses w in
      match handleCheckAccess_for allMacs macAddresses (c_deviceInfo body) w1 with
      | Some r => r
      | None =>
          (w1,
           mkResponse 403 false
             "Device not authorized. Contact administrator to whitelist your MAC address."
             (Some (Refused macAddresses (c_deviceInfo body))))
      end
  end.

End mac_auth.

(** ** [api/mac-auth.js], the variant that stores an array in a file *)

Module mac_auth_file.

Record Entry : Type := mkEntry {
  macAddress : string;
  description : string;
  addedAt : Z;
  addedBy : string;
  lastSeen : option Z;
  lastDevice : option mac_database.DeviceInfo;
  accessCount : option nat }.

Record LogEntry : Type := mkLogEntry {
  timestamp : Z;
  log_macAddresses : list string;
  deviceInfo : option mac_database.DeviceInfo;
  granted : bool;
  reason : string;
  ip : string }.

(** What the handlers read of the request besides its body. *)
Record Request : Type := mkRequest {
  method : string;
  xForwardedFor : option string;
  remoteAddress : option string }.

(** [/tmp/mac-whitelist.json], the backups written next to it,
    [/tmp/access-logs.json], the clock and the file-system calls. *)
Record World : Type := mkWorld {
  dataFile : File (list Entry);
  backupFiles : list (Z * list Entry);
  logFile : File (list LogEntry);
  clock : Z;
  trace : list FsOp }.

Definition set_dataFile (f : File (list Entry)) (w : World) : World :=
  mkWorld f (backupFiles w) (logFile w) (clock w) (trace w).
Definition set_backupFiles (b : list (Z * list Entry)) (w : World) : World :=
  mkWorld (dataFile w) b (logFile w) (clock w) (trace w).
Definition set_logFile (f : File (list LogEntry)) (w : World) : World :=
  mkWorld (dataFile w) (backupFiles w) f (clock w) (trace w).
Definition emit (ops : list FsOp) (w : World) : World :=
  mkWorld (dataFile w) (backupFiles w) (logFile w) (clock w) (trace w ++ ops).

Definition ADMIN_SECRET_KEY : string := "122316".

(** [getWhitelist()]: [[]] when the file is missing or does not parse. *)
Definition getWhitelist (w : World) : list Entry :=
  default [] (readJson (dataFile w)).

(** [saveWhitelist(whitelist)]: the main file, then a backup named after
    [Date.now()]. *)
Definition saveWhitelist (whitelist : list Entry) (w : World) : World * bool :=
  (emit [FsWriteDb; FsWriteBackup]
     (set_backupFiles
        ((clock w, whitelist) :: filter (λ p, p.1 ≠ clock w) (backupFiles w))
        (set_dataFile (Content whitelist) w)),
   true).

(** [logAccess(macAddresses, deviceInfo, granted, reason, req)]. *)
Definition logAccess (macAddresses : list string)
    (dev : option mac_database.DeviceInfo) (granted_ : bool) (reason_ : string)
    (req : Request) (w : World) : World :=
  let logEntry :=
    mkLogEntry (clock w) macAddresses dev granted_ reason_
      (js.or_default (xForwardedFor req)
         (js.or_default (remoteAddress req) "unknown")) in
  let logs :=
    if pathExists (logFile w) then default [] (readJson (logFile w)) else [] in
  let logs1 := logs ++ [logEntry] in
  let logs2 :=
    if Nat.ltb 500 (length logs1) then js.slice_last 500 logs1 else logs1 in
  emit [FsWriteLog] (set_logFile (Content logs2) w).

(** One element of the array of a [bulk-add] request; [in_macAddress]
    is [None] for an element that has no [macAddress] that is a
    string. *)
Record MacData : Type := mkMacData {
  in_macAddress : option string;
  in_description : option string }.

Record BulkBody : Type := mkBulkBody {
  b_macAddresses : option (list MacData);
  b_adminKey : option string }.

Record ItemResult : Type := mkItemResult {
  i_macAddress : string;
  i_success : bool;
  i_reason : string }.

Record BulkData : Type := mkBulkData {
  results : list ItemResult;
  successCount : nat;
  failureCount : nat }.

Record Response : Type := mkResponse {
  status : nat;
  success : bool;
  message : string;
  data : option BulkData }.

(** The test of [/^([0-9A-Fa-f]{2}[:-]){5}([0-9A-Fa-f]{2})$/]. *)
Definition macRegex_test (s : string) : bool :=
  js.mac_groups js.is_colon_or_hyphen 5 (list_ascii_of_string s).

(** [whitelist.find(entry => entry.macAddress === mac)]. *)
Definition find_entry (mac : string) (whitelist : list Entry) : option Entry :=
  List.find (λ entry, String.eqb (macAddress entry) mac) whitelist.

(** One turn of the loop of [handleBulkAddMACs]: the whitelist and the
    results after it; [None] is the [TypeError] of
    [macAddress.toLowerCase()] on an element that has no [macAddress]
    that is a string. *)
Definition bulk_step (now : Z) (macData : MacData)
    (st : list Entry * list ItemResult)
    : option (list Entry * list ItemResult) :=
  let '(whitelist, results_) := st in
  match in_macAddress macData with
  | None => None
  | Some macAddress =>
      let normalizedMAC := js.trim (js.toLowerCase macAddress) in
      if negb (macRegex_test normalizedMAC)
      then
        Some (whitelist,
              results_ ++ [mkItemResult normalizedMAC false "Invalid format"])
      else
        match find_entry normalizedMAC whitelist with
        | Some _ =>
            Some (whitelist,
                  results_ ++
                    [mkItemResult normalizedMAC false "Already exists"])
        | None =>
            Some (whitelist ++
                    [mkEntry normalizedMAC
                       (js.or_default (in_description macData) "Bulk added")
                       now "admin" None None (Some 0)],
                  results_ ++
                    [mkItemResult normalizedMAC true "Added successfully"])
        end
  end.

(** [for (const macData of macAddresses) { ... }]; [None] when a turn
    throws. *)
Fixpoint bulk_for (now : Z) (l : list MacData)
    (st : list Entry * list ItemResult)
    : option (list Entry * list ItemResult) :=
  match l with
  | [] => Some st
  | macData :: rest =>
      match bulk_step now macData st with
      | Some st' => bulk_for now rest st'
      | None => None
      end
  end.

(** [handleBulkAddMACs(req, res)]: the world after it and the answer it
    sends.  The answer [None] is the exception of a turn of the loop:
    nothing catches it in the function, whose promise rejects before
    anything is saved or sent. *)
Definition handleBulkAddMACs (req : Request) (body : BulkBody) (w : World)
    : World * option Response :=
  if negb (String.eqb (method req) "POST")
  then (w, Some (mkResponse 405 false "Method not allowed" None))
  else if negb (bool_decide (b_adminKey body = Some ADMIN_SECRET_KEY))
  then (w, Some (mkResponse 401 false "Invalid admin key" None))
  else
    match b_macAddresses body with
    | None =>
        (w, Some (mkResponse 400 false "MAC addresses array required" None))
    | Some macAddresses =>
        let whitelist := getWhitelist w in
        match bulk_for (clock w) macAddresses (whitelist, []) with
        | None => (w, None)
        | Some (whitelist', results_) =>
            let w1 := (saveWhitelist whitelist' w).1 in
            let successCount_ := length (List.filter i_success results_) in
            (w1,
             Some
               (mkResponse 200 true
                  ("Bulk operation completed: " +:+ pretty successCount_ +:+
                   "/" +:+ pretty (length macAddresses) +:+ " successful")
                  (Some (mkBulkData results_ successCount_
                           (length macAddresses - successCount_)))))
        end
    end.

End mac_auth_file.

(** * Vocabulary of the properties *)

Section mac_database_vocabulary.

Import mac_database.

Variable randomUUID : nat -> string.
Variable overwrite : bool.

(** The file-system calls of one [backupDatabase]. *)
Definition backup_ops (w : World) : list FsOp :=
  if pathExists (macFile w) then [FsCopyBackup] else [].

(** Whether the [move] that ends a write goes through in [w]. *)
Definition moves (w : World) : bool :=
  overwrite || negb (pathExists (macFile w)).

(** The entry as [checkAccess] leaves it after a granted check. *)
Definition touched (now : Z) (dev : DeviceInfo) (e : Entry) : Entry :=
  mkEntry (description e) (accessType e) (addedAt e) (updatedAt e)
    (Some now) (Some (js.or_zero (accessCount e) + 1))
    (Some (mkLastDevice (hostname dev) (username dev) (platform dev)
             (localIP dev) (publicIP dev)))
    (id e).

(** The stored device count agrees with the entry map. *)
Definition consistent (d : Database) : Prop :=
  totalDevices (statistics d) = size (macAddresses d).

(** From [w] to [w'] the committed snapshot either stayed as it was or was
    replaced by one whose count is right and whose [lastUpdated] is the
    time of the call. *)
Definition commit_ok (w w' : World) : Prop :=
  macFile w' = macFile w ∨
  ∃ d', macFile w' = Content d' ∧ consistent d' ∧
        lastUpdated (statistics d') = clock w.

(** The events a world's log holds ([[]] when there is no file yet). *)
Definition events_of (w : World) : list LogEntry :=
  match logFile w with
  | Content ld => accessEvents ld
  | _ => []
  end.

(** One call of [logAccess]: when it is made and with what. *)
Record LogCall : Type := mkLogCall {
  c_time : Z;
  c_mac : string;
  c_dev : DeviceInfo;
  c_ok : bool;
  c_msg : string }.

(** The event that the call appends when [u] identifiers were drawn
    before it. *)
Definition event_of (c : LogCall) (u : nat) : LogEntry :=
  mkLogEntry (c_time c) (c_mac c)
    (mkDeviceInfo (hostname (c_dev c)) (username (c_dev c))
       (platform (c_dev c)) (localIP (c_dev c)) (publicIP (c_dev c))
       (Some (match fingerprint (c_dev c) with
              | Some f => js.substring0 16 f
              | None => "undefined"
              end +:+ "...")))
    (c_ok c) (c_msg c) (randomUUID u).

(** The events of a sequence of calls, in the order of the calls. *)
Fixpoint events_from (u : nat) (calls : list LogCall) : list LogEntry :=
  match calls with
  | [] => []
  | c :: rest => event_of c u :: events_from (S u) rest
  end.

(** The calls made one after the other, each at its own time. *)
Fixpoint run_logAccess (calls : list LogCall) (w : World) : World :=
  match calls with
  | [] => w
  | c :: rest =>
      run_logAccess rest
        (logAccess randomUUID (c_mac c) (c_dev c) (c_ok c) (c_msg c)
           (set_clock (c_time c) w))
  end.

(** The item comes with a [macAddress] that is a string. *)
Definition addressed (x : MacEntry) : Prop := is_Some (in_macAddress x).

(** The key under which an item that comes with a [macAddress] is looked
    up and stored. *)
Definition bulk_key (x : MacEntry) : string :=
  js.toLowerCase (default "" (in_macAddress x)).

(** The key is the name of no member of [Object.prototype]. *)
Definition plain_key (k : string) : Prop := js.inherited k = false.

(** [obj[k]] is [undefined]: [k] is no key of the map and names no
    member of [Object.prototype]. *)
Definition vacant {A} (m : gmap string A) (k : string) : Prop :=
  m !! k = None ∧ plain_key k.

(** The per-item list, told from the keys alone: an item is skipped when
    its key is among [seen], the keys of the snapshot and of the items
    before it, and added otherwise, whatever its key looks like. *)
Fixpoint expected_results (seen : gset string) (l : list MacEntry)
    : list BulkItem :=
  match l with
  | [] => []
  | x :: rest =>
      (if bool_decide (bulk_key x ∈ seen)
       then mkBulkItem (bulk_key x) "skipped" (Some "Already exists") None
       else mkBulkItem (bulk_key x) "added" None
              (Some (js.or_default (in_accessType x) "trial")))
      :: expected_results ({[bulk_key x]} ∪ seen) rest
  end.

Definition is_added (r : BulkItem) : bool := String.eqb (b_status r) "added".
Definition is_skipped (r : BulkItem) : bool :=
  String.eqb (b_status r) "skipped".

(** An entry the integrity sweep has nothing to fix on. *)
Definition healthy (e : Entry) : Prop :=
  js.truthy (id e) = true ∧ js.truthy (accessType e) = true.

(** The number of fixes the sweep makes on a list of entries. *)
Definition fixes_needed (l : list (string * Entry)) : nat :=
  sum_list
    (map (λ p, (if js.truthy (id p.2) then 0 else 1) +
               (if js.truthy (accessType p.2) then 0 else 1)) l).

(** Every entry of the snapshot is healthy. *)
Definition all_healthy (d : Database) : Prop :=
  map_Forall (λ _ e, healthy e) (macAddresses d).

End mac_database_vocabulary.

Section macdb_vocabulary.

Import macdb.

(** [n] attempts on a lock that is held, each followed by its sleep. *)
Fixpoint failed_polls (n : nat) : list FsOp :=
  match n with
  | O => []
  | S n' => FsLockTry false :: FsSleep 10 :: failed_polls n'
  end.

(** The document [writeDatabase] writes for [d] at time [now]. *)
Definition stamped (now : Z) (d : Database) : Database :=
  mkDatabase
    (mkMetadata (created (metadata d)) (version (metadata d))
       (size (macAddresses d)) (Some now))
    (macAddresses d).

(** The value of a hexadecimal digit, in either case. *)
Definition hex_value (c : ascii) : option nat :=
  let n := nat_of_ascii c in
  if Nat.leb 48 n && Nat.leb n 57 then Some (n - 48)
  else if Nat.leb 97 n && Nat.leb n 102 then Some (n - 87)
  else if Nat.leb 65 n && Nat.leb n 70 then Some (n - 55)
  else None.

(** The twelve digit values of a string of the shape [HH<sep>HH...<sep>HH]
    with [n + 1] groups and separators [:] or [-]. *)
Fixpoint mac_value (n : nat) (l : list ascii) : option (list nat) :=
  match n, l with
  | O, [a; b] =>
      match hex_value a, hex_value b with
      | Some va, Some vb => Some [va; vb]
      | _, _ => None
      end
  | S n', a :: b :: s :: rest =>
      match hex_value a, hex_value b, mac_value n' rest with
      | Some va, Some vb, Some vs =>
          if js.is_colon_or_hyphen s then Some (va :: vb :: vs) else None
      | _, _, _ => None
      end
  | _, _ => None
  end.

(** Two strings spell the same address: both are accepted spellings and
    their digits have the same values. *)
Definition same_address (s1 s2 : string) : Prop :=
  ∃ v, mac_value 5 (list_ascii_of_string s1) = Some v ∧
       mac_value 5 (list_ascii_of_string s2) = Some v.

(** The lower-case digit of a value. *)
Definition digit (v : nat) : ascii :=
  ascii_of_nat (if Nat.ltb v 10 then v + 48 else v + 87).

(** Every key of the document is in canonical form. *)
Definition canonical_keys (d : Database) : Prop :=
  ∀ k, is_Some (macAddresses d !! k) → normalizeMac k = k.

Definition store_canonical (w : World) : Prop :=
  ∀ d, dbFile w = Content d → canonical_keys d.

End macdb_vocabulary.

Section mac_auth_file_vocabulary.

Import mac_auth_file.

(** The events the log file holds ([[]] when it is missing or does not
    parse: [logAccess] starts again from an empty array then). *)
Definition file_events_of (w : World) : list LogEntry :=
  default [] (readJson (logFile w)).

(** One call of [logAccess]. *)
Record FileLogCall : Type := mkFileLogCall {
  fc_time : Z;
  fc_macs : list string;
  fc_dev : option mac_database.DeviceInfo;
  fc_granted : bool;
  fc_reason : string;
  fc_req : Request }.

Definition file_event_of (c : FileLogCall) : LogEntry :=
  mkLogEntry (fc_time c) (fc_macs c) (fc_dev c) (fc_granted c) (fc_reason c)
    (js.or_default (xForwardedFor (fc_req c))
       (js.or_default (remoteAddress (fc_req c)) "unknown")).

Definition set_file_clock (t : Z) (w : World) : World :=
  mkWorld (dataFile w) (backupFiles w) (logFile w) t (trace w).

Fixpoint run_file_logAccess (calls : list FileLogCall) (w : World) : World :=
  match calls with
  | [] => w
  | c :: rest =>
      run_file_logAccess rest
        (logAccess (fc_macs c) (fc_dev c) (fc_granted c) (fc_reason c)
           (fc_req c) (set_file_clock (fc_time c) w))
  end.

(** The item of a bulk request comes with a [macAddress] that is a
    string. *)
Definition file_addressed (x : MacData) : Prop := is_Some (in_macAddress x).

(** The key under which an item that comes with a [macAddress] is
    checked and stored. *)
Definition file_key (x : MacData) : string :=
  js.trim (js.toLowerCase (default "" (in_macAddress x))).

(** The per-item list as the bulk operation is described: an item whose
    key has not the format of a MAC address fails, an item whose key is
    among [seen] (the whitelist and the items added before it) fails,
    every other item is added. *)
Fixpoint file_expected (seen : list string) (l : list MacData)
    : list ItemResult :=
  match l with
  | [] => []
  | x :: rest =>
      if negb (macRegex_test (file_key x))
      then mkItemResult (file_key x) false "Invalid format"
             :: file_expected seen rest
      else if bool_decide (file_key x ∈ seen)
      then mkItemResult (file_key x) false "Already exists"
             :: file_expected seen rest
      else mkItemResult (file_key x) true "Added successfully"
             :: file_expected (seen ++ [file_key x]) rest
  end.

End mac_auth_file_vocabulary.

Section mac_auth_vocabulary.

Import mac_auth.

(** The entry as [handleUpdateAccess] leaves it. *)
Definition retyped (now : Z) (a : string) (e : Entry) : Entry :=
  mkEntry (macAddress e) (description e) (Some a) (addedAt e) (Some now)
    (accessCount e) (lastSeen e) (lastDevice e).

(** The entry as [handleCheckAccess] leaves it after a granted check. *)
Definition kv_touched (now : Z) (dev : option mac_database.DeviceInfo)
    (e : Entry) : Entry :=
  mkEntry (macAddress e) (description e) (accessType e) (addedAt e)
    (updatedAt e) (Some (js.or_zero (accessCount e) + 1)) (Some now) dev.

(** The stored map as the handlers see it. *)
Definition stored (w : World) : gmap string Entry :=
  if kvOnline w then default ∅ (kvData w) else ∅.

End mac_auth_vocabulary.

Section shared_vocabulary.

(** The class [[A-Z]]. *)
Definition is_upper (c : ascii) : bool :=
  let n := nat_of_ascii c in Nat.leb 65 n && Nat.leb n 90.

(** The same character, or the two cases of one letter. *)
Definition same_letter (a b : ascii) : Prop :=
  a = b ∨
  (is_upper a = true ∧ nat_of_ascii b = nat_of_ascii a + 32) ∨
  (is_upper b = true ∧ nat_of_ascii a = nat_of_ascii b + 32).

(** Two strings that differ at most in the case of their letters. *)
Fixpoint differ_in_case (s1 s2 : string) : Prop :=
  match s1, s2 with
  | EmptyString, EmptyString => True
  | String a r1, String b r2 => same_letter a b ∧ differ_in_case r1 r2
  | _, _ => False
  end.

(** The calls of a successful write as the write protocol words them:
    attempts on the lock until it is taken, the snapshot written to a
    temporary file, the rename, the release. *)
Definition locked_atomic_write (ops : list FsOp) : Prop :=
  ∃ n,
    ops = failed_polls n ++ [FsLockTry true; FsWriteTmp; FsMove true; FsUnlock].

End shared_vocabulary.

(** ** Data of the examples *)

Section example_data.

(** An identifier oracle. *)
Definition sample_uuid (n : nat) : string := "uuid-" +:+ pretty n.

Definition sample_device : mac_database.DeviceInfo :=
  mac_database.mkDeviceInfo (Some "lab-laptop") (Some "ada") (Some "linux")
    (Some "10.0.0.7") None None.

(** The text of the exception as one engine words it. *)
Definition sample_typeError : string :=
  "Cannot read properties of undefined (reading 'toLowerCase')".

(** An empty data directory, and the same after [initializeDatabase]. *)
Definition blank_world : mac_database.World :=
  mac_database.mkWorld Missing Missing Missing [] 1000 0 [].

Definition fresh_world : mac_database.World :=
  mac_database.initializeDatabase blank_world.

Definition laptop : mac_database.Entry :=
  mac_database.mkEntry (Some "Lab laptop") (Some "unlimited") 500 None None
    (Some 0) None (Some "uuid-a").

Definition tablet : mac_database.Entry :=
  mac_database.mkEntry (Some "Tablet") (Some "trial") 600 None None
    (Some 3) None (Some "uuid-b").

(** An entry as an edited file may hold it: no identifier, no type. *)
Definition bare : mac_database.Entry :=
  mac_database.mkEntry (Some "Edited by hand") None 700 None None None None None.

(** A data directory whose snapshot holds [laptop] and [tablet]. *)
Definition two_devices : mac_database.World :=
  mac_database.mkWorld
    (Content
       (mac_database.mkDatabase "1.0" 400
          (<["aa:bb:cc:dd:ee:ff" := laptop]>
             (<["11:22:33:44:55:66" := tablet]> ∅))
          (mac_database.mkStatistics 2 (Some 3) 600)))
    Missing (Content (mac_database.emptyLog 400)) [] 2000 2 [].

(** A data directory whose snapshot holds [bare]. *)
Definition needs_fixing : mac_database.World :=
  mac_database.mkWorld
    (Content
       (mac_database.mkDatabase "1.0" 400 (<["aa:bb:cc:dd:ee:ff" := bare]> ∅)
          (mac_database.mkStatistics 1 (Some 0) 700)))
    Missing (Content (mac_database.emptyLog 400)) [] 2000 0 [].

Definition registered : macdb.Entry :=
  macdb.mkEntry 500 "hash" true None (Some 0) None ∅.

Definition one_device_doc : macdb.Database :=
  macdb.mkDatabase (macdb.mkMetadata 400 "1.0.0" 1 (Some 500%Z))
    (<["aa:bb:cc:dd:ee:ff" := registered]> ∅).

(** A database directory holding [registered], the lock free. *)
Definition one_device : macdb.World :=
  macdb.mkWorld (Content one_device_doc) false 2000 [].

(** The same with a document that does not parse. *)
Definition broken_document : macdb.World :=
  macdb.mkWorld Corrupt false 2000 [].

(** The same with a lock file left behind. *)
Definition stale_lock : macdb.World :=
  macdb.mkWorld (Content one_device_doc) true 2000 [].

Definition sample_sha256 (s : string) : string := "sha256:" +:+ s.

End example_data.

(** * The rest of the code *)

(** ** [src/auth/mac-database.js]: the operations that only read *)

Module mac_database_queries.

Import mac_database.

(** One element of [data.macAddresses] in the answer of
    [listMACAddresses]: the entry next to its key, [accessType] and
    [accessCount] with their defaults. *)
Record Listed : Type := mkListed {
  l_macAddress : string;
  l_description : option string;
  l_accessType : string;
  l_addedAt : Z;
  l_lastSeen : option Z;
  l_accessCount : nat;
  l_lastDevice : option LastDevice;
  l_id : option string }.

Record ByAccessType : Type := mkByAccessType {
  trial : nat;
  unlimited : nat;
  admin : nat }.

Record ListStatistics : Type := mkListStatistics {
  ls_total : nat;
  activeLast24h : nat;
  activeLast7d : nat;
  neverUsed : nat;
  ls_totalAccesses : nat;
  byAccessType : ByAccessType }.

Record ListData : Type := mkListData {
  listed : list Listed;
  list_statistics : ListStatistics }.

Definition day24h : Z := 24 * 60 * 60 * 1000.
Definition day7d : Z := 7 * day24h.

(** [([mac, entry]) => ({macAddress: mac, ..., accessType:
    entry.accessType || 'trial', ..., accessCount: entry.accessCount || 0,
    ...})]. *)
Definition listed_of (p : string * Entry) : Listed :=
  mkListed p.1 (description p.2) (js.or_default (accessType p.2) "trial")
    (addedAt p.2) (lastSeen p.2) (js.or_zero (accessCount p.2))
    (lastDevice p.2) (id p.2).

(** [entry => { if (!entry.lastSeen) return false;
                return (now - new Date(entry.lastSeen)) <= span }]. *)
Definition seen_within (now span : Z) (entry : Listed) : bool :=
  match l_lastSeen entry with
  | None => false
  | Some seen => (now - seen <=? span)%Z
  end.

(** [entry => !entry.lastSeen]. *)
Definition never_seen (entry : Listed) : bool :=
  match l_lastSeen entry with None => true | Some _ => false end.

(** The three tests of [byAccessType]. *)
Definition is_trial (e : Listed) : bool :=
  String.eqb (js.or_default (Some (l_accessType e)) "trial") "trial".
Definition is_unlimited (e : Listed) : bool :=
  String.eqb (l_accessType e) "unlimited".
Definition is_admin (e : Listed) : bool := String.eqb (l_accessType e) "admin".

(** [listMACAddresses()].  The entries come in the order of
    [Object.entries], which is [map_to_list] here; nothing is written. *)
Definition listMACAddresses (w : World) : Result ListData :=
  let d := readDatabase w in
  let now := clock w in
  let macList := map listed_of (map_to_list (macAddresses d)) in
  let stats :=
    mkListStatistics
      (length macList)
      (length (List.filter (seen_within now day24h) macList))
      (length (List.filter (seen_within now day7d) macList))
      (length (List.filter never_seen macList))
      (js.or_zero (totalAccesses (statistics d)))
      (mkByAccessType
         (length (List.filter is_trial macList))
         (length (List.filter is_unlimited macList))
         (length (List.filter is_admin macList))) in
  mkResult true "MAC addresses retrieved successfully"
    (Some (mkListData macList stats)).

Record LogsData : Type := mkLogsData {
  logs : list LogEntry;
  totalEvents : nat }.

(** [events.sort((a, b) => new Date(b.timestamp) - new Date(a.timestamp))]:
    the latest first.  The sort of an array is stable: events of one
    timestamp keep the order they had.  An insertion sort from the right
    that puts an event before the first one that is not later does that. *)
Fixpoint insert_latest (x : LogEntry) (l : list LogEntry) : list LogEntry :=
  match l with
  | [] => [x]
  | y :: rest =>
      if (log_timestamp x <? log_timestamp y)%Z
      then y :: insert_latest x rest
      else x :: l
  end.

Definition sort_latest_first (l : list LogEntry) : list LogEntry :=
  foldr insert_latest [] l.

(** [l.slice(0, limit)] for an integer [limit]: a negative one counts
    from the end. *)
Definition slice_first {A} (limit : Z) (l : list A) : list A :=
  if (limit <? 0)%Z then take (length l - Z.to_nat (- limit)) l
  else take (Z.to_nat limit) l.

Section operations.

(** The text of the exception [readJson] raises. *)
Variable jsonError : string.

(** [getAccessLogs(limit = 100)]; [None] is the omitted argument. *)
Definition getAccessLogs (limit : option Z) (w : World) : Result LogsData :=
  let logData :=
    if pathExists (logFile w) then readJson (logFile w)
    else Some (mkLogData "" 0 []) in
  match logData with
  | None => mkResult false ("Error retrieving logs: " +:+ jsonError) None
  | Some ld =>
      let sorted := sort_latest_first (accessEvents ld) in
      mkResult true "Access logs retrieved successfully"
        (Some (mkLogsData (slice_first (default 100%Z limit) sorted)
                 (length sorted)))
  end.

End operations.

End mac_database_queries.

(** ** [src/auth/macdb.js]: the other operations of [MacDatabase] *)

Module macdb_admin.

Import macdb.

Record ToggleResult : Type := mkToggleResult {
  t_success : bool;
  t_message : string;
  t_macAddress : option string;
  t_active : option bool }.

Record Stats : Type := mkStats {
  totalAddresses : nat;
  activeAddresses : nat;
  inactiveAddresses : nat;
  totalAccess : nat;
  databaseCreated : Z;
  stats_lastModified : option Z;
  stats_version : string }.

(** An element of the array given to [importMacAddresses]: a string, or
    an object whose [address] is the MAC address and whose other
    properties are metadata. *)
Inductive ImportItem : Type :=
| ImportString (mac : string)
| ImportObject (address : option string) (others : gmap string string).

(** [typeof mac === 'string' ? mac : mac.address]. *)
Definition item_address (mac : ImportItem) : option string :=
  match mac with
  | ImportString s => Some s
  | ImportObject a _ => a
  end.

(** [typeof mac === 'object' ? { ...mac, address: undefined } : {}]. *)
Definition item_metadata (mac : ImportItem) : gmap string string :=
  match mac with
  | ImportString _ => ∅
  | ImportObject _ others => others
  end.

Record ImportResult : Type := mkImportResult {
  i_macAddress : option string;
  i_success : bool;
  i_message : string }.

Section operations.

Variable sha256 : string -> string.
Variable readError : string.

(** The message of the [TypeError] raised by [undefined.toLowerCase()]. *)
Variable typeError : string.

(** [toggleMacAddress(macAddress, active = true)]; [None] is the omitted
    argument. *)
Definition toggleMacAddress (mac : string) (active_arg : option bool)
    (w : World) : World * outcome ToggleResult :=
  let active_ := default true active_arg in
  let normalizedMac := normalizeMac mac in
  match readDatabase readError w with
  | (w1, Throw e) => (w1, Throw e)
  | (w1, Return d) =>
      match macAddresses d !! normalizedMac with
      | None =>
          (w1, Return (mkToggleResult false "MAC address not found" None None))
      | Some entry =>
          let entry' :=
            mkEntry (added entry) (hash entry) active_ (lastAccess entry)
              (accessCount entry) (Some (clock w1)) (extra entry) in
          let d' :=
            mkDatabase (metadata d)
              (<[normalizedMac := entry']> (macAddresses d)) in
          match writeDatabase d' w1 with
          | (w2, Throw e) => (w2, Throw e)
          | (w2, Return _) =>
              (w2,
               Return (mkToggleResult true
                         ("MAC address " +:+
                          (if active_ then "enabled" else "disabled") +:+
                          " successfully")
                         (Some normalizedMac) (Some active_)))
          end
      end
  end.

(** [listMacAddresses(activeOnly = false)]: the pairs of
    [Object.entries], which is [map_to_list] here. *)
Definition listMacAddresses (activeOnly : option bool) (w : World)
    : World * outcome (list (string * Entry)) :=
  match readDatabase readError w with
  | (w1, Throw e) => (w1, Throw e)
  | (w1, Return d) =>
      let addresses := map_to_list (macAddresses d) in
      (w1,
       Return (if default false activeOnly
               then List.filter (λ p, active p.2) addresses
               else addresses))
  end.

(** [getStats()]. *)
Definition getStats (w : World) : World * outcome Stats :=
  match readDatabase readError w with
  | (w1, Throw e) => (w1, Throw e)
  | (w1, Return d) =>
      let addresses := map snd (map_to_list (macAddresses d)) in
      (w1,
       Return (mkStats
                 (length addresses)
                 (length (List.filter active addresses))
                 (length (List.filter (λ entry, negb (active entry)) addresses))
                 (foldl (λ sum entry, sum + js.or_zero (accessCount entry)) 0
                    addresses)
                 (created (metadata d))
                 (lastModified (metadata d))
                 (version (metadata d))))
  end.

(** One turn of the loop of [importMacAddresses]: the body of the [try]
    and the [catch] that turns an exception into a failed result. *)
Definition import_step (overwrite : bool) (mac : ImportItem)
    (st : World * list ImportResult) : World * list ImportResult :=
  let '(w, results) := st in
  match item_address mac with
  | None => (w, results ++ [mkImportResult None false typeError])
  | Some macAddr =>
      let metadata_ := item_metadata mac in
      let removed :=
        if overwrite
        then
          match removeMacAddress readError macAddr w with
          | (w1, Throw e) => (w1, Some e)
          | (w1, Return _) => (w1, None)
          end
        else (w, None) in
      match removed with
      | (w1, Some e) => (w1, results ++ [mkImportResult (Some macAddr) false e])
      | (w1, None) =>
          match addMacAddress sha256 readError macAddr metadata_ w1 with
          | (w2, Throw e) =>
              (w2, results ++ [mkImportResult (Some macAddr) false e])
          | (w2, Return result) =>
              (w2,
               results ++
                 [mkImportResult
                    (Some (default macAddr (macAddress result)))
                    (success result) (message result)])
          end
      end
  end.

(** [importMacAddresses(macAddresses, overwrite = false)]. *)
Definition importMacAddresses (macAddresses_ : list ImportItem)
    (overwrite_arg : option bool) (w : World) : World * list ImportResult :=
  foldl (λ st mac, import_step (default false overwrite_arg) mac st)
    (w, []) macAddresses_.

End operations.

End macdb_admin.

(** ** [src/api/mac-auth.js]: the handlers of the administrator *)

Module mac_auth_admin.

Import mac_auth.

(** The body of an [add-mac] request; a property that is [None] is left
    out of the body. *)
Record AddBody : Type := mkAddBody {
  a_macAddress : option string;
  a_description : option string;
  a_accessType : option string;
  a_adminKey : option string }.

Record AddData : Type := mkAddData {
  ad_macAddress : string;
  ad_description : option string;
  ad_accessType : string;
  ad_addedAt : Z }.

(** [handleAddMac(req, res)]; [accessType = 'trial'] in the
    destructuring of the body. *)
Definition handleAddMac (body : AddBody) (w : World)
    : World * Response AddData :=
  let accessType := default "trial" (a_accessType body) in
  if negb (isValidAdmin (a_adminKey body))
  then (w, mkResponse 403 false "Invalid admin key" None)
  else
    match a_macAddress body with
    | None => (w, mkResponse 400 false "Invalid MAC address format" None)
    | Some mac =>
        if negb (isValidMac mac)
        then (w, mkResponse 400 false "Invalid MAC address format" None)
        else if negb (isAccessType (Some accessType))
        then
          (w, mkResponse 400 false
                "Invalid access type. Must be: trial, unlimited, or admin" None)
        else
          let normalizedMac := js.toLowerCase mac in
          let '(w1, allMacs) := getAllMacAddresses w in
          match allMacs !! normalizedMac with
          | Some _ =>
              (w1, mkResponse 409 false
                     "MAC address already exists in whitelist" None)
          | None =>
              let entry :=
                mkEntry normalizedMac
                  (js.or_default (a_description body) "No description")
                  (Some accessType) (clock w1) None (Some 0) None None in
              let '(w2, saved) :=
                saveAllMacAddresses (<[normalizedMac := entry]> allMacs) w1 in
              if saved
              then
                (w2, mkResponse 200 true "MAC address added successfully"
                       (Some (mkAddData normalizedMac (a_description body)
                                accessType (addedAt entry))))
              else
                (w2, mkResponse 500 false
                       "Failed to save MAC address to database" None)
          end
    end.

(** The body of a [remove-mac] request. *)
Record RemoveBody : Type := mkRemoveBody {
  r_macAddress : option string;
  r_adminKey : option string }.

(** [handleRemoveMac(req, res)]; the answers carry no [data]. *)
Definition handleRemoveMac (body : RemoveBody) (w : World)
    : World * Response unit :=
  if negb (isValidAdmin (r_adminKey body))
  then (w, mkResponse 403 false "Invalid admin key" None)
  else
    match r_macAddress body with
    | None => (w, mkResponse 400 false "Invalid MAC address format" None)
    | Some mac =>
        if negb (isValidMac mac)
        then (w, mkResponse 400 false "Invalid MAC address format" None)
        else
          let normalizedMac := js.toLowerCase mac in
          let '(w1, allMacs) := getAllMacAddresses w in
          match allMacs !! normalizedMac with
          | None =>
              (w1, mkResponse 404 false "MAC address not found in whitelist"
                     None)
          | Some _ =>
              let '(w2, saved) :=
                saveAllMacAddresses (delete normalizedMac allMacs) w1 in
              if saved
              then
                (w2, mkResponse 200 true "MAC address removed successfully"
                       None)
              else
                (w2, mkResponse 500 false
                       "Failed to remove MAC address from database" None)
          end
    end.

Record KvByAccessType : Type := mkKvByAccessType {
  kv_trial : nat;
  kv_unlimited : nat;
  kv_admin : nat }.

Record KvStatistics : Type := mkKvStatistics {
  kv_total : nat;
  kv_activeLast24h : nat;
  kv_activeLast7d : nat;
  kv_neverUsed : nat;
  kv_totalAccesses : nat;
  kv_byAccessType : KvByAccessType }.

Record KvListData : Type := mkKvListData {
  kv_macAddresses : list Entry;
  kv_statistics : KvStatistics }.

(** [mac => mac.lastSeen && new Date(mac.lastSeen) > since]. *)
Definition seen_after (since : Z) (mac : Entry) : bool :=
  match lastSeen mac with
  | None => false
  | Some seen => (since <? seen)%Z
  end.

(** [mac => !mac.lastSeen]. *)
Definition never_seen (mac : Entry) : bool :=
  match lastSeen mac with None => true | Some _ => false end.

(** [mac => (mac.accessType || 'trial') === name]. *)
Definition has_type (name : string) (mac : Entry) : bool :=
  String.eqb (js.or_default (accessType mac) "trial") name.

(** [handleListMacs(req, res)]; [Object.values(allMacs)] in the order
    of [map_to_list]. *)
Definition handleListMacs (adminKey : option string) (w : World)
    : World * Response KvListData :=
  if negb (isValidAdmin adminKey)
  then (w, mkResponse 403 false "Invalid admin key" None)
  else
    let '(w1, allMacs) := getAllMacAddresses w in
    let macList := (map_to_list allMacs).*2 in
    let now := clock w1 in
    let yesterday := (now - 24 * 60 * 60 * 1000)%Z in
    let weekAgo := (now - 7 * 24 * 60 * 60 * 1000)%Z in
    let statistics :=
      mkKvStatistics (length macList)
        (length (List.filter (seen_after yesterday) macList))
        (length (List.filter (seen_after weekAgo) macList))
        (length (List.filter never_seen macList))
        (foldl (λ sum mac, sum + js.or_zero (accessCount mac)) 0 macList)
        (mkKvByAccessType
           (length (List.filter (has_type "trial") macList))
           (length (List.filter (has_type "unlimited") macList))
           (length (List.filter (has_type "admin") macList))) in
    (w1, mkResponse 200 true "MAC addresses retrieved successfully"
           (Some (mkKvListData macList statistics))).

(** One element of the array of a [bulk-add] request. *)
Record BulkItem : Type := mkBulkItem {
  bi_macAddress : option string;
  bi_description : option string;
  bi_accessType : option string }.

Record BulkBody : Type := mkBulkBody {
  bb_macAddresses : option (list BulkItem);
  bb_adminKey : option string }.

Record BulkResult : Type := mkBulkResult {
  br_macAddress : option string;
  br_success : bool;
  br_message : string }.

Record BulkData : Type := mkBulkData {
  bd_results : list BulkResult;
  bd_successCount : nat;
  bd_totalCount : nat }.

(** What the loop of [handleBulkAdd] carries: [allMacs], [results] and
    [successCount]. *)
Record BulkState : Type := mkBulkState {
  bs_allMacs : gmap string Entry;
  bs_results : list BulkResult;
  bs_successCount : nat }.

(** One turn of the loop of [handleBulkAdd]. *)
Definition bulk_step (now : Z) (st : BulkState) (macData : BulkItem)
    : BulkState :=
  let accessType := default "trial" (bi_accessType macData) in
  let invalid :=
    mkBulkState (bs_allMacs st)
      (bs_results st ++
         [mkBulkResult (bi_macAddress macData) false
            "Invalid MAC address format"])
      (bs_successCount st) in
  match bi_macAddress macData with
  | None => invalid
  | Some mac =>
      if negb (isValidMac mac) then invalid
      else
        let normalizedMac := js.toLowerCase mac in
        match bs_allMacs st !! normalizedMac with
        | Some _ =>
            mkBulkState (bs_allMacs st)
              (bs_results st ++
                 [mkBulkResult (Some normalizedMac) false "Already exists"])
              (bs_successCount st)
        | None =>
            mkBulkState
              (<[normalizedMac :=
                   mkEntry normalizedMac
                     (js.or_default (bi_description macData) "Bulk added")
                     (Some accessType) now None (Some 0) None None]>
                 (bs_allMacs st))
              (bs_results st ++
                 [mkBulkResult (Some normalizedMac) true "Added successfully"])
              (bs_successCount st + 1)
        end
  end.

(** [handleBulkAdd(req, res)]. *)
Definition handleBulkAdd (body : BulkBody) (w : World)
    : World * Response BulkData :=
  if negb (isValidAdmin (bb_adminKey body))
  then (w, mkResponse 403 false "Invalid admin key" None)
  else
    match bb_macAddresses body with
    | None => (w, mkResponse 400 false "Invalid MAC addresses list" None)
    | Some macAddresses =>
        let '(w1, allMacs) := getAllMacAddresses w in
        let st :=
          foldl (bulk_step (clock w1)) (mkBulkState allMacs [] 0)
            macAddresses in
        let '(w2, saved) := saveAllMacAddresses (bs_allMacs st) w1 in
        if saved
        then
          (w2,
           mkResponse 200 true
             ("Bulk add completed. " +:+ pretty (bs_successCount st) +:+ "/" +:+
              pretty (length macAddresses) +:+ " addresses added.")
             (Some (mkBulkData (bs_results st) (bs_successCount st)
                      (length macAddresses))))
        else
          (w2, mkResponse 500 false
                 "Failed to save MAC addresses to database" None)
    end.

End mac_auth_admin.

(** ** [api/mac-auth.js], the variant that stores an array in a file:
       check, add and remove *)

Module mac_auth_file_handlers.

Import mac_auth_file.

(** [res.status(status).json({success, message, data})]. *)
Record Reply (A : Type) : Type := mkReply {
  r_status : nat;
  r_success : bool;
  r_message : string;
  r_data : option A }.
Arguments mkReply {A} _ _ _ _.
Arguments r_status {A} _.
Arguments r_success {A} _.
Arguments r_message {A} _.
Arguments r_data {A} _.

(** [whitelist.findIndex(entry => entry.macAddress === mac)] together
    with the entry found, [None] for [-1]. *)
Definition findIndex (mac : string) (whitelist : list Entry)
    : option (nat * Entry) :=
  list_find (λ entry, macAddress entry = mac) whitelist.

(** The body of a [check-access] request. *)
Record CheckBody : Type := mkCheckBody {
  c_macAddresses : option (list string);
  c_deviceInfo : option mac_database.DeviceInfo }.

Inductive CheckData : Type :=
| Granted (mac : string) (desc : string) (addedAt_ : Z)
    (lastSeen_ : option Z) (accessCount_ : option nat)
| Refused (submittedMACs : list string)
    (hostname_ platform_ username_ : option string).

(** [for (const mac of normalizedMACs) { const whitelistEntry =
    whitelist.find(..); if (whitelistEntry) { ... return ... } }]: the
    first address of the list that is in the whitelist, with the place
    and the entry that [find] returns. *)
Fixpoint first_listed (whitelist : list Entry) (normalizedMACs : list string)
    : option (string * (nat * Entry)) :=
  match normalizedMACs with
  | [] => None
  | mac :: rest =>
      match findIndex mac whitelist with
      | Some found => Some (mac, found)
      | None => first_listed whitelist rest
      end
  end.

(** [handleCheckAccess(req, res)]. *)
Definition handleCheckAccess (req : Request) (body : CheckBody) (w : World)
    : World * Reply CheckData :=
  if negb (String.eqb (method req) "POST")
  then (w, mkReply 405 false "Method not allowed" None)
  else
    let deviceInfo_ := c_deviceInfo body in
    match c_macAddresses body with
    | None | Some [] =>
        (logAccess [] deviceInfo_ false "No MAC addresses provided" req w,
         mkReply 400 false "MAC addresses required" None)
    | Some macAddresses =>
        let whitelist := getWhitelist w in
        let normalizedMACs :=
          map (λ mac, js.trim (js.toLowerCase mac)) macAddresses in
        match first_listed whitelist normalizedMACs with
        | Some (mac, (i, whitelistEntry)) =>
            let whitelistEntry' :=
              mkEntry (macAddress whitelistEntry) (description whitelistEntry)
                (addedAt whitelistEntry) (addedBy whitelistEntry)
                (Some (clock w)) deviceInfo_
                (Some (js.or_zero (accessCount whitelistEntry) + 1)) in
            let w1 := (saveWhitelist (<[i := whitelistEntry']> whitelist) w).1 in
            let w2 :=
              logAccess macAddresses deviceInfo_ true
                ("Authorized MAC: " +:+ mac) req w1 in
            (w2,
             mkReply 200 true "Device authorized"
               (Some (Granted mac (description whitelistEntry')
                        (addedAt whitelistEntry') (lastSeen whitelistEntry')
                        (accessCount whitelistEntry'))))
        | None =>
            (logAccess macAddresses deviceInfo_ false "MAC not in whitelist"
               req w,
             mkReply 403 false
               "Device not authorized. Contact administrator to add your MAC address to the whitelist."
               (Some (Refused normalizedMACs
                        (deviceInfo_ ≫= mac_database.hostname)
                        (deviceInfo_ ≫= mac_database.platform)
                        (deviceInfo_ ≫= mac_database.username))))
        end
    end.

(** The body of an [add-mac] request. *)
Record AddBody : Type := mkAddBody {
  a_macAddress : option string;
  a_description : option string;
  a_adminKey : option string }.

(** [handleAddMAC(req, res)]. *)
Definition handleAddMAC (req : Request) (body : AddBody) (w : World)
    : World * Reply Entry :=
  if negb (String.eqb (method req) "POST")
  then (w, mkReply 405 false "Method not allowed" None)
  else if negb (bool_decide (a_adminKey body = Some ADMIN_SECRET_KEY))
  then
    (logAccess [] None false "Invalid admin key" req w,
     mkReply 401 false "Invalid admin key" None)
  else if negb (js.truthy (a_macAddress body))
  then (w, mkReply 400 false "MAC address required" None)
  else
    let normalizedMAC :=
      js.trim (js.toLowerCase (default "" (a_macAddress body))) in
    if negb (macRegex_test normalizedMAC)
    then
      (w, mkReply 400 false
            "Invalid MAC address format. Use xx:xx:xx:xx:xx:xx" None)
    else
      let whitelist := getWhitelist w in
      match find_entry normalizedMAC whitelist with
      | Some _ =>
          (w, mkReply 409 false "MAC address already in whitelist" None)
      | None =>
          let newEntry :=
            mkEntry normalizedMAC
              (js.or_default (a_description body) "No description")
              (clock w) "admin" None None (Some 0) in
          let '(w1, saved) := saveWhitelist (whitelist ++ [newEntry]) w in
          if negb saved
          then (w1, mkReply 500 false "Failed to save to database" None)
          else
            (logAccess [normalizedMAC] None true "MAC address added by admin"
               req w1,
             mkReply 201 true "MAC address added to whitelist" (Some newEntry))
      end.

(** The body of a [remove-mac] request. *)
Record RemoveBody : Type := mkRemoveBody {
  rm_macAddress : option string;
  rm_adminKey : option string }.

(** [handleRemoveMAC(req, res)]. *)
Definition handleRemoveMAC (req : Request) (body : RemoveBody) (w : World)
    : World * Reply Entry :=
  if negb (String.eqb (method req) "DELETE")
  then (w, mkReply 405 false "Method not allowed" None)
  else if negb (bool_decide (rm_adminKey body = Some ADMIN_SECRET_KEY))
  then (w, mkReply 401 false "Invalid admin key" None)
  else if negb (js.truthy (rm_macAddress body))
  then (w, mkReply 400 false "MAC address required" None)
  else
    let whitelist := getWhitelist w in
    let normalizedMAC :=
      js.trim (js.toLowerCase (default "" (rm_macAddress body))) in
    match findIndex normalizedMAC whitelist with
    | None => (w, mkReply 404 false "MAC address not found in whitelist" None)
    | Some (entryIndex, removedEntry) =>
        let '(w1, saved) := saveWhitelist (delete entryIndex whitelist) w in
        if negb saved
        then (w1, mkReply 500 false "Failed to save to database" None)
        else
          (logAccess [normalizedMAC] None true "MAC address removed by admin"
             req w1,
           mkReply 200 true "MAC address removed from whitelist"
             (Some removedEntry))
    end.

End mac_auth_file_handlers.

(** * Vocabulary of the further properties *)

Section mac_database_more_vocabulary.

Import mac_database.

(** The sum of the access counts of the entries. *)
Definition access_sum (m : gmap string Entry) : nat :=
  sum_list_with (λ p, js.or_zero (accessCount p.2)) (map_to_list m).

(** The snapshot's access total is not below the sum of its entries'
    access counts. *)
Definition accesses_accounted (d : Database) : Prop :=
  (access_sum (macAddresses d) ≤ js.or_zero (totalAccesses (statistics d)))%nat.

(** The committed snapshot, when there is one that can be read, accounts
    for its accesses. *)
Definition store_accounted (w : World) : Prop :=
  ∀ d, macFile w = Content d → accesses_accounted d.

(** The snapshot [checkAccess] hands to the write after a granted check
    of the key [k]. *)
Definition granted_snapshot (now : Z) (dev : DeviceInfo) (k : string)
    (e : Entry) (d : Database) : Database :=
  set_statistics
    (mkStatistics (totalDevices (statistics d))
       (Some (js.or_zero (totalAccesses (statistics d)) + 1))
       (lastUpdated (statistics d)))
    (set_macAddresses (<[k := touched now dev e]> (macAddresses d)) d).

(** What the integrity sweep may change on an entry: a missing
    identifier and a missing access type, nothing else. *)
Definition repaired (e e' : Entry) : Prop :=
  description e' = description e ∧ addedAt e' = addedAt e ∧
  updatedAt e' = updatedAt e ∧ lastSeen e' = lastSeen e ∧
  accessCount e' = accessCount e ∧ lastDevice e' = lastDevice e ∧
  (js.truthy (id e) = true → id e' = id e) ∧
  (js.truthy (accessType e) = true → accessType e' = accessType e) ∧
  (js.truthy (accessType e) = false → accessType e' = Some "trial").

(** Latest first. *)
Definition not_earlier (a b : LogEntry) : Prop :=
  (log_timestamp b ≤ log_timestamp a)%Z.

End mac_database_more_vocabulary.

Section macdb_more_vocabulary.

Import macdb.

(** The hexadecimal digits of a string, in either case, in their order. *)
Definition hex_digits (s : string) : list ascii :=
  List.filter js.is_hex (list_ascii_of_string s).

(** Nobody holds the lock and the document is [d]. *)
Definition ready (w : World) (d : Database) : Prop :=
  lockFile w = false ∧ dbFile w = Content d.

(** The entry [addMacAddress] creates. *)
Definition new_entry (sha256 : string → string) (now : Z) (k : string)
    (meta : gmap string string) : Entry :=
  mkEntry now (sha256 (js.toLowerCase k)) true None (Some 0) None meta.

(** The entry as [authenticateMac] leaves it. *)
Definition accessed (now : Z) (e : Entry) : Entry :=
  mkEntry (added e) (hash e) (active e) (Some now)
    (Some (js.or_zero (accessCount e) + 1)) (entry_lastModified e) (extra e).

(** The entry as [toggleMacAddress] leaves it. *)
Definition toggled (now : Z) (b : bool) (e : Entry) : Entry :=
  mkEntry (added e) (hash e) b (lastAccess e) (accessCount e) (Some now)
    (extra e).

(** The document with another map of entries. *)
Definition with_entries (m : gmap string Entry) (d : Database) : Database :=
  mkDatabase (metadata d) m.

(** How an operation that starts in [w] and ends in [w'] treats the lock
    file: if the lock was free, it is free again and no time was spent
    waiting; if somebody held it, it is still held and the document is
    the one it was. *)
Definition lock_respected (w w' : World) : Prop :=
  (lockFile w = false → lockFile w' = false ∧ clock w' = clock w) ∧
  (lockFile w = true → lockFile w' = true ∧ dbFile w' = dbFile w).

(** The names of the properties that [addMacAddress] and
    [toggleMacAddress] give an entry. *)
Definition entry_properties : list string :=
  ["added"; "hash"; "active"; "lastAccess"; "accessCount"; "lastModified"].

(** The metadata names none of them, so that spreading it into the new
    entry replaces none of the values the entry is given. *)
Definition plain_metadata (meta : gmap string string) : Prop :=
  Forall (λ p, meta !! p = None) entry_properties.

(** An entry as [addMacAddress] creates it at time [now] when the
    metadata is plain. *)
Definition fresh_at (now : Z) (e : Entry) : Prop :=
  added e = now ∧ active e = true ∧ lastAccess e = None ∧
  accessCount e = Some 0.

(** The key an item of an import is stored under, when its address has
    the format of a MAC address after normalization. *)
Definition import_key (mac : macdb_admin.ImportItem) : option string :=
  match macdb_admin.item_address mac with
  | Some a =>
      if isValidMac (normalizeMac a) then Some (normalizeMac a) else None
  | None => None
  end.

(** The key an item of an import names, whether it has the format of a
    MAC address or not. *)
Definition import_name (mac : macdb_admin.ImportItem) : option string :=
  normalizeMac <$> macdb_admin.item_address mac.

End macdb_more_vocabulary.

Section mac_auth_more_vocabulary.

Import mac_auth mac_auth_admin.

(** The entry [handleAddMac] creates. *)
Definition kv_new_entry (now : Z) (k : string) (desc : option string)
    (a : string) : Entry :=
  mkEntry k (js.or_default desc "No description") (Some a) now None (Some 0)
    None None.

(** Two entries that differ at most in what a granted check records:
    [accessCount], [lastSeen] and [lastDevice]. *)
Definition same_registration (e e' : Entry) : Prop :=
  macAddress e' = macAddress e ∧ description e' = description e ∧
  accessType e' = accessType e ∧ addedAt e' = addedAt e ∧
  updatedAt e' = updatedAt e.

(** The key an item of a [bulk-add] request is stored under, when its
    address has the format of a MAC address. *)
Definition kv_bulk_key (x : BulkItem) : option string :=
  match bi_macAddress x with
  | Some mac => if isValidMac mac then Some (js.toLowerCase mac) else None
  | None => None
  end.

(** The sum of the access counts of the stored entries. *)
Definition kv_access_sum (m : gmap string Entry) : nat :=
  sum_list_with (λ p, js.or_zero (accessCount p.2)) (map_to_list m).

End mac_auth_more_vocabulary.

Section mac_auth_file_more_vocabulary.

Import mac_auth_file mac_auth_file_handlers.

(** No address is listed twice. *)
Definition listed_once (whitelist : list Entry) : Prop :=
  NoDup (map macAddress whitelist).

(** The entry [handleAddMAC] creates. *)
Definition file_new_entry (now : Z) (k : string) (desc : option string)
    : Entry :=
  mkEntry k (js.or_default desc "No description") now "admin" None None
    (Some 0).

(** The entry as [handleCheckAccess] leaves it after a granted check. *)
Definition file_touched (now : Z) (dev : option mac_database.DeviceInfo)
    (e : Entry) : Entry :=
  mkEntry (macAddress e) (description e) (addedAt e) (addedBy e) (Some now)
    dev (Some (js.or_zero (accessCount e) + 1)).

(** What a check may not change on an entry. *)
Definition same_listing (e e' : Entry) : Prop :=
  macAddress e' = macAddress e ∧ description e' = description e ∧
  addedAt e' = addedAt e ∧ addedBy e' = addedBy e.

(** The key a string is checked and stored under. *)
Definition file_name (s : string) : string := js.trim (js.toLowerCase s).

End mac_auth_file_more_vocabulary.

(** ** Data of the further examples *)

Section more_example_data.

(** [two_devices] with three events in its access log, not in the order
    of their times. *)
Definition three_events : mac_database.World :=
  mac_database.set_logFile
    (Content
       (mac_database.mkLogData "1.0" 400
          [mac_database.mkLogEntry 1500 "aa:bb:cc:dd:ee:ff" sample_device true
             "Access granted" "uuid-0";
           mac_database.mkLogEntry 1700 "unknown" sample_device false
             "MAC address not whitelisted" "uuid-1";
           mac_database.mkLogEntry 1600 "11:22:33:44:55:66" sample_device true
             "Access granted" "uuid-2"]))
    two_devices.

End more_example_data.

(** * Properties of [MACDatabase] *)

Section mac_database_facts.

Import mac_database.

Variable randomUUID : nat -> string.
Variable overwrite : bool.
Variable jsonError : string.

Lemma backupDatabase_frame (w : World) :
  macFile (backupDatabase w) = macFile w ∧
  tmpFile (backupDatabase w) = tmpFile w ∧
  logFile (backupDatabase w) = logFile w ∧
  clock (backupDatabase w) = clock w ∧
  uuids (backupDatabase w) = uuids w ∧
  trace (backupDatabase w) = trace w ++ backup_ops w.
Proof. unfold backupDatabase, backup_ops. simpl. repeat split; reflexivity. Qed.

(** What one [writeDatabase] leaves behind. *)
Lemma writeDatabase_spec (d : Database) (w : World) :
  let r := writeDatabase overwrite d w in
  r.2 = moves overwrite w ∧
  macFile r.1 =
    (if moves overwrite w then Content (stamp (clock w) d) else macFile w) ∧
  tmpFile r.1 =
    (if moves overwrite w then Missing else Content (stamp (clock w) d)) ∧
  logFile r.1 = logFile w ∧
  clock r.1 = clock w ∧
  uuids r.1 = uuids w ∧
  trace r.1 =
    trace w ++ backup_ops w ++ [FsWriteTmp; FsMove (moves overwrite w)].
Proof.
  destruct w as [mf tf lf bk ck uu tr].
  unfold writeDatabase, moves, backup_ops. simpl.
  destruct overwrite, mf; simpl; repeat split;
    rewrite <- ?app_assoc; reflexivity.
Qed.

Lemma logAccess_frame mac dev ok msg (w : World) :
  let w' := logAccess randomUUID mac dev ok msg w in
  macFile w' = macFile w ∧ tmpFile w' = tmpFile w ∧ clock w' = clock w.
Proof.
  unfold logAccess. simpl.
  destruct (logFile w); simpl; repeat split; reflexivity.
Qed.

Lemma checkAccess_for_skip (d : Database) (pre rest : list string) dev w :
  Forall (λ x, vacant (macAddresses d) (js.toLowerCase x)) pre →
  checkAccess_for randomUUID overwrite d (pre ++ rest) dev w =
  checkAccess_for randomUUID overwrite d rest dev w.
Proof.
  induction 1 as [| x pre [Hx Hi] _ IH]; simpl; [reflexivity |].
  rewrite Hx, Hi. exact IH.
Qed.




(** ** Adding, updating, removing *)

(** A key that is in the snapshot makes [addMACAddress] answer with the
    duplicate failure and touch nothing, not even the backups. *)
Lemma addMACAddress_duplicate
    (mac : string) (desc at_ : option string) (e : Entry) (w : World) :
  macAddresses (readDatabase w) !! js.toLowerCase mac = Some e →
  addMACAddress randomUUID overwrite mac desc at_ w =
  (w, mkResult false "MAC address already exists in whitelist" None).
Proof. intros H. unfold addMACAddress. simpl. rewrite H. reflexivity. Qed.

(** An [addMACAddress] that reports success has committed the new key. *)
Lemma addMACAddress_success_present
    (mac : string) (desc at_ : option string) (w : World) (t : Z) :
  success (addMACAddress randomUUID overwrite mac desc at_ w).2 = true →
  is_Some
    (macAddresses
       (readDatabase
          (set_clock t (addMACAddress randomUUID overwrite mac desc at_ w).1))
       !! js.toLowerCase mac).
Proof.
  unfold addMACAddress. cbn zeta.
  destruct (macAddresses (readDatabase w) !! js.toLowerCase mac) eqn:E;
    [discriminate |].
  destruct (js.inherited (js.toLowerCase mac)); [discriminate |].
  match goal with
  | |- context [writeDatabase overwrite ?d ?w0] =>
      pose proof (writeDatabase_spec d w0) as (Hr & Hmac & _);
      destruct (writeDatabase overwrite d w0) as [w1 saved]
  end.
  simpl in Hr, Hmac. subst saved.
  destruct (moves overwrite _); simpl; [| discriminate].
  intros _. unfold readDatabase. simpl. rewrite Hmac. simpl.
  rewrite lookup_insert_eq. eauto.
Qed.

(** [updateMACAccess] on a key under which nothing is found. *)
Lemma updateMACAccess_absent (mac newType : string) (w : World) :
  vacant (macAddresses (readDatabase w)) (js.toLowerCase mac) →
  updateMACAccess overwrite mac newType w =
  (w, mkResult false "MAC address not found in whitelist" None).
Proof.
  intros [H Hi]. unfold updateMACAccess. simpl. rewrite H, Hi. reflexivity.
Qed.

(** [updateMACAccess] on a key that is in the snapshot: whatever the new
    type, the snapshot handed to the write carries it, with [updatedAt]
    set to the time of the call; the answer is a success as soon as the
    write went through. *)
Lemma updateMACAccess_present (mac newType : string) (e : Entry) (w : World) :
  macAddresses (readDatabase w) !! js.toLowerCase mac = Some e →
  let e' := set_updatedAt (Some (clock w)) (set_accessType (Some newType) e) in
  let d' :=
    stamp (clock w)
      (set_macAddresses
         (<[js.toLowerCase mac := e']> (macAddresses (readDatabase w)))
         (readDatabase w)) in
  let res := updateMACAccess overwrite mac newType w in
  (if moves overwrite w then macFile res.1 else tmpFile res.1) = Content d' ∧
  res.2 =
    (if moves overwrite w
     then mkResult true "Access type updated successfully"
            (Some (UpdatedEntry e'))
     else mkResult false "Failed to save to database" None).
Proof.
  intros H e' d' res. subst res. unfold updateMACAccess. cbn zeta.
  rewrite H. fold e'.
  match goal with
  | |- context [writeDatabase overwrite ?d ?w0] =>
      pose proof (writeDatabase_spec d w0) as (Hr & Hmac & Htmp & _);
      destruct (writeDatabase overwrite d w0) as [w1 saved]
  end.
  simpl in Hr, Hmac, Htmp. subst saved.
  destruct (moves overwrite w); simpl; split; auto.
Qed.

(** ** Reading a snapshot that cannot be read *)

Lemma readDatabase_fallback (w : World) :
  readJson (macFile w) = None →
  readDatabase w = emptyDatabase (clock w).
Proof. intros H. unfold readDatabase. rewrite H. reflexivity. Qed.

Lemma checkAccess_for_empty (d : Database) (l : list string) dev w :
  macAddresses d = ∅ →
  Forall (λ x, plain_key (js.toLowerCase x)) l →
  checkAccess_for randomUUID overwrite d l dev w = None.
Proof.
  intros H. induction 1 as [| x l Hx _ IH]; simpl; [reflexivity |].
  rewrite H, lookup_empty, Hx. exact IH.
Qed.

(** With an unreadable snapshot a check whose candidates name no member
    of [Object.prototype] is answered (with a refusal) and an add under
    such a name goes on from the empty snapshot. *)
Lemma unreadable_operations (w : World) :
  readJson (macFile w) = None →
  (∀ candidates dev,
     Forall (λ x, plain_key (js.toLowerCase x)) candidates →
     (checkAccess randomUUID overwrite candidates dev w).2 =
     mkResult false "Device not authorized. MAC address not in whitelist." None) ∧
  (∀ mac desc at_,
     plain_key (js.toLowerCase mac) →
     let res := addMACAddress randomUUID overwrite mac desc at_ w in
     let e :=
       mkEntry desc (Some (default "trial" at_)) (clock w) None None (Some 0)
         None (Some (randomUUID (uuids w))) in
     (if moves overwrite w then macFile res.1 else tmpFile res.1) =
       Content (stamp (clock w)
                  (set_macAddresses {[js.toLowerCase mac := e]}
                     (emptyDatabase (clock w)))) ∧
     success res.2 = moves overwrite w).
Proof.
  intros H. split.
  - intros candidates dev Hc. unfold checkAccess.
    rewrite checkAccess_for_empty; [reflexivity | | exact Hc].
    rewrite (readDatabase_fallback w H). reflexivity.
  - intros mac desc at_ Hp res e. subst res. unfold addMACAddress. cbn zeta.
    rewrite (readDatabase_fallback w H). simpl macAddresses.
    rewrite lookup_empty, Hp. fold e.
    match goal with
    | |- context [writeDatabase overwrite ?d ?w0] =>
        pose proof (writeDatabase_spec d w0) as (Hr & Hmac & Htmp & _);
        destruct (writeDatabase overwrite d w0) as [w1 saved]
    end.
    simpl in Hr, Hmac, Htmp. subst saved.
    change (moves overwrite (set_uuids (S (uuids w)) w)) with (moves overwrite w) in *.
    rewrite insert_empty in Hmac, Htmp.
    destruct (moves overwrite w); simpl; split; auto.
Qed.

(** ** The counters of a committed snapshot *)

Lemma stamp_consistent (t : Z) (d : Database) :
  consistent (stamp t d) ∧ lastUpdated (statistics (stamp t d)) = t ∧
  macAddresses (stamp t d) = macAddresses d.
Proof. unfold consistent, stamp. simpl. auto. Qed.

Lemma writeDatabase_commit_ok (d : Database) (w0 w : World) :
  macFile w0 = macFile w → clock w0 = clock w →
  commit_ok w (writeDatabase overwrite d w0).1.
Proof.
  intros Hm Hc.
  pose proof (writeDatabase_spec d w0) as (_ & Hmac & _). simpl in Hmac.
  unfold commit_ok. rewrite Hmac.
  destruct (moves overwrite w0); [right | left; exact Hm].
  exists (stamp (clock w0) d). rewrite <- Hc.
  pose proof (stamp_consistent (clock w0) d) as (? & ? & _). auto.
Qed.

Lemma commit_ok_logAccess mac dev ok msg (w w1 : World) :
  commit_ok w w1 → commit_ok w (logAccess randomUUID mac dev ok msg w1).
Proof.
  unfold commit_ok.
  pose proof (logAccess_frame mac dev ok msg w1) as (Hm & _). simpl in Hm.
  rewrite Hm. auto.
Qed.

Lemma commit_ok_refl (w : World) : commit_ok w w.
Proof. left. reflexivity. Qed.

Lemma checkAccess_commit_ok candidates dev (w : World) :
  commit_ok w (checkAccess randomUUID overwrite candidates dev w).1.
Proof.
  unfold checkAccess.
  assert (G : ∀ d,
    match checkAccess_for randomUUID overwrite d candidates dev w with
    | Some r => commit_ok w r.1
    | None => True
    end).
  { intros d. induction candidates as [| x l IH]; simpl; [exact I |].
    destruct (macAddresses d !! js.toLowerCase x).
    - unfold grantAccess. simpl.
      apply commit_ok_logAccess, writeDatabase_commit_ok; reflexivity.
    - destruct (js.inherited (js.toLowerCase x)); [| exact IH].
      unfold grantMember. simpl.
      apply commit_ok_logAccess, writeDatabase_commit_ok; reflexivity. }
  specialize (G (readDatabase w)).
  destruct (checkAccess_for _ _ _ _ _ _) as [r |]; [exact G |].
  simpl. apply commit_ok_logAccess, commit_ok_refl.
Qed.

Lemma addMACAddress_commit_ok mac desc at_ (w : World) :
  commit_ok w (addMACAddress randomUUID overwrite mac desc at_ w).1.
Proof.
  unfold addMACAddress. cbn zeta.
  destruct (macAddresses (readDatabase w) !! js.toLowerCase mac);
    [apply commit_ok_refl |].
  destruct (js.inherited (js.toLowerCase mac)); [apply commit_ok_refl |].
  match goal with
  | |- context [writeDatabase overwrite ?d ?w0] =>
      pose proof (writeDatabase_commit_ok d w0 w eq_refl eq_refl) as H;
      destruct (writeDatabase overwrite d w0) as [w1 saved]
  end.
  destruct saved; exact H.
Qed.

Lemma updateMACAccess_commit_ok mac newType (w : World) :
  commit_ok w (updateMACAccess overwrite mac newType w).1.
Proof.
  unfold updateMACAccess. cbn zeta.
  destruct (macAddresses (readDatabase w) !! js.toLowerCase mac);
    [| destruct (js.inherited (js.toLowerCase mac));
       [| apply commit_ok_refl]].
  all: match goal with
  | |- context [writeDatabase overwrite ?d ?w0] =>
      pose proof (writeDatabase_commit_ok d w0 w eq_refl eq_refl) as H;
      destruct (writeDatabase overwrite d w0) as [w1 saved]
  end.
  all: destruct saved; exact H.
Qed.

Lemma removeMACAddress_commit_ok mac (w : World) :
  commit_ok w (removeMACAddress overwrite mac w).1.
Proof.
  unfold removeMACAddress. cbn zeta.
  destruct (macAddresses (readDatabase w) !! js.toLowerCase mac);
    [| destruct (js.inherited (js.toLowerCase mac));
       [| apply commit_ok_refl]].
  all: match goal with
  | |- context [writeDatabase overwrite ?d ?w0] =>
      pose proof (writeDatabase_commit_ok d w0 w eq_refl eq_refl) as H;
      destruct (writeDatabase overwrite d w0) as [w1 saved]
  end.
  all: destruct saved; exact H.
Qed.

Lemma bulkAddMACs_commit_ok typeError l (w : World) :
  commit_ok w (bulkAddMACs randomUUID overwrite typeError l w).1.
Proof.
  unfold bulkAddMACs. cbn zeta.
  destruct (bulkAdd_for _ _ _ _) as [st | st]; [| left; reflexivity].
  match goal with
  | |- context [writeDatabase overwrite ?d ?w0] =>
      pose proof (writeDatabase_commit_ok d w0 w eq_refl eq_refl) as H;
      destruct (writeDatabase overwrite d w0) as [w1 saved]
  end.
  destruct saved; exact H.
Qed.

(** ** The bounded access log *)

(** Pushing and then cutting back to the last [n] is taking the last [n]
    of the longer list, whether the cut was needed or not. *)
Lemma slice_last_push {A} (n : nat) (l : list A) (x : A) :
  (if Nat.ltb n (length (l ++ [x])) then js.slice_last n (l ++ [x])
   else l ++ [x]) = js.slice_last n (l ++ [x]).
Proof.
  unfold js.slice_last.
  destruct (Nat.ltb_spec n (length (l ++ [x]))) as [H | H]; [reflexivity |].
  replace (length (l ++ [x]) - n) with 0 by lia. reflexivity.
Qed.

Lemma slice_last_length {A} (n : nat) (l : list A) :
  length (js.slice_last n l) = Nat.min n (length l).
Proof. unfold js.slice_last. rewrite length_drop. lia. Qed.

Lemma slice_last_absorb_app {A} (n : nat) (l : list A) (x : A) (ys : list A) :
  0 < n →
  js.slice_last n (js.slice_last n (l ++ [x]) ++ ys) =
  js.slice_last n (l ++ x :: ys).
Proof.
  intros Hn. unfold js.slice_last.
  rewrite !length_app, length_drop, !length_app. simpl length.
  destruct (Nat.le_gt_cases (length l + 1) n) as [H | H].
  - replace (length l + 1 - n) with 0 by lia. rewrite drop_0.
    rewrite <- app_assoc. simpl.
    replace (length l + 1 - 0 + length ys - n)
      with (length l + S (length ys) - n) by lia.
    reflexivity.
  - rewrite (drop_app_le l [x]) by lia.
    rewrite <- !app_assoc. simpl.
    rewrite <- (drop_app_le l (x :: ys)) by lia.
    rewrite drop_drop. f_equal. lia.
Qed.

Lemma slice_last_all {A} (n : nat) (l : list A) :
  (length l ≤ n)%nat → js.slice_last n l = l.
Proof.
  intros H. unfold js.slice_last.
  replace (length l - n) with 0 by lia. reflexivity.
Qed.

Lemma logAccess_events (c : LogCall) (w : World) :
  logFile w ≠ Corrupt →
  let w' :=
    logAccess randomUUID (c_mac c) (c_dev c) (c_ok c) (c_msg c)
      (set_clock (c_time c) w) in
  logFile w' ≠ Corrupt ∧
  events_of w' =
    js.slice_last 1000 (events_of w ++ [event_of randomUUID c (uuids w)]) ∧
  uuids w' = S (uuids w).
Proof.
  intros H. unfold logAccess, events_of. simpl.
  destruct (logFile w) as [| | ld]; [| contradiction |]; simpl.
  - repeat split; discriminate.
  - rewrite slice_last_push. repeat split; discriminate.
Qed.

Lemma run_logAccess_events (calls : list LogCall) : ∀ w : World,
  logFile w ≠ Corrupt → calls ≠ [] →
  logFile (run_logAccess randomUUID calls w) ≠ Corrupt ∧
  events_of (run_logAccess randomUUID calls w) =
    js.slice_last 1000 (events_of w ++ events_from randomUUID (uuids w) calls).
Proof.
  induction calls as [| c rest IH]; intros w Hw Hne; [contradiction |].
  simpl.
  pose proof (logAccess_events c w Hw) as (Hw1 & Hev & Hu). simpl in *.
  destruct rest as [| c' rest'].
  - simpl. auto.
  - destruct (IH _ Hw1 ltac:(discriminate)) as (Hw2 & IHev).
    split; [exact Hw2 |]. rewrite IHev, Hev, Hu.
    apply slice_last_absorb_app. lia.
Qed.

(** ** Bulk add *)

Lemma expected_results_keys (l : list MacEntry) : ∀ seen,
  map b_macAddress (expected_results seen l) = map bulk_key l.
Proof.
  induction l as [| x l IH]; intros seen; simpl; [reflexivity |].
  rewrite IH. destruct (bool_decide _); reflexivity.
Qed.

Lemma expected_results_counts (l : list MacEntry) : ∀ seen,
  length (List.filter is_added (expected_results seen l)) +
  length (List.filter is_skipped (expected_results seen l)) = length l.
Proof.
  induction l as [| x l IH]; intros seen; simpl; [reflexivity |].
  specialize (IH ({[bulk_key x]} ∪ seen)).
  destruct (bool_decide _); simpl; lia.
Qed.

Lemma bulk_key_address (x : MacEntry) (a : string) :
  in_macAddress x = Some a → js.toLowerCase a = bulk_key x.
Proof. intros H. unfold bulk_key. rewrite H. reflexivity. Qed.

Lemma bulkAdd_for_spec (now : Z) (l : list MacEntry) : ∀ st : BulkState,
  Forall addressed l → Forall (λ x, plain_key (bulk_key x)) l →
  let rs := expected_results (dom (bs_map st)) l in
  ∃ st',
    bulkAdd_for randomUUID now l st = BulkDone st' ∧
    dom (bs_map st') = list_to_set (map bulk_key l) ∪ dom (bs_map st) ∧
    (∀ k e, bs_map st !! k = Some e → bs_map st' !! k = Some e) ∧
    bs_results st' = bs_results st ++ rs ∧
    bs_added st' = bs_added st + length (List.filter is_added rs) ∧
    bs_skipped st' = bs_skipped st + length (List.filter is_skipped rs).
Proof.
  induction l as [| x l IH]; intros st Ha Hp;
    cbn [bulkAdd_for expected_results map].
  - exists st. cbn zeta. rewrite app_nil_r. simpl.
    repeat split; [set_solver | auto | lia | lia].
  - inversion Ha as [| ? ? [a Hx] Ha']; subst.
    inversion Hp as [| ? ? Hpx Hp']; subst.
    unfold bulkAdd_step. rewrite Hx. cbn zeta.
    rewrite (bulk_key_address x a Hx).
    destruct (bs_map st !! bulk_key x) as [e0 |] eqn:E.
    + destruct (IH (bulkAdd_skip (bulk_key x) st) Ha' Hp')
        as (st' & Est & Hdom & Hold & Hres & Hadd & Hskip).
      exists st'. split; [exact Est |]. simpl in *.
      assert (Hin : bulk_key x ∈ dom (bs_map st))
        by (apply elem_of_dom; eauto).
      rewrite (bool_decide_eq_true_2 _ Hin).
      replace ({[bulk_key x]} ∪ dom (bs_map st)) with (dom (bs_map st))
        by set_solver.
      simpl. rewrite Hres, <- app_assoc. simpl.
      repeat split; [set_solver | exact Hold | lia | lia].
    + unfold plain_key in Hpx. rewrite Hpx.
      match goal with
      | |- context [bulkAdd_for _ _ _ ?s] =>
          destruct (IH s Ha' Hp')
            as (st' & Est & Hdom & Hold & Hres & Hadd & Hskip)
      end.
      exists st'. split; [exact Est |]. simpl in *.
      assert (Hin : bulk_key x ∉ dom (bs_map st))
        by (rewrite elem_of_dom, E; intros [? ?]; discriminate).
      rewrite (bool_decide_eq_false_2 _ Hin).
      rewrite dom_insert_L in *.
      simpl. rewrite Hres, <- app_assoc. simpl.
      repeat split; [set_solver | | lia | lia].
      intros k e Hk. apply Hold.
      rewrite lookup_insert_ne; [exact Hk | congruence].
Qed.

(** An element without [macAddress] ends the loop in the exception. *)
Lemma bulkAdd_for_thrown (now : Z) (l : list MacEntry) : ∀ st : BulkState,
  ¬ Forall addressed l → ∃ st', bulkAdd_for randomUUID now l st = BulkThrown st'.
Proof.
  induction l as [| x l IH]; intros st H; [destruct H; constructor |].
  cbn [bulkAdd_for].
  destruct (bulkAdd_step randomUUID now x st) as [st1 |] eqn:E; [| eauto].
  apply IH. intros Hl. apply H. constructor; [| exact Hl].
  unfold bulkAdd_step in E. unfold addressed.
  destruct (in_macAddress x); [eauto | discriminate].
Qed.

(** What [bulkAddMACs] does with a list whose items all come with a
    [macAddress] that names no member of [Object.prototype]: one write
    of the snapshot; the snapshot handed to it keeps every old entry and
    has, besides the old keys, the lower-cased MAC of every item; the
    answer, when the write went through, lists the items in the order
    given and counts them. *)
Lemma bulkAddMACs_spec (typeError : string) (l : list MacEntry) (w : World) :
  Forall addressed l → Forall (λ x, plain_key (bulk_key x)) l →
  let res := bulkAddMACs randomUUID overwrite typeError l w in
  let store := macAddresses (readDatabase w) in
  let rs := expected_results (dom store) l in
  trace res.1 =
    trace w ++ backup_ops w ++ [FsWriteTmp; FsMove (moves overwrite w)] ∧
  (∃ d', (if moves overwrite w then macFile res.1 else tmpFile res.1)
           = Content d' ∧
         dom (macAddresses d') = list_to_set (map bulk_key l) ∪ dom store ∧
         ∀ k e, store !! k = Some e → macAddresses d' !! k = Some e) ∧
  (moves overwrite w = true →
     success res.2 = true ∧
     data res.2 =
       Some (mkBulkData rs
               (mkBulkSummary (length l)
                  (length (List.filter is_added rs))
                  (length (List.filter is_skipped rs))))) ∧
  (moves overwrite w = false →
     res.2 = mkResult false "Failed to save bulk changes to database" None).
Proof.
  intros Ha Hp res store rs. subst res. unfold bulkAddMACs. cbn zeta.
  destruct (bulkAdd_for_spec (clock w) l
              (mkBulkState (macAddresses (readDatabase w)) (uuids w) [] 0 0)
              Ha Hp)
    as (st & -> & Hdom & Hold & Hres & Hadd & Hskip).
  simpl in Hdom, Hold, Hres, Hadd, Hskip.
  fold store in Hdom, Hold, Hres, Hadd, Hskip.
  fold rs in Hres, Hadd, Hskip.
  match goal with
  | |- context [writeDatabase overwrite ?d ?w0] =>
      pose proof (writeDatabase_spec d w0) as (Hr & Hmac & Htmp & _ & _ & _ & Htr);
      destruct (writeDatabase overwrite d w0) as [w1 saved]
  end.
  simpl in Hr, Hmac, Htmp, Htr. subst saved.
  change (moves overwrite (set_uuids (bs_uuids st) w)) with (moves overwrite w) in *.
  change (backup_ops (set_uuids (bs_uuids st) w)) with (backup_ops w) in *.
  split; [| split; [| split]].
  - destruct (moves overwrite w); exact Htr.
  - exists (stamp (clock w) (set_macAddresses (bs_map st) (readDatabase w))).
    split; [destruct (moves overwrite w); simpl; assumption |].
    simpl. split; [exact Hdom | exact Hold].
  - intros Hm. rewrite Hm. simpl. split; [reflexivity |].
    rewrite Hres, Hadd, Hskip. reflexivity.
  - intros Hm. rewrite Hm. reflexivity.
Qed.

(** A list with an element without [macAddress]: the call answers with
    the text of the exception and leaves every file as it was. *)
Lemma bulkAddMACs_thrown (typeError : string) (l : list MacEntry) (w : World) :
  ¬ Forall addressed l →
  let res := bulkAddMACs randomUUID overwrite typeError l w in
  res.2 = mkResult false ("Bulk add error: " +:+ typeError) None ∧
  macFile res.1 = macFile w ∧ tmpFile res.1 = tmpFile w ∧
  logFile res.1 = logFile w ∧ backups res.1 = backups w ∧
  trace res.1 = trace w.
Proof.
  intros H res. subst res. unfold bulkAddMACs. cbn zeta.
  destruct (bulkAdd_for_thrown (clock w) l
              (mkBulkState (macAddresses (readDatabase w)) (uuids w) [] 0 0) H)
    as (st & ->).
  simpl. repeat split; reflexivity.
Qed.

(** ** Maintenance *)

Hypothesis randomUUID_nonempty : ∀ n, randomUUID n ≠ "".

Lemma truthy_randomUUID (n : nat) : js.truthy (Some (randomUUID n)) = true.
Proof.
  pose proof (randomUUID_nonempty n) as H.
  destruct (randomUUID n); [contradiction | reflexivity].
Qed.

Lemma sweep_entry_spec (e : Entry) (u : nat) :
  healthy (sweep_entry randomUUID e u).1.1 ∧
  (sweep_entry randomUUID e u).2 =
    (if js.truthy (id e) then 0 else 1) +
    (if js.truthy (accessType e) then 0 else 1).
Proof.
  unfold sweep_entry, healthy.
  destruct (js.truthy (id e)) eqn:Hid; cbn [set_id accessType id fst snd];
    destruct (js.truthy (accessType e)) eqn:Hat;
    cbn [set_id set_accessType accessType id fst snd];
    rewrite ?Hid, ?Hat, ?truthy_randomUUID; auto.
Qed.

Lemma sweep_for_spec (l : list (string * Entry)) : ∀ u f,
  Forall (λ p, healthy p.2) (sweep_for randomUUID l u f).1.1 ∧
  (sweep_for randomUUID l u f).2 = f + fixes_needed l.
Proof.
  induction l as [| [mac e] l IH]; intros u f; simpl.
  - split; [constructor | unfold fixes_needed; simpl; lia].
  - pose proof (sweep_entry_spec e u) as (He & Hf).
    destruct (sweep_entry randomUUID e u) as [[e' u'] fe]. simpl in He, Hf.
    specialize (IH u' (f + fe)). destruct IH as (IHl & IHf).
    destruct (sweep_for randomUUID l u' (f + fe)) as [[l' u''] f'].
    simpl in *. split; [constructor; assumption |].
    unfold fixes_needed in *. simpl. lia.
Qed.

Lemma fixes_needed_healthy (l : list (string * Entry)) :
  Forall (λ p, healthy p.2) l → fixes_needed l = 0.
Proof.
  unfold fixes_needed. induction 1 as [| p l [Hid Hat] _ IH]; simpl;
    [reflexivity |].
  rewrite Hid, Hat, IH. reflexivity.
Qed.

Lemma fixes_needed_zero (l : list (string * Entry)) :
  fixes_needed l = 0 → Forall (λ p, healthy p.2) l.
Proof.
  unfold fixes_needed, healthy. induction l as [| p l IH]; simpl; intros H;
    constructor.
  - destruct (js.truthy (id p.2)), (js.truthy (accessType p.2));
      simpl in H; auto; lia.
  - apply IH. lia.
Qed.

Lemma all_healthy_to_list (d : Database) :
  all_healthy d → Forall (λ p, healthy p.2) (map_to_list (macAddresses d)).
Proof.
  intros H. apply Forall_forall. intros [k e] Hin. simpl.
  apply elem_of_map_to_list in Hin. exact (H k e Hin).
Qed.

Lemma all_healthy_of_list (d : Database) :
  Forall (λ p, healthy p.2) (map_to_list (macAddresses d)) → all_healthy d.
Proof.
  intros H k e Hk. rewrite Forall_forall in H.
  apply (H (k, e)). apply elem_of_map_to_list. exact Hk.
Qed.

Lemma all_healthy_list_to_map (l : list (string * Entry)) (d : Database) :
  Forall (λ p, healthy p.2) l →
  all_healthy (set_macAddresses (list_to_map l) d).
Proof.
  intros H k e Hk. simpl in Hk. rewrite Forall_forall in H.
  apply (H (k, e)). apply elem_of_list_to_map_2. exact Hk.
Qed.

(** The part of [maintenance] before the sweep: backup and log cleanup. *)
Lemma maintenance_unfold (w : World) :
  logFile w ≠ Corrupt →
  ∃ w2, macFile w2 = macFile w ∧ clock w2 = clock w ∧ logFile w2 ≠ Corrupt ∧
    maintenance randomUUID overwrite jsonError w =
    (let d := readDatabase w2 in
     let '(swept, u, fixedCount) :=
       sweep_for randomUUID (map_to_list (macAddresses d)) (uuids w2) 0 in
     let d' := set_macAddresses (list_to_map swept) d in
     let w3 := set_uuids u w2 in
     let w4 :=
       if Nat.ltb 0 fixedCount then (writeDatabase overwrite d' w3).1 else w3 in
     (w4, mkResult true "Maintenance completed successfully"
            (Some (mkMaintenanceData 1 fixedCount)))).
Proof.
  intros Hlog. unfold maintenance.
  pose proof (backupDatabase_frame w) as (Hm & _ & Hl & Hc & _).
  set (w1 := backupDatabase w) in *.
  destruct (logFile w1) as [| | ld] eqn:E; simpl.
  - exists w1. rewrite E. repeat split; auto; discriminate.
  - congruence.
  - destruct (Nat.ltb 1000 (length (accessEvents ld))).
    + eexists. split; [| split; [| split; [| reflexivity]]]; simpl; auto;
        discriminate.
    + exists w1. rewrite E. repeat split; auto; discriminate.
Qed.

(** On a snapshot whose entries are all healthy the sweep fixes nothing
    and nothing is written. *)
Lemma maintenance_healthy (w : World) :
  logFile w ≠ Corrupt → all_healthy (readDatabase w) →
  (maintenance randomUUID overwrite jsonError w).2 =
  mkResult true "Maintenance completed successfully"
    (Some (mkMaintenanceData 1 0)).
Proof.
  intros Hlog Hh.
  destruct (maintenance_unfold w Hlog) as (w2 & Hm & Hc & _ & ->).
  assert (Hd : readDatabase w2 = readDatabase w)
    by (unfold readDatabase; rewrite Hm, Hc; reflexivity).
  cbn zeta. rewrite Hd.
  pose proof (sweep_for_spec (map_to_list (macAddresses (readDatabase w)))
                (uuids w2) 0) as (_ & Hf).
  rewrite (fixes_needed_healthy _ (all_healthy_to_list _ Hh)) in Hf.
  destruct (sweep_for _ _ _ _) as [[swept u] f]. simpl in Hf. subst f.
  reflexivity.
Qed.

Lemma readDatabase_content (w : World) (d : Database) (t : Z) :
  macFile w = Content d → readDatabase (set_clock t w) = d.
Proof. intros H. unfold readDatabase. simpl. rewrite H. reflexivity. Qed.

(** After a run whose write goes through, every entry of the snapshot is
    healthy, at whatever time it is read next. *)
Lemma maintenance_leaves_healthy (w : World) (t : Z) :
  overwrite = true → logFile w ≠ Corrupt →
  let w' := set_clock t (maintenance randomUUID overwrite jsonError w).1 in
  logFile w' ≠ Corrupt ∧ all_healthy (readDatabase w').
Proof.
  intros Hov Hlog.
  destruct (maintenance_unfold w Hlog) as (w2 & Hm & Hc & Hl2 & ->).
  cbn zeta.
  pose proof (sweep_for_spec (map_to_list (macAddresses (readDatabase w2)))
                (uuids w2) 0) as (Hall & Hf).
  destruct (sweep_for _ _ _ _) as [[swept u] f]. simpl in Hall, Hf.
  destruct (Nat.ltb_spec 0 f) as [Hpos | Hzero]; cbn [fst snd].
  - match goal with
    | |- context [writeDatabase overwrite ?d ?w0] =>
        pose proof (writeDatabase_spec d w0) as (_ & Hmac & _ & Hlg & _)
    end.
    assert (Hmv : moves overwrite (set_uuids u w2) = true)
      by (unfold moves; rewrite Hov; reflexivity).
    cbn zeta in Hmac, Hlg. rewrite Hmv in Hmac.
    split; [simpl; rewrite Hlg; exact Hl2 |].
    rewrite (readDatabase_content _ _ t Hmac).
    apply (all_healthy_list_to_map swept (readDatabase w2) Hall).
  - split; [exact Hl2 |].
    assert (Hz : fixes_needed (map_to_list (macAddresses (readDatabase w2))) = 0)
      by lia.
    apply fixes_needed_zero, all_healthy_of_list in Hz.
    unfold readDatabase in *. simpl.
    destruct (readJson (macFile w2)); [exact Hz |].
    intros k e Hk. simpl in Hk. rewrite lookup_empty in Hk. discriminate.
Qed.

Lemma initializeDatabase_commit_ok (w : World) :
  commit_ok w (initializeDatabase w).
Proof.
  unfold initializeDatabase, commit_ok.
  destruct (macFile w) eqn:Em; simpl; rewrite ?Em; simpl;
    destruct (logFile w); simpl; rewrite ?Em; auto.
  all: right; eexists; split; [reflexivity |]; split; reflexivity.
Qed.

Lemma maintenance_commit_ok (w : World) :
  commit_ok w (maintenance randomUUID overwrite jsonError w).1.
Proof.
  assert (Hdec : logFile w = Corrupt ∨ logFile w ≠ Corrupt)
    by (destruct (logFile w); [right | left | right]; congruence).
  destruct Hdec as [Hc | Hlog].
  - unfold maintenance.
    pose proof (backupDatabase_frame w) as (Hm & _ & Hl & _).
    rewrite Hl, Hc. simpl. left. exact Hm.
  - destruct (maintenance_unfold w Hlog) as (w2 & Hm & Hc & _ & ->).
    cbn zeta. destruct (sweep_for _ _ _ _) as [[swept u] f].
    destruct (Nat.ltb 0 f); cbn [fst].
    + apply writeDatabase_commit_ok; assumption.
    + left. exact Hm.
Qed.

(** Were [move] to replace the snapshot, two runs of [maintenance] in
    a row, with nothing but time in between, would end in a second run
    that fixes no entry: the first gives every entry that lacked one an
    identifier and the access type [trial] and saves the snapshot if it
    fixed anything, the second finds every entry healthy.  (The access
    log has to be readable for a run to get to the sweep.) *)
Lemma maintenance_twice (w : World) (t : Z) :
  overwrite = true → logFile w ≠ Corrupt →
  let first := maintenance randomUUID overwrite jsonError w in
  let second :=
    maintenance randomUUID overwrite jsonError (set_clock t first.1) in
  success first.2 = true ∧
  second.2 =
    mkResult true "Maintenance completed successfully"
      (Some (mkMaintenanceData 1 0)).
Proof.
  intros Hov Hlog first second. subst first second. split.
  - destruct (maintenance_unfold w Hlog) as (w2 & _ & _ & _ & ->).
    cbn zeta. destruct (sweep_for _ _ _ _) as [[swept u] f]. reflexivity.
  - destruct (maintenance_leaves_healthy w t Hov Hlog) as (Hl & Hh).
    apply maintenance_healthy; assumption.
Qed.

End mac_database_facts.

(** * Properties of [MacDatabase] *)

Section macdb_facts.

Import macdb.

Variable sha256 : string -> string.
Variable readError : string.

Lemma acquireLock_while_free (timeout start : Z) (w : World) :
  (clock w - start < timeout)%Z → lockFile w = false →
  acquireLock_while timeout start w =
  (emit [FsLockTry true] (set_lockFile true w), Return true).
Proof.
  intros Ht Hl. rewrite acquireLock_while_equation_1.
  destruct (Z_lt_dec (clock w - start) timeout) as [? | ?]; [| lia].
  simpl. rewrite Hl. reflexivity.
Qed.

Lemma acquireLock_while_held_step (timeout start : Z) (w : World) :
  (clock w - start < timeout)%Z → lockFile w = true →
  acquireLock_while timeout start w =
  acquireLock_while timeout start (sleep 10 (emit [FsLockTry false] w)).
Proof.
  intros Ht Hl. rewrite acquireLock_while_equation_1.
  destruct (Z_lt_dec (clock w - start) timeout) as [? | ?]; [| lia].
  simpl. rewrite Hl. reflexivity.
Qed.

Lemma acquireLock_while_expired (timeout start : Z) (w : World) :
  ¬ (clock w - start < timeout)%Z →
  acquireLock_while timeout start w =
  (w, Throw "Could not acquire database lock").
Proof.
  intros Ht. rewrite acquireLock_while_equation_1.
  destruct (Z_lt_dec (clock w - start) timeout) as [? | ?]; [lia |].
  reflexivity.
Qed.

(** A held lock is polled until the time is up. *)
Lemma acquireLock_while_held (n : nat) : ∀ (start : Z) (w : World),
  lockFile w = true →
  (clock w - start = 5000 - 10 * Z.of_nat n)%Z →
  acquireLock_while 5000 start w =
  (mkWorld (dbFile w) true (clock w + 10 * Z.of_nat n)
     (trace w ++ failed_polls n),
   Throw "Could not acquire database lock").
Proof.
  induction n as [| n IH]; intros start w Hl Hc.
  - rewrite acquireLock_while_expired by lia.
    destruct w as [f l c tr]. simpl in *. subst l.
    rewrite app_nil_r. do 2 f_equal. lia.
  - rewrite acquireLock_while_held_step by (auto; lia).
    rewrite IH by (simpl; auto; lia).
    simpl. f_equal. f_equal; [lia |].
    rewrite <- !app_assoc. reflexivity.
Qed.

Lemma acquireLock_free (w : World) :
  lockFile w = false →
  acquireLock w = (emit [FsLockTry true] (set_lockFile true w), Return true).
Proof. intros H. apply acquireLock_while_free; [lia | exact H]. Qed.

Lemma acquireLock_held (w : World) :
  lockFile w = true →
  acquireLock w =
  (mkWorld (dbFile w) true (clock w + 5000) (trace w ++ failed_polls 500),
   Throw "Could not acquire database lock").
Proof.
  intros H. unfold acquireLock.
  rewrite (acquireLock_while_held 500 (clock w) w H) by lia.
  reflexivity.
Qed.

(** [readDatabase] when nobody holds the lock: the document, or the
    exception of the read, thrown on to the caller. *)
Lemma readDatabase_free (w : World) :
  lockFile w = false →
  readDatabase readError w =
  (emit [FsLockTry true; FsUnlock] w,
   match readJson (dbFile w) with
   | Some d => Return d
   | None => Throw readError
   end).
Proof.
  intros H. unfold readDatabase. rewrite (acquireLock_free w H).
  destruct w as [d l c tr]. simpl in *. subst l. f_equal.
  unfold releaseLock, emit, set_lockFile. simpl.
  rewrite <- app_assoc. reflexivity.
Qed.

Lemma writeDatabase_free (d : Database) (w : World) :
  lockFile w = false →
  writeDatabase d w =
  (emit [FsLockTry true; FsWriteDb; FsUnlock]
     (set_dbFile (Content (stamped (clock w) d)) w),
   Return tt).
Proof.
  intros H. unfold writeDatabase. rewrite (acquireLock_free w H).
  destruct w as [f l c tr]. simpl in *. subst l. f_equal.
  unfold releaseLock, emit, set_lockFile, set_dbFile. simpl.
  rewrite <- !app_assoc. reflexivity.
Qed.

Lemma writeDatabase_held (d : Database) (w : World) :
  lockFile w = true →
  writeDatabase d w =
  (mkWorld (dbFile w) true (clock w + 5000) (trace w ++ failed_polls 500),
   Throw "Could not acquire database lock").
Proof.
  intros H. unfold writeDatabase. rewrite (acquireLock_held w H). reflexivity.
Qed.

Lemma readDatabase_held (w : World) :
  lockFile w = true →
  readDatabase readError w =
  (mkWorld (dbFile w) true (clock w + 5000) (trace w ++ failed_polls 500),
   Throw "Could not acquire database lock").
Proof.
  intros H. unfold readDatabase. rewrite (acquireLock_held w H). reflexivity.
Qed.

(** A key that is in the document makes [addMacAddress] answer with the
    duplicate failure; the document is not written. *)
Lemma addMacAddress_duplicate
    (mac : string) (meta : gmap string string) (d : Database) (e : Entry)
    (w : World) :
  lockFile w = false → dbFile w = Content d →
  isValidMac (normalizeMac mac) = true →
  macAddresses d !! normalizeMac mac = Some e →
  addMacAddress sha256 readError mac meta w =
  (emit [FsLockTry true; FsUnlock] w,
   Return (mkAddResult false "MAC address already exists" None)).
Proof.
  intros Hl Hd Hv Hk. unfold addMacAddress. cbn zeta. rewrite Hv. simpl negb.
  cbn iota. rewrite (readDatabase_free w Hl), Hd. simpl. rewrite Hk.
  reflexivity.
Qed.

(** With a document that cannot be read, [addMacAddress] is rejected with
    the exception of the read. *)
Lemma addMacAddress_unreadable
    (mac : string) (meta : gmap string string) (w : World) :
  lockFile w = false → readJson (dbFile w) = None →
  isValidMac (normalizeMac mac) = true →
  addMacAddress sha256 readError mac meta w =
  (emit [FsLockTry true; FsUnlock] w, Throw readError).
Proof.
  intros Hl Hd Hv. unfold addMacAddress. cbn zeta. rewrite Hv. simpl negb.
  cbn iota. rewrite (readDatabase_free w Hl), Hd. reflexivity.
Qed.

(** Whatever the state of the lock, [writeDatabase] either leaves the
    document alone or replaces it by one whose [totalEntries] is the
    number of entries and whose [lastModified] is the time of the write. *)
Lemma writeDatabase_counts (d : Database) (w : World) :
  let w' := (writeDatabase d w).1 in
  dbFile w' = dbFile w ∨
  ∃ d', dbFile w' = Content d' ∧
        totalEntries (metadata d') = size (macAddresses d') ∧
        lastModified (metadata d') = Some (clock w) ∧
        macAddresses d' = macAddresses d.
Proof.
  destruct (lockFile w) eqn:Hl.
  - left. rewrite (writeDatabase_held d w Hl). reflexivity.
  - right. rewrite (writeDatabase_free d w Hl).
    exists (stamped (clock w) d). simpl. auto.
Qed.

(** ** Spellings of a MAC address *)

Lemma hex_value_lower (c : ascii) (v : nat) :
  hex_value c = Some v →
  js.lower_ascii c = digit v ∧ js.is_lower_hex (digit v) = true ∧
  js.is_hex (digit v) = true.
Proof.
  destruct c as [[] [] [] [] [] [] [] []]; intros H; vm_compute in H;
    try discriminate; injection H as <-; vm_compute; auto.
Qed.

Lemma separator_lower (c : ascii) :
  js.is_colon_or_hyphen c = true → js.is_lower_hex (js.lower_ascii c) = false.
Proof.
  destruct c as [[] [] [] [] [] [] [] []]; intros H; vm_compute in H;
    try discriminate; reflexivity.
Qed.

Lemma toLowerCase_list (s : string) :
  list_ascii_of_string (js.toLowerCase s) =
  map js.lower_ascii (list_ascii_of_string s).
Proof.
  induction s as [| c s IH]; simpl; [reflexivity | rewrite IH; reflexivity].
Qed.

Lemma mac_value_digits (n : nat) : ∀ (l : list ascii) (v : list nat),
  mac_value n l = Some v →
  List.filter js.is_lower_hex (map js.lower_ascii l) = map digit v ∧
  length v = 2 * S n ∧ Forall (λ x, js.is_hex (digit x) = true) v.
Proof.
  induction n as [| n IH]; intros l v H.
  - destruct l as [| a [| b [| ? ?]]]; simpl in H; try discriminate.
    destruct (hex_value a) as [va |] eqn:Ea; [| discriminate].
    destruct (hex_value b) as [vb |] eqn:Eb; [| discriminate].
    injection H as <-.
    destruct (hex_value_lower a va Ea) as (La & Ha & Ia).
    destruct (hex_value_lower b vb Eb) as (Lb & Hb & Ib).
    simpl. rewrite La, Lb, Ha, Hb. repeat split; auto.
  - destruct l as [| a [| b [| s rest]]]; simpl in H; try discriminate.
    destruct (hex_value a) as [va |] eqn:Ea; [| discriminate].
    destruct (hex_value b) as [vb |] eqn:Eb; [| discriminate].
    destruct (mac_value n rest) as [vs |] eqn:Er; [| discriminate].
    destruct (js.is_colon_or_hyphen s) eqn:Es; [| discriminate].
    injection H as <-.
    destruct (hex_value_lower a va Ea) as (La & Ha & Ia).
    destruct (hex_value_lower b vb Eb) as (Lb & Hb & Ib).
    destruct (IH rest vs Er) as (IHf & IHl & IHa).
    simpl. rewrite La, Lb, Ha, Hb, (separator_lower s Es), IHf.
    repeat split; auto. simpl. lia.
Qed.

(** [normalizeMac] of an accepted spelling is the lower-case,
    colon-separated rendering of its digit values. *)
Lemma normalizeMac_of_value (s : string) (v : list nat) :
  mac_value 5 (list_ascii_of_string s) = Some v →
  normalizeMac s = string_of_list_ascii (colonize (map digit v)) ∧
  isValidMac (normalizeMac s) = true.
Proof.
  intros H. destruct (mac_value_digits 5 _ v H) as (Hf & Hl & Ha).
  unfold normalizeMac. rewrite toLowerCase_list, Hf. split; [reflexivity |].
  unfold isValidMac. rewrite list_ascii_of_string_of_list_ascii.
  do 12 (destruct v as [| ? v]; [discriminate |]).
  destruct v; [| discriminate].
  repeat match goal with
         | H : Forall _ (_ :: _) |- _ =>
             let H1 := fresh in let H2 := fresh in
             apply Forall_cons in H as [H1 H2]
         end.
  simpl.
  repeat match goal with E : js.is_hex _ = true |- _ => rewrite E; clear E end.
  reflexivity.
Qed.

(** Two spellings of one address have one key. *)
Lemma normalizeMac_same_address (s1 s2 : string) :
  same_address s1 s2 →
  normalizeMac s1 = normalizeMac s2 ∧ isValidMac (normalizeMac s1) = true.
Proof.
  intros (v & H1 & H2).
  destruct (normalizeMac_of_value s1 v H1) as (E1 & V1).
  destruct (normalizeMac_of_value s2 v H2) as (E2 & _).
  split; [congruence | exact V1].
Qed.

Lemma lower_hex_fixed (c : ascii) :
  js.is_lower_hex c = true → js.lower_ascii c = c.
Proof.
  destruct c as [[] [] [] [] [] [] [] []]; intros H; vm_compute in H;
    try discriminate; reflexivity.
Qed.

(** Induction two elements at a time, as [colonize] goes. *)
Lemma list_pair_ind {A} (P : list A → Prop) :
  P [] → (∀ a, P [a]) → (∀ a b l, P l → P (a :: b :: l)) → ∀ l, P l.
Proof.
  intros H0 H1 H2 l.
  assert (G : P l ∧ ∀ a, P (a :: l)).
  { induction l as [| x l [IH1 IH2]]; [split; auto |].
    split; [apply IH2 | intros a; apply H2, IH1]. }
  exact (proj1 G).
Qed.

(** Lower-casing the colonized digits and dropping what is not a digit
    gives the digits back. *)
Lemma colonize_digits (h : list ascii) :
  Forall (λ c, js.is_lower_hex c = true) h →
  List.filter js.is_lower_hex (map js.lower_ascii (colonize h)) = h.
Proof.
  induction h as [| a | a b rest IH] using list_pair_ind; intros H.
  - reflexivity.
  - apply Forall_cons in H as [Ha _]. simpl.
    rewrite (lower_hex_fixed a Ha), Ha. reflexivity.
  - apply Forall_cons in H as [Ha H]. apply Forall_cons in H as [Hb H].
    specialize (IH H).
    destruct rest as [| c rest'].
    + simpl. rewrite (lower_hex_fixed a Ha), (lower_hex_fixed b Hb), Ha, Hb.
      reflexivity.
    + change (colonize (a :: b :: c :: rest'))
        with (a :: b :: ":"%char :: colonize (c :: rest')).
      cbn [map List.filter].
      rewrite (lower_hex_fixed a Ha), (lower_hex_fixed b Hb), Ha, Hb.
      change (js.is_lower_hex (js.lower_ascii ":")) with false. cbn iota.
      rewrite IH. reflexivity.
Qed.

(** [normalize(normalize(x)) = normalize(x)], for every string. *)
Lemma normalizeMac_idempotent (s : string) :
  normalizeMac (normalizeMac s) = normalizeMac s.
Proof.
  unfold normalizeMac at 1. rewrite toLowerCase_list.
  unfold normalizeMac at 1. rewrite list_ascii_of_string_of_list_ascii.
  rewrite colonize_digits; [reflexivity |].
  apply Forall_forall. intros c Hc.
  apply list_elem_of_In, filter_In in Hc. exact (proj2 Hc).
Qed.

(** Two canonical keys that spell one address are one key. *)
Lemma canonical_same_address (k1 k2 : string) :
  normalizeMac k1 = k1 → normalizeMac k2 = k2 → same_address k1 k2 → k1 = k2.
Proof.
  intros H1 H2 Hs. destruct (normalizeMac_same_address k1 k2 Hs) as [E _].
  congruence.
Qed.

Lemma readDatabase_frame (w : World) :
  dbFile (readDatabase readError w).1 = dbFile w ∧
  ∀ d, (readDatabase readError w).2 = Return d → dbFile w = Content d.
Proof.
  destruct (lockFile w) eqn:Hl.
  - rewrite (readDatabase_held w Hl). simpl. split; [reflexivity | discriminate].
  - rewrite (readDatabase_free w Hl). simpl. split; [reflexivity |].
    intros d. destruct (dbFile w); simpl; congruence.
Qed.

Lemma writeDatabase_canonical (d : Database) (w : World) :
  canonical_keys d → store_canonical w →
  store_canonical (writeDatabase d w).1.
Proof.
  intros Hd Hw d' Hd'.
  destruct (writeDatabase_counts d w) as [E | (d2 & E & _ & _ & Em)];
    simpl in E; rewrite E in Hd'.
  - exact (Hw d' Hd').
  - injection Hd' as <-. unfold canonical_keys. rewrite Em. exact Hd.
Qed.

Lemma store_canonical_frame (w w' : World) :
  dbFile w' = dbFile w → store_canonical w → store_canonical w'.
Proof. intros E H d Hd. apply H. congruence. Qed.

Lemma canonical_insert (d : Database) (mac : string) (e : Entry) :
  canonical_keys d →
  canonical_keys (mkDatabase (metadata d)
                    (<[normalizeMac mac := e]> (macAddresses d))).
Proof.
  intros H k. simpl. rewrite lookup_insert.
  destruct (decide (normalizeMac mac = k)) as [<- | ?].
  - intros _. apply normalizeMac_idempotent.
  - apply H.
Qed.

Lemma canonical_delete (d : Database) (k0 : string) :
  canonical_keys d →
  canonical_keys (mkDatabase (metadata d) (delete k0 (macAddresses d))).
Proof.
  intros H k. simpl. rewrite lookup_delete.
  destruct (decide (k0 = k)); [intros [? ?]; discriminate | apply H].
Qed.

(** Adding, authenticating and removing keep the keys canonical. *)
Lemma operations_keep_canonical (mac : string) (meta : gmap string string)
    (w : World) :
  store_canonical w →
  store_canonical (addMacAddress sha256 readError mac meta w).1 ∧
  store_canonical (authenticateMac readError mac w).1 ∧
  store_canonical (removeMacAddress readError mac w).1.
Proof.
  intros Hw.
  pose proof (readDatabase_frame w) as (Hf & Hr).
  assert (Hw1 : store_canonical (readDatabase readError w).1)
    by (apply (store_canonical_frame w); assumption).
  unfold addMacAddress, authenticateMac, removeMacAddress. cbn zeta.
  destruct (readDatabase readError w) as [w1 [d |]] eqn:E; simpl in *.
  - assert (Hd : canonical_keys d) by (apply Hw, Hr; reflexivity).
    repeat split.
    + destruct (negb (isValidMac (normalizeMac mac))); [exact Hw |].
      destruct (macAddresses d !! normalizeMac mac); [exact Hw1 |].
      match goal with
      | |- context [writeDatabase ?d' w1] =>
          pose proof (writeDatabase_canonical d' w1
                        (canonical_insert d mac _ Hd) Hw1) as G;
          destruct (writeDatabase d' w1) as [w2 [? | ?]]
      end; exact G.
    + destruct (negb (isValidMac (normalizeMac mac))); [exact Hw |].
      destruct (macAddresses d !! normalizeMac mac) as [e |]; [| exact Hw1].
      destruct (negb (active e)); [exact Hw1 |].
      match goal with
      | |- context [writeDatabase ?d' w1] =>
          pose proof (writeDatabase_canonical d' w1
                        (canonical_insert d mac _ Hd) Hw1) as G;
          destruct (writeDatabase d' w1) as [w2 [? | ?]]
      end; exact G.
    + destruct (macAddresses d !! normalizeMac mac); [| exact Hw1].
      match goal with
      | |- context [writeDatabase ?d' w1] =>
          pose proof (writeDatabase_canonical d' w1
                        (canonical_delete d _ Hd) Hw1) as G;
          destruct (writeDatabase d' w1) as [w2 [? | ?]]
      end; exact G.
  - repeat split; try exact Hw1.
    all: destruct (negb (isValidMac (normalizeMac mac))); assumption.
Qed.

End macdb_facts.

(** * Properties of the HTTP handlers *)

Section mac_auth_file_facts.

Import mac_auth_file.

Lemma file_logAccess_events (c : FileLogCall) (w : World) :
  file_events_of
    (logAccess (fc_macs c) (fc_dev c) (fc_granted c) (fc_reason c) (fc_req c)
       (set_file_clock (fc_time c) w)) =
  js.slice_last 500 (file_events_of w ++ [file_event_of c]).
Proof.
  unfold logAccess, file_events_of, file_event_of. simpl.
  destruct (logFile w) as [| | l]; simpl; try reflexivity.
  apply slice_last_push.
Qed.

Lemma run_file_logAccess_events (calls : list FileLogCall) : ∀ w : World,
  calls ≠ [] →
  file_events_of (run_file_logAccess calls w) =
  js.slice_last 500 (file_events_of w ++ map file_event_of calls).
Proof.
  induction calls as [| c rest IH]; intros w Hne; [contradiction |].
  simpl. destruct rest as [| c' rest'].
  - simpl. apply file_logAccess_events.
  - rewrite IH by discriminate. rewrite file_logAccess_events.
    apply slice_last_absorb_app. lia.
Qed.

Lemma find_entry_None (k : string) (wl : list Entry) :
  find_entry k wl = None ↔ k ∉ map macAddress wl.
Proof.
  unfold find_entry. induction wl as [| e wl IH]; simpl.
  - split; [intros _ H; inversion H | reflexivity].
  - destruct (String.eqb_spec (macAddress e) k) as [-> | Hne].
    + split; [discriminate | intros H; exfalso; apply H; left].
    + rewrite IH. rewrite not_elem_of_cons. intuition congruence.
Qed.

Lemma file_expected_length (l : list MacData) : ∀ seen,
  length (file_expected seen l) = length l.
Proof.
  induction l as [| x l IH]; intros seen; simpl; [reflexivity |].
  destruct (negb _); simpl; [rewrite IH; reflexivity |].
  destruct (bool_decide _); simpl; rewrite IH; reflexivity.
Qed.

Lemma file_key_address (x : MacData) (a : string) :
  in_macAddress x = Some a → js.trim (js.toLowerCase a) = file_key x.
Proof. intros H. unfold file_key. rewrite H. reflexivity. Qed.

Lemma bulk_for_spec (now : Z) (l : list MacData) :
  ∀ (wl : list Entry) (rs : list ItemResult),
  Forall file_addressed l →
  let exp := file_expected (map macAddress wl) l in
  ∃ new,
    bulk_for now l (wl, rs) = Some (wl ++ new, rs ++ exp) ∧
    map macAddress new = map i_macAddress (List.filter i_success exp).
Proof.
  induction l as [| x l IH]; intros wl rs Ha;
    cbn [bulk_for file_expected].
  - exists []. cbn zeta. rewrite !app_nil_r. auto.
  - inversion Ha as [| ? ? [a Hx] Ha']; subst.
    unfold bulk_step. rewrite Hx. cbn zeta.
    rewrite (file_key_address x a Hx).
    destruct (negb (macRegex_test (file_key x))) eqn:Hfmt; simpl.
    + destruct (IH wl (rs ++ [mkItemResult (file_key x) false "Invalid format"])
                  Ha')
        as (new & E & Hnew).
      exists new. rewrite E, <- app_assoc. auto.
    + destruct (find_entry (file_key x) wl) as [e |] eqn:Hfind.
      * assert (Hin : file_key x ∈ map macAddress wl).
        { destruct (decide (file_key x ∈ map macAddress wl)) as [? | Hn]; auto.
          apply find_entry_None in Hn. congruence. }
        rewrite (bool_decide_eq_true_2 _ Hin). simpl.
        destruct (IH wl (rs ++ [mkItemResult (file_key x) false "Already exists"])
                    Ha')
          as (new & E & Hnew).
        exists new. rewrite E, <- app_assoc. auto.
      * apply find_entry_None in Hfind.
        rewrite (bool_decide_eq_false_2 _ Hfind). simpl.
        match goal with
        | |- context [bulk_for now l (wl ++ [?e], ?rs')] =>
            destruct (IH (wl ++ [e]) rs' Ha') as (new & E & Hnew);
            exists (e :: new)
        end.
        rewrite map_app in E, Hnew. simpl in E, Hnew.
        rewrite E, <- !app_assoc. simpl. rewrite Hnew. auto.
Qed.

(** An element without [macAddress] makes the loop throw. *)
Lemma bulk_for_thrown (now : Z) (l : list MacData) :
  ∀ st, ¬ Forall file_addressed l → bulk_for now l st = None.
Proof.
  induction l as [| x l IH]; intros st H; [destruct H; constructor |].
  cbn [bulk_for].
  destruct (bulk_step now x st) as [st1 |] eqn:E; [| reflexivity].
  apply IH. intros Hl. apply H. constructor; [| exact Hl].
  unfold bulk_step in E. destruct st as [wl rs]. unfold file_addressed.
  destruct (in_macAddress x); [eauto | discriminate].
Qed.

(** [handleBulkAddMACs] on an authorised request carrying a list whose
    items all come with a [macAddress]. *)
Lemma handleBulkAddMACs_spec (req : Request) (body : BulkBody)
    (l : list MacData) (w : World) :
  method req = "POST" → b_adminKey body = Some ADMIN_SECRET_KEY →
  b_macAddresses body = Some l → Forall file_addressed l →
  let res := handleBulkAddMACs req body w in
  let exp := file_expected (map macAddress (getWhitelist w)) l in
  let ok := length (List.filter i_success exp) in
  trace res.1 = trace w ++ [FsWriteDb; FsWriteBackup] ∧
  (∃ new, dataFile res.1 = Content (getWhitelist w ++ new) ∧
          map macAddress new = map i_macAddress (List.filter i_success exp)) ∧
  (∃ r, res.2 = Some r ∧
        status r = 200 ∧ success r = true ∧
        data r = Some (mkBulkData exp ok (length l - ok))) ∧
  length exp = length l.
Proof.
  intros Hm Hk Hl Ha res exp ok. subst res. unfold handleBulkAddMACs.
  rewrite Hm, Hk, Hl. rewrite (bool_decide_eq_true_2 _ eq_refl).
  change ("POST" =? "POST")%string with true. cbn [negb]. cbn iota.
  destruct (bulk_for_spec (clock w) l (getWhitelist w) [] Ha)
    as (new & E & Hnew).
  rewrite E. simpl.
  split; [reflexivity |]. split; [exists new; auto |].
  split; [| apply file_expected_length].
  eexists. split; [reflexivity |]. simpl. auto.
Qed.

(** The same request with an element without [macAddress]: no answer
    is sent and nothing is written. *)
Lemma handleBulkAddMACs_thrown (req : Request) (body : BulkBody)
    (l : list MacData) (w : World) :
  method req = "POST" → b_adminKey body = Some ADMIN_SECRET_KEY →
  b_macAddresses body = Some l → ¬ Forall file_addressed l →
  handleBulkAddMACs req body w = (w, None).
Proof.
  intros Hm Hk Hl Ha. unfold handleBulkAddMACs.
  rewrite Hm, Hk, Hl. rewrite (bool_decide_eq_true_2 _ eq_refl).
  change ("POST" =? "POST")%string with true. cbn [negb]. cbn iota.
  rewrite (bulk_for_thrown (clock w) l _ Ha). reflexivity.
Qed.

End mac_auth_file_facts.

Section mac_auth_facts.

Import mac_auth.

(** [handleUpdateAccess] on a request with a valid admin key and a
    well-formed MAC address: an access type outside the three names is
    refused with nothing read or written; otherwise the key is looked
    up, a missing one is reported, a present one gets the new type and
    [updatedAt]. *)
Lemma handleUpdateAccess_spec (body : UpdateBody) (mac : string) (w : World) :
  isValidAdmin (u_adminKey body) = true →
  u_macAddress body = Some mac → isValidMac mac = true →
  let res := handleUpdateAccess body w in
  let k := js.toLowerCase mac in
  (isAccessType (u_accessType body) = false →
     res = (w, mkResponse 400 false
                 "Invalid access type. Must be: trial, unlimited, or admin"
                 None)) ∧
  (∀ a, u_accessType body = Some a → isAccessType (Some a) = true →
     (stored w !! k = None →
        status res.2 = 404 ∧ success res.2 = false ∧ kvData res.1 = kvData w) ∧
     (∀ e, stored w !! k = Some e → kvOnline w = true →
        status res.2 = 200 ∧ success res.2 = true ∧
        kvData res.1 = Some (<[k := retyped (clock w) a e]> (stored w)))).
Proof.
  intros Hadm Hmac Hvalid res k. subst res. unfold handleUpdateAccess.
  rewrite Hadm, Hmac, Hvalid. simpl negb. cbn iota. split.
  - intros Ht. rewrite Ht. reflexivity.
  - intros a Ha Hta. rewrite Ha, Hta. simpl negb. cbn iota.
    unfold getAllMacAddresses. fold (stored w). fold k. split.
    + intros Hk. rewrite Hk. simpl. auto.
    + intros e Hk Hon. rewrite Hk. unfold saveAllMacAddresses. simpl.
      rewrite Hon. simpl. auto.
Qed.

Lemma handleCheckAccess_for_skip (allMacs : gmap string Entry)
    (pre rest : list string) dev (w : World) :
  Forall (λ x, vacant allMacs (js.toLowerCase x)) pre →
  handleCheckAccess_for allMacs (pre ++ rest) dev w =
  handleCheckAccess_for allMacs rest dev w.
Proof.
  induction 1 as [| x pre [Hx Hi] _ IH]; simpl; [reflexivity |].
  rewrite Hx, Hi. exact IH.
Qed.

(** [handleCheckAccess] stops at the first candidate whose lower-cased
    form is stored. *)
Lemma handleCheckAccess_grants_first
    (pre : list string) (m : string) (post : list string) (e : Entry)
    (body : CheckBody) (w : World) :
  c_macAddresses body = Some (pre ++ m :: post) →
  Forall (λ x, vacant (stored w) (js.toLowerCase x)) pre →
  stored w !! js.toLowerCase m = Some e →
  let k := js.toLowerCase m in
  let res := handleCheckAccess body w in
  res.2 =
    mkResponse 200 true "Device authorized"
      (Some (Granted k (description e) (js.or_default (accessType e) "trial")
               (addedAt e) (Some (clock w))
               (Some (js.or_zero (accessCount e) + 1)))) ∧
  (kvOnline w = true →
   kvData res.1 =
     Some (<[k := kv_touched (clock w) (c_deviceInfo body) e]> (stored w))).
Proof.
  intros Hb Hpre Hm k res. subst res k. unfold handleCheckAccess.
  rewrite Hb. unfold getAllMacAddresses. fold (stored w).
  rewrite (handleCheckAccess_for_skip _ pre (m :: post) _ _ Hpre).
  cbn [handleCheckAccess_for]. rewrite Hm. unfold grant. cbn [fst snd].
  split; [reflexivity |].
  intros Hon. unfold saveAllMacAddresses. simpl. rewrite Hon. reflexivity.
Qed.

End mac_auth_facts.

(** * Letter case *)

Lemma same_letter_lower (a b : ascii) :
  same_letter a b → js.lower_ascii a = js.lower_ascii b.
Proof.
  intros [-> | [[Hu E] | [Hu E]]]; [reflexivity | |].
  - rewrite <- (ascii_nat_embedding b), E. clear E.
    destruct a as [[] [] [] [] [] [] [] []]; vm_compute in Hu;
      try discriminate; reflexivity.
  - rewrite <- (ascii_nat_embedding a), E. clear E.
    destruct b as [[] [] [] [] [] [] [] []]; vm_compute in Hu;
      try discriminate; reflexivity.
Qed.

Lemma differ_in_case_lower (s1 : string) : ∀ s2,
  differ_in_case s1 s2 → js.toLowerCase s1 = js.toLowerCase s2.
Proof.
  induction s1 as [| a r1 IH]; intros [| b r2] H; simpl in *;
    try contradiction; [reflexivity |].
  destruct H as [Hab Hr]. rewrite (same_letter_lower a b Hab), (IH r2 Hr).
  reflexivity.
Qed.

(** * The properties of the specification *)

(** C1, where the code departs from it.  A candidate that is no key of
    the whitelist but the name of a member of [Object.prototype] passes
    the test [if (data.macAddresses[normalizedMac])]: a check whose
    first candidate is [constructor] is granted on that candidate,
    without description or date of addition, and the entry of the
    whitelisted candidate that follows is left as it was; with an empty
    whitelist the same candidate, or [__proto__], is granted alone.
    [handleCheckAccess] over the key-value store grants it too, with
    nothing stored. *)
Theorem checkAccess_grants_constructor :
  (∀ overwrite : bool,
     (mac_database.checkAccess sample_uuid overwrite
        ["constructor"; "AA:BB:CC:DD:EE:FF"] sample_device two_devices).2 =
     mac_database.mkResult true "Device authorized"
       (Some (mac_database.mkAccessData "constructor" None "trial" None
                (Some 2000%Z) (Some 1)))) ∧
  mac_database.macAddresses
    (mac_database.readDatabase
       (mac_database.checkAccess sample_uuid true
          ["constructor"; "AA:BB:CC:DD:EE:FF"] sample_device two_devices).1) =
  mac_database.macAddresses (mac_database.readDatabase two_devices) ∧
  mac_database.macAddresses (mac_database.readDatabase two_devices)
    !! "constructor" = None ∧
  mac_database.macAddresses (mac_database.readDatabase two_devices)
    !! js.toLowerCase "AA:BB:CC:DD:EE:FF" = Some laptop ∧
  (∀ overwrite : bool,
     mac_database.success
       (mac_database.checkAccess sample_uuid overwrite ["constructor"]
          sample_device fresh_world).2 = true ∧
     mac_database.success
       (mac_database.checkAccess sample_uuid overwrite ["__PROTO__"]
          sample_device fresh_world).2 = true) ∧
  (mac_auth.handleCheckAccess
     (mac_auth.mkCheckBody (Some ["constructor"]) None)
     (mac_auth.mkWorld None true 2000 [])).2 =
  mac_auth.mkResponse 200 true "Device authorized"
    (Some (mac_auth.GrantedMember "constructor" "trial" (Some 2000%Z)
             (Some 1))) ∧
  mac_auth.success
    (mac_auth.handleCheckAccess
       (mac_auth.mkCheckBody (Some ["constructor"]) None)
       (mac_auth.mkWorld None false 2000 [])).2 = true.
Proof.
  split; [intros []; vm_compute; reflexivity |].
  split; [vm_compute; reflexivity |].
  split; [vm_compute; reflexivity |].
  split; [vm_compute; reflexivity |].
  split; [intros []; split; vm_compute; reflexivity |].
  split; vm_compute; reflexivity.
Qed.



(** C2, refuted for [MACDatabase]: a hyphen-separated and a
    colon-separated spelling of one address get two keys; both are added
    and the snapshot holds two entries for the one address; after the
    first add, a check with the other spelling is refused, however the
    library moves files. *)
Lemma spellings_coexist :
  same_address "AA-BB-CC-DD-EE-FF" "aa:bb:cc:dd:ee:ff" ∧
  js.toLowerCase "AA-BB-CC-DD-EE-FF" ≠ js.toLowerCase "aa:bb:cc:dd:ee:ff" ∧
  mac_database.success
    (mac_database.addMACAddress sample_uuid true "AA-BB-CC-DD-EE-FF"
       (Some "Laptop") None fresh_world).2 = true ∧
  mac_database.success
    (mac_database.addMACAddress sample_uuid true "aa:bb:cc:dd:ee:ff"
       (Some "Laptop") None
       (mac_database.addMACAddress sample_uuid true "AA-BB-CC-DD-EE-FF"
          (Some "Laptop") None fresh_world).1).2 = true ∧
  size
    (mac_database.macAddresses
       (mac_database.readDatabase
          (mac_database.addMACAddress sample_uuid true "aa:bb:cc:dd:ee:ff"
             (Some "Laptop") None
             (mac_database.addMACAddress sample_uuid true "AA-BB-CC-DD-EE-FF"
                (Some "Laptop") None fresh_world).1).1)) = 2 ∧
  mac_database.success
    (mac_database.checkAccess sample_uuid true ["aa:bb:cc:dd:ee:ff"]
       sample_device
       (mac_database.addMACAddress sample_uuid true "AA-BB-CC-DD-EE-FF"
          (Some "Laptop") None blank_world).1).2 = false ∧
  mac_database.success
    (mac_database.checkAccess sample_uuid false ["aa:bb:cc:dd:ee:ff"]
       sample_device
       (mac_database.addMACAddress sample_uuid false "AA-BB-CC-DD-EE-FF"
          (Some "Laptop") None blank_world).1).2 = false.
Proof.
  split; [exists [10; 10; 11; 11; 12; 12; 13; 13; 14; 14; 15; 15]; split;
          reflexivity |].
  split; [discriminate |].
  repeat split; vm_compute; reflexivity.
Qed.

(** C2, as the code has it.  In [MacDatabase] ([macdb.js]) two spellings
    of one address, colon- or hyphen-separated and in any letter case,
    are normalized to one valid key, so adding, authenticating and
    removing do the same for both; normalizing is idempotent, the
    operations keep every key of the document normalized, and two
    normalized keys of one address are equal.  In [MACDatabase]
    ([mac-database.js]) the key is the lower-cased string: spellings that
    differ in letter case only have one key and the operations do the
    same for both. *)
Theorem spellings_and_keys
    (randomUUID : nat → string) (overwrite : bool)
    (sha256 : string → string) (readError : string) :
  (∀ s1 s2, same_address s1 s2 →
     macdb.normalizeMac s1 = macdb.normalizeMac s2 ∧
     macdb.isValidMac (macdb.normalizeMac s1) = true ∧
     (∀ meta w, macdb.addMacAddress sha256 readError s1 meta w =
                macdb.addMacAddress sha256 readError s2 meta w) ∧
     (∀ w, macdb.authenticateMac readError s1 w =
           macdb.authenticateMac readError s2 w) ∧
     (∀ w, macdb.removeMacAddress readError s1 w =
           macdb.removeMacAddress readError s2 w)) ∧
  (∀ s, macdb.normalizeMac (macdb.normalizeMac s) = macdb.normalizeMac s) ∧
  (∀ mac meta w, store_canonical w →
     store_canonical (macdb.addMacAddress sha256 readError mac meta w).1 ∧
     store_canonical (macdb.authenticateMac readError mac w).1 ∧
     store_canonical (macdb.removeMacAddress readError mac w).1) ∧
  (∀ k1 k2, macdb.normalizeMac k1 = k1 → macdb.normalizeMac k2 = k2 →
     same_address k1 k2 → k1 = k2) ∧
  (∀ s1 s2, differ_in_case s1 s2 →
     js.toLowerCase s1 = js.toLowerCase s2 ∧
     (∀ desc at_ w,
        mac_database.addMACAddress randomUUID overwrite s1 desc at_ w =
        mac_database.addMACAddress randomUUID overwrite s2 desc at_ w) ∧
     (∀ newType w,
        mac_database.updateMACAccess overwrite s1 newType w =
        mac_database.updateMACAccess overwrite s2 newType w) ∧
     (∀ w, mac_database.removeMACAddress overwrite s1 w =
           mac_database.removeMACAddress overwrite s2 w) ∧
     (∀ dev w,
        (mac_database.checkAccess randomUUID overwrite [s1] dev w).2 =
        (mac_database.checkAccess randomUUID overwrite [s2] dev w).2)).
Proof.
  split; [| split; [| split; [| split]]].
  - intros s1 s2 Hs.
    destruct (normalizeMac_same_address s1 s2 Hs) as [E V].
    split; [exact E |]. split; [exact V |].
    unfold macdb.addMacAddress, macdb.authenticateMac, macdb.removeMacAddress.
    rewrite E. repeat split; reflexivity.
  - apply normalizeMac_idempotent.
  - intros mac meta w. apply operations_keep_canonical.
  - apply canonical_same_address.
  - intros s1 s2 Hs. pose proof (differ_in_case_lower s1 s2 Hs) as E.
    split; [exact E |].
    unfold mac_database.addMACAddress, mac_database.updateMACAccess,
      mac_database.removeMACAddress, mac_database.checkAccess.
    cbn [mac_database.checkAccess_for]. rewrite E.
    repeat split; try reflexivity.
    intros dev w.
    destruct (mac_database.macAddresses (mac_database.readDatabase w)
                !! js.toLowerCase s2); [reflexivity |].
    destruct (js.inherited (js.toLowerCase s2)); reflexivity.
Qed.

Lemma spellings_and_keys_witness :
  macdb.normalizeMac "AA-BB-CC-DD-EE-FF" = macdb.normalizeMac "aa:bb:cc:dd:ee:ff" ∧
  js.toLowerCase "AA:BB:CC:DD:EE:FF" = js.toLowerCase "aa:bb:cc:dd:ee:ff".
Proof.
  pose proof (spellings_and_keys sample_uuid true sample_sha256 "ENOENT")
    as (A & _ & _ & _ & B).
  split.
  - apply (A "AA-BB-CC-DD-EE-FF" "aa:bb:cc:dd:ee:ff").
    exists [10; 10; 11; 11; 12; 12; 13; 13; 14; 14; 15; 15]. split; reflexivity.
  - apply (B "AA:BB:CC:DD:EE:FF" "aa:bb:cc:dd:ee:ff").
    simpl. unfold same_letter, is_upper. simpl.
    repeat split; auto.
Defined.

(** C3, refuted for [MACDatabase]: an address that is in the snapshot
    under its colon-separated spelling is added again under its
    hyphen-separated spelling.  The second add is not answered with the
    duplicate failure: when the library replaces the snapshot it
    succeeds and the snapshot has one entry more; when the library
    refuses to, the answer is the failure of the write, and the
    snapshot that was to be written has the three entries. *)
Lemma second_spelling_added :
  same_address "AA-BB-CC-DD-EE-FF" "aa:bb:cc:dd:ee:ff" ∧
  mac_database.macAddresses (mac_database.readDatabase two_devices)
    !! "aa:bb:cc:dd:ee:ff" = Some laptop ∧
  size (mac_database.macAddresses (mac_database.readDatabase two_devices))
    = 2 ∧
  (mac_database.addMACAddress sample_uuid true "AA-BB-CC-DD-EE-FF"
     (Some "Laptop again") None two_devices).2 =
  mac_database.mkResult true "MAC address added successfully"
    (Some (mac_database.mkEntry (Some "Laptop again") (Some "trial") 2000
             None None (Some 0) None (Some (sample_uuid 2)))) ∧
  size
    (mac_database.macAddresses
       (mac_database.readDatabase
          (mac_database.addMACAddress sample_uuid true "AA-BB-CC-DD-EE-FF"
             (Some "Laptop again") None two_devices).1)) = 3 ∧
  (mac_database.addMACAddress sample_uuid false "AA-BB-CC-DD-EE-FF"
     (Some "Laptop again") None two_devices).2 =
  mac_database.mkResult false "Failed to save to database" None ∧
  (λ d, size (mac_database.macAddresses d))
    <$> readJson
          (mac_database.tmpFile
             (mac_database.addMACAddress sample_uuid false "AA-BB-CC-DD-EE-FF"
                (Some "Laptop again") None two_devices).1) = Some 3.
Proof.
  split; [exists [10; 10; 11; 11; 12; 12; 13; 13; 14; 14; 15; 15]; split;
          reflexivity |].
  repeat split; vm_compute; reflexivity.
Qed.

(** C3, as the code has it.  An add of a MAC address whose key is
    already in the store fails with the duplicate message and
    [success = false], and the store is as before; the key is the
    lower-cased string in [MACDatabase] and the normalized address in
    [MacDatabase].  In [MACDatabase] the world is untouched (same
    entries, same fields, no backup, no write); in [MacDatabase], with
    the lock free, the document is read under the lock and left as it
    is.  In particular a second add after a successful one, in any
    spelling with the same key and at any later time, is such a
    failure. *)
Theorem duplicate_add_rejected
    (randomUUID : nat → string) (overwrite : bool)
    (sha256 : string → string) (readError : string) :
  (∀ mac desc at_ e w,
     mac_database.macAddresses (mac_database.readDatabase w)
       !! js.toLowerCase mac = Some e →
     mac_database.addMACAddress randomUUID overwrite mac desc at_ w =
     (w, mac_database.mkResult false
           "MAC address already exists in whitelist" None)) ∧
  (∀ mac desc at_ mac2 desc2 at2 w t,
     mac_database.success
       (mac_database.addMACAddress randomUUID overwrite mac desc at_ w).2
       = true →
     js.toLowerCase mac2 = js.toLowerCase mac →
     let w1 :=
       mac_database.set_clock t
         (mac_database.addMACAddress randomUUID overwrite mac desc at_ w).1 in
     mac_database.addMACAddress randomUUID overwrite mac2 desc2 at2 w1 =
     (w1, mac_database.mkResult false
            "MAC address already exists in whitelist" None)) ∧
  (∀ mac meta d e w,
     macdb.lockFile w = false → macdb.dbFile w = Content d →
     macdb.isValidMac (macdb.normalizeMac mac) = true →
     macdb.macAddresses d !! macdb.normalizeMac mac = Some e →
     let res := macdb.addMacAddress sha256 readError mac meta w in
     res.2 =
       macdb.Return (macdb.mkAddResult false "MAC address already exists" None) ∧
     macdb.dbFile res.1 = Content d ∧
     macdb.lockFile res.1 = false ∧
     macdb.trace res.1 = macdb.trace w ++ [FsLockTry true; FsUnlock]).
Proof.
  split; [| split].
  - intros. eapply addMACAddress_duplicate; eassumption.
  - intros mac desc at_ mac2 desc2 at2 w t Hok Hk w1.
    destruct (addMACAddress_success_present randomUUID overwrite
                mac desc at_ w t Hok) as [e He].
    fold w1 in He. rewrite <- Hk in He.
    exact (addMACAddress_duplicate randomUUID overwrite mac2 desc2 at2 e w1 He).
  - intros mac meta d e w Hl Hd Hv Hk res. subst res.
    rewrite (addMacAddress_duplicate sha256 readError mac meta d e w Hl Hd Hv Hk).
    simpl. auto.
Qed.

Lemma duplicate_add_rejected_witness :
  mac_database.addMACAddress sample_uuid true "AA:BB:CC:DD:EE:FF"
    (Some "Again") None two_devices =
  (two_devices,
   mac_database.mkResult false "MAC address already exists in whitelist" None) ∧
  (macdb.addMacAddress sample_sha256 "ENOENT" "AA-BB-CC-DD-EE-FF" ∅
     one_device).2 =
  macdb.Return (macdb.mkAddResult false "MAC address already exists" None).
Proof.
  pose proof (duplicate_add_rejected sample_uuid true sample_sha256 "ENOENT")
    as (A & _ & B).
  split.
  - apply (A "AA:BB:CC:DD:EE:FF" (Some "Again") None laptop two_devices).
    vm_compute. reflexivity.
  - apply (B "AA-BB-CC-DD-EE-FF" ∅ one_device_doc registered one_device);
      vm_compute; reflexivity.
Defined.

(** C4, refuted: a write of [MACDatabase] is committed without any call
    on a lock, and a write of [MacDatabase] is committed without a
    temporary file or a rename; neither is the sequence of calls the
    write protocol asks for. *)
Lemma committed_outside_the_protocol :
  mac_database.macFile
    (mac_database.writeDatabase true (mac_database.emptyDatabase 0)
       blank_world).1 ≠ mac_database.macFile blank_world ∧
  mac_database.trace
    (mac_database.writeDatabase true (mac_database.emptyDatabase 0)
       blank_world).1 = [FsWriteTmp; FsMove true] ∧
  mac_database.trace
    (mac_database.writeDatabase false (mac_database.emptyDatabase 0)
       blank_world).1 = [FsWriteTmp; FsMove true] ∧
  ¬ locked_atomic_write [FsWriteTmp; FsMove true] ∧
  macdb.dbFile (macdb.writeDatabase one_device_doc broken_document).1
    ≠ macdb.dbFile broken_document ∧
  macdb.trace (macdb.writeDatabase one_device_doc broken_document).1 =
    [FsLockTry true; FsWriteDb; FsUnlock] ∧
  ¬ locked_atomic_write [FsLockTry true; FsWriteDb; FsUnlock].
Proof.
  split; [vm_compute; discriminate |].
  split; [vm_compute; reflexivity |].
  split; [vm_compute; reflexivity |].
  split; [intros [[| n] H]; simpl in H; discriminate |].
  split; [vm_compute; discriminate |].
  split; [vm_compute; reflexivity |].
  intros [[| n] H]; simpl in H; discriminate.
Qed.

(** C4, as the code has it.  [MacDatabase]: a write takes the lock file
    first; when the lock is free it is taken at the first attempt, the
    whole document is written in place, and the lock is released; when
    the lock is held the write polls it 500 times, 10 ms apart, gives up
    after 5000 ms with the error [Could not acquire database lock], and
    the document is not written.  [MACDatabase]: a write copies a backup
    when there is a snapshot, writes the whole snapshot to the temporary
    file and moves it into place; it takes no lock and never waits. *)
Theorem write_protocols (overwrite : bool) :
  (∀ d w, macdb.lockFile w = false →
     macdb.writeDatabase d w =
     (macdb.emit [FsLockTry true; FsWriteDb; FsUnlock]
        (macdb.set_dbFile (Content (stamped (macdb.clock w) d)) w),
      macdb.Return tt)) ∧
  (∀ d w, macdb.lockFile w = true →
     macdb.writeDatabase d w =
     (macdb.mkWorld (macdb.dbFile w) true (macdb.clock w + 5000)
        (macdb.trace w ++ failed_polls 500),
      macdb.Throw "Could not acquire database lock")) ∧
  (∀ d w,
     let res := mac_database.writeDatabase overwrite d w in
     mac_database.trace res.1 =
       mac_database.trace w ++ backup_ops w ++
       [FsWriteTmp; FsMove (moves overwrite w)] ∧
     mac_database.clock res.1 = mac_database.clock w ∧
     res.2 = moves overwrite w ∧
     mac_database.macFile res.1 =
       (if moves overwrite w
        then Content (mac_database.stamp (mac_database.clock w) d)
        else mac_database.macFile w)).
Proof.
  split; [| split].
  - apply writeDatabase_free.
  - apply writeDatabase_held.
  - intros d w res. subst res.
    pose proof (writeDatabase_spec overwrite d w) as (A & B & _ & _ & C & _ & D).
    auto.
Qed.

Lemma write_protocols_witness :
  (macdb.writeDatabase one_device_doc one_device).2 = macdb.Return tt ∧
  (macdb.writeDatabase one_device_doc stale_lock).2 =
    macdb.Throw "Could not acquire database lock" ∧
  macdb.clock (macdb.writeDatabase one_device_doc stale_lock).1 = 7000%Z.
Proof.
  pose proof (write_protocols true) as (A & B & _).
  rewrite (A one_device_doc one_device eq_refl).
  rewrite (B one_device_doc stale_lock eq_refl).
  repeat split; reflexivity.
Defined.

(** C5. The access log after any sequence of [logAccess] calls, made on
    a log that is readable and within the bound (as the one
    [initializeDatabase] creates): it holds the last 1000 of the events
    it held before followed by the events of the calls, in the order of
    the calls, and so never more than 1000.  The same holds with 500 for
    [logAccess] of the file-backed [api/mac-auth.js].  The events kept do
    not depend on anything but the order in which they were appended. *)
Theorem access_log_bounded (randomUUID : nat → string) :
  (∀ (calls : list LogCall) (w : mac_database.World),
     mac_database.logFile w ≠ Corrupt →
     (length (events_of w) ≤ 1000)%nat →
     let w' := run_logAccess randomUUID calls w in
     events_of w' =
       js.slice_last 1000 (events_of w ++ events_from randomUUID
                                            (mac_database.uuids w) calls) ∧
     (length (events_of w') ≤ 1000)%nat) ∧
  (∀ (calls : list FileLogCall) (w : mac_auth_file.World),
     (length (file_events_of w) ≤ 500)%nat →
     let w' := run_file_logAccess calls w in
     file_events_of w' =
       js.slice_last 500 (file_events_of w ++ map file_event_of calls) ∧
     (length (file_events_of w') ≤ 500)%nat).
Proof.
  split.
  - intros calls w Hlog Hlen w'. subst w'.
    assert (E : events_of (run_logAccess randomUUID calls w) =
                js.slice_last 1000
                  (events_of w ++
                   events_from randomUUID (mac_database.uuids w) calls)).
    { destruct calls as [| c rest].
      - simpl. rewrite app_nil_r. symmetry. apply slice_last_all. exact Hlen.
      - apply run_logAccess_events; [exact Hlog | discriminate]. }
    split; [exact E |]. rewrite E, slice_last_length. lia.
  - intros calls w Hlen w'. subst w'.
    assert (E : file_events_of (run_file_logAccess calls w) =
                js.slice_last 500 (file_events_of w ++ map file_event_of calls)).
    { destruct calls as [| c rest].
      - simpl. rewrite app_nil_r. symmetry. apply slice_last_all. exact Hlen.
      - apply run_file_logAccess_events. discriminate. }
    split; [exact E |]. rewrite E, slice_last_length. lia.
Qed.

Lemma access_log_bounded_witness :
  (length
     (events_of
        (run_logAccess sample_uuid
           [mkLogCall 1500 "aa:bb:cc:dd:ee:ff" sample_device true "Access granted";
            mkLogCall 1600 "unknown" sample_device false
              "MAC address not whitelisted"]
           fresh_world)) ≤ 1000)%nat.
Proof.
  pose proof (access_log_bounded sample_uuid) as [A _].
  apply A.
  - vm_compute. discriminate.
  - vm_compute. lia.
Defined.

(** C6, refuted for [bulkAddMACs]: of two well-formed items and a
    malformed one, all three are added and none is skipped, however the
    library moves files; the malformed string is a key of the snapshot
    afterwards. *)
Lemma bulkAdd_accepts_malformed :
  mac_auth_file.macRegex_test "not-a-mac" = false ∧
  mac_database.data
    (mac_database.bulkAddMACs sample_uuid true sample_typeError
       [mac_database.mkMacEntry (Some "AA:BB:CC:DD:EE:01") (Some "One") None;
        mac_database.mkMacEntry (Some "aa:bb:cc:dd:ee:02") None (Some "admin");
        mac_database.mkMacEntry (Some "not-a-mac") None None]
       blank_world).2 =
  Some (mac_database.mkBulkData
          [mac_database.mkBulkItem "aa:bb:cc:dd:ee:01" "added" None
             (Some "trial");
           mac_database.mkBulkItem "aa:bb:cc:dd:ee:02" "added" None
             (Some "admin");
           mac_database.mkBulkItem "not-a-mac" "added" None (Some "trial")]
          (mac_database.mkBulkSummary 3 3 0)) ∧
  mac_database.data
    (mac_database.bulkAddMACs sample_uuid false sample_typeError
       [mac_database.mkMacEntry (Some "AA:BB:CC:DD:EE:01") (Some "One") None;
        mac_database.mkMacEntry (Some "aa:bb:cc:dd:ee:02") None (Some "admin");
        mac_database.mkMacEntry (Some "not-a-mac") None None]
       blank_world).2 =
  Some (mac_database.mkBulkData
          [mac_database.mkBulkItem "aa:bb:cc:dd:ee:01" "added" None
             (Some "trial");
           mac_database.mkBulkItem "aa:bb:cc:dd:ee:02" "added" None
             (Some "admin");
           mac_database.mkBulkItem "not-a-mac" "added" None (Some "trial")]
          (mac_database.mkBulkSummary 3 3 0)) ∧
  is_Some
    (mac_database.macAddresses
       (mac_database.readDatabase
          (mac_database.bulkAddMACs sample_uuid true sample_typeError
             [mac_database.mkMacEntry (Some "AA:BB:CC:DD:EE:01") (Some "One") None;
              mac_database.mkMacEntry (Some "aa:bb:cc:dd:ee:02") None (Some "admin");
              mac_database.mkMacEntry (Some "not-a-mac") None None]
             blank_world).1)
     !! "not-a-mac").
Proof.
  split; [reflexivity |]. split; [vm_compute; reflexivity |].
  split; [vm_compute; reflexivity |].
  vm_compute. eauto.
Qed.

(** C6, as the code has it, for a list whose items all come with a
    [macAddress] (and, in [MACDatabase], one that is the name of no
    member of [Object.prototype]).  [bulkAddMACs] of [MACDatabase]
    makes no check of the format: an item whose lower-cased MAC is a
    key of the snapshot, or the key of an item before it, is recorded
    as skipped ([Already exists]); every other item is added under its
    lower-cased MAC.  The pass makes one write of the snapshot, which
    keeps every old entry; when the write goes through the answer
    carries the per-item list in the order of the input and a summary
    with [total] the length of the input and [added] and [skipped] the
    numbers of items so recorded, which add up to [total].  The check
    of the format, with a per-item failure, is made by the handler
    [handleBulkAddMACs]: there an item fails when its key has not the
    format or is in the whitelist already, every other item is
    appended, the whitelist is saved once, and the answer carries the
    per-item list and the two counts. *)
Theorem bulkAdd_outcomes (randomUUID : nat → string) (overwrite : bool)
    (typeError : string) :
  (∀ (l : list mac_database.MacEntry) (w : mac_database.World),
     Forall addressed l → Forall (λ x, plain_key (bulk_key x)) l →
     let res := mac_database.bulkAddMACs randomUUID overwrite typeError l w in
     let store := mac_database.macAddresses (mac_database.readDatabase w) in
     let rs := expected_results (dom store) l in
     mac_database.trace res.1 =
       mac_database.trace w ++ backup_ops w ++
       [FsWriteTmp; FsMove (moves overwrite w)] ∧
     (∃ d', (if moves overwrite w then mac_database.macFile res.1
             else mac_database.tmpFile res.1) = Content d' ∧
            dom (mac_database.macAddresses d') =
              list_to_set (map bulk_key l) ∪ dom store ∧
            ∀ k e, store !! k = Some e →
                   mac_database.macAddresses d' !! k = Some e) ∧
     (moves overwrite w = true →
        mac_database.success res.2 = true ∧
        mac_database.data res.2 =
          Some (mac_database.mkBulkData rs
                  (mac_database.mkBulkSummary (length l)
                     (length (List.filter is_added rs))
                     (length (List.filter is_skipped rs))))) ∧
     map mac_database.b_macAddress rs = map bulk_key l ∧
     length (List.filter is_added rs) + length (List.filter is_skipped rs)
       = length l) ∧
  (∀ (req : mac_auth_file.Request) (body : mac_auth_file.BulkBody)
     (l : list mac_auth_file.MacData) (w : mac_auth_file.World),
     mac_auth_file.method req = "POST" →
     mac_auth_file.b_adminKey body = Some mac_auth_file.ADMIN_SECRET_KEY →
     mac_auth_file.b_macAddresses body = Some l →
     Forall file_addressed l →
     let res := mac_auth_file.handleBulkAddMACs req body w in
     let exp :=
       file_expected
         (map mac_auth_file.macAddress (mac_auth_file.getWhitelist w)) l in
     let ok := length (List.filter mac_auth_file.i_success exp) in
     mac_auth_file.trace res.1 =
       mac_auth_file.trace w ++ [FsWriteDb; FsWriteBackup] ∧
     (∃ new, mac_auth_file.dataFile res.1 =
               Content (mac_auth_file.getWhitelist w ++ new) ∧
             map mac_auth_file.macAddress new =
               map mac_auth_file.i_macAddress
                 (List.filter mac_auth_file.i_success exp)) ∧
     (∃ r, res.2 = Some r ∧
           mac_auth_file.status r = 200 ∧
           mac_auth_file.success r = true ∧
           mac_auth_file.data r =
             Some (mac_auth_file.mkBulkData exp ok (length l - ok))) ∧
     length exp = length l).
Proof.
  split.
  - intros l w Ha Hp res store rs.
    pose proof (bulkAddMACs_spec randomUUID overwrite typeError l w Ha Hp)
      as (A & B & C & _).
    split; [exact A |]. split; [exact B |]. split; [exact C |].
    split; [apply expected_results_keys | apply expected_results_counts].
  - intros req body l w Hm Hk Hl Ha.
    exact (handleBulkAddMACs_spec req body l w Hm Hk Hl Ha).
Qed.

Lemma bulkAdd_outcomes_witness :
  (mac_database.bulkAddMACs sample_uuid true sample_typeError
     [mac_database.mkMacEntry (Some "AA:BB:CC:DD:EE:FF") None None;
      mac_database.mkMacEntry (Some "aa:bb:cc:dd:ee:02") None (Some "admin")]
     two_devices).2 =
  mac_database.mkResult true "Bulk operation completed: 1 added, 1 skipped"
    (Some (mac_database.mkBulkData
             [mac_database.mkBulkItem "aa:bb:cc:dd:ee:ff" "skipped"
                (Some "Already exists") None;
              mac_database.mkBulkItem "aa:bb:cc:dd:ee:02" "added" None
                (Some "admin")]
             (mac_database.mkBulkSummary 2 1 1))) ∧
  ∃ r,
    (mac_auth_file.handleBulkAddMACs
       (mac_auth_file.mkRequest "POST" None None)
       (mac_auth_file.mkBulkBody
          (Some [mac_auth_file.mkMacData (Some "AA:BB:CC:DD:EE:01") (Some "One");
                 mac_auth_file.mkMacData (Some "aa-bb-cc-dd-ee-02") None;
                 mac_auth_file.mkMacData (Some "not-a-mac") None])
          (Some "122316"))
       (mac_auth_file.mkWorld Missing [] Missing 1000 [])).2 = Some r ∧
    mac_auth_file.data r =
    Some (mac_auth_file.mkBulkData
            [mac_auth_file.mkItemResult "aa:bb:cc:dd:ee:01" true
               "Added successfully";
             mac_auth_file.mkItemResult "aa-bb-cc-dd-ee-02" true
               "Added successfully";
             mac_auth_file.mkItemResult "not-a-mac" false "Invalid format"]
            2 1).
Proof.
  pose proof (bulkAdd_outcomes sample_uuid true sample_typeError) as [A B].
  split.
  - pose proof (A [mac_database.mkMacEntry (Some "AA:BB:CC:DD:EE:FF") None None;
                   mac_database.mkMacEntry (Some "aa:bb:cc:dd:ee:02") None
                     (Some "admin")]
                  two_devices) as H.
    cbn zeta in H.
    destruct H as (_ & _ & C & _).
    + repeat constructor; eexists; reflexivity.
    + repeat constructor; vm_compute; reflexivity.
    + destruct C as [S D]; [reflexivity |].
      destruct (mac_database.bulkAddMACs _ _ _ _ _).2 as [ok msg dt] eqn:E.
      simpl in S, D. subst ok dt.
      vm_compute in E. injection E as <-. vm_compute. reflexivity.
  - pose proof (B (mac_auth_file.mkRequest "POST" None None)
                  (mac_auth_file.mkBulkBody
                     (Some [mac_auth_file.mkMacData (Some "AA:BB:CC:DD:EE:01")
                              (Some "One");
                            mac_auth_file.mkMacData (Some "aa-bb-cc-dd-ee-02")
                              None;
                            mac_auth_file.mkMacData (Some "not-a-mac") None])
                     (Some "122316"))
                  _ (mac_auth_file.mkWorld Missing [] Missing 1000 [])
                  eq_refl eq_refl eq_refl) as H.
    cbn zeta in H.
    destruct H as (_ & _ & (r & E & _ & _ & D) & _).
    + repeat constructor; eexists; reflexivity.
    + exists r. split; [exact E | exact D].
Defined.

(** C7, refuted for [updateMACAccess]: a new type that is none of
    [trial], [unlimited], [admin] is accepted; the snapshot handed to the
    write carries it, and when the write goes through the answer is a
    success. *)
Lemma updateMACAccess_any_type :
  mac_auth.isAccessType (Some "superuser") = false ∧
  mac_database.success
    (mac_database.updateMACAccess true "AA:BB:CC:DD:EE:FF" "superuser"
       two_devices).2 = true ∧
  mac_database.accessType
    <$> (mac_database.macAddresses
           (mac_database.readDatabase
              (mac_database.updateMACAccess true "AA:BB:CC:DD:EE:FF"
                 "superuser" two_devices).1)
         !! "aa:bb:cc:dd:ee:ff") = Some (Some "superuser") ∧
  mac_database.message
    (mac_database.updateMACAccess false "AA:BB:CC:DD:EE:FF" "superuser"
       two_devices).2 = "Failed to save to database" ∧
  (λ d, mac_database.accessType
          <$> (mac_database.macAddresses d !! "aa:bb:cc:dd:ee:ff"))
    <$> readJson
          (mac_database.tmpFile
             (mac_database.updateMACAccess false "AA:BB:CC:DD:EE:FF"
                "superuser" two_devices).1)
  = Some (Some (Some "superuser")).
Proof. repeat split; vm_compute; reflexivity. Qed.

(** C7, as the code has it.  [updateMACAccess] of [MACDatabase] fails
    with the not-found message, and touches nothing, when nothing is
    found under the lower-cased MAC (it is no key and names no member
    of [Object.prototype]); on a key it sets the entry's access type to
    the new type, whatever string that is, stamps [updatedAt] with the
    time of the call and writes the snapshot, answering with the entry
    when the write went through.  The check of the new type against [trial],
    [unlimited], [admin] is made by the handler [handleUpdateAccess],
    before it reads or writes the store: a request with another type is
    answered 400 and the world is as before; with one of the three, a key
    that is not stored is answered 404 and a stored one gets the new type
    and [updatedAt]. *)
Theorem updateAccess_behaviour (overwrite : bool) :
  (∀ mac newType w,
     vacant (mac_database.macAddresses (mac_database.readDatabase w))
       (js.toLowerCase mac) →
     mac_database.updateMACAccess overwrite mac newType w =
     (w, mac_database.mkResult false "MAC address not found in whitelist" None)) ∧
  (∀ mac newType e w,
     mac_database.macAddresses (mac_database.readDatabase w)
       !! js.toLowerCase mac = Some e →
     let e' :=
       mac_database.set_updatedAt (Some (mac_database.clock w))
         (mac_database.set_accessType (Some newType) e) in
     let d' :=
       mac_database.stamp (mac_database.clock w)
         (mac_database.set_macAddresses
            (<[js.toLowerCase mac := e']>
               (mac_database.macAddresses (mac_database.readDatabase w)))
            (mac_database.readDatabase w)) in
     let res := mac_database.updateMACAccess overwrite mac newType w in
     (if moves overwrite w then mac_database.macFile res.1
      else mac_database.tmpFile res.1) = Content d' ∧
     res.2 =
       (if moves overwrite w
        then mac_database.mkResult true "Access type updated successfully"
               (Some (mac_database.UpdatedEntry e'))
        else mac_database.mkResult false "Failed to save to database" None)) ∧
  (∀ body mac w,
     mac_auth.isValidAdmin (mac_auth.u_adminKey body) = true →
     mac_auth.u_macAddress body = Some mac → mac_auth.isValidMac mac = true →
     let res := mac_auth.handleUpdateAccess body w in
     let k := js.toLowerCase mac in
     (mac_auth.isAccessType (mac_auth.u_accessType body) = false →
        res = (w, mac_auth.mkResponse 400 false
                    "Invalid access type. Must be: trial, unlimited, or admin"
                    None)) ∧
     (∀ a, mac_auth.u_accessType body = Some a →
        mac_auth.isAccessType (Some a) = true →
        (stored w !! k = None →
           mac_auth.status res.2 = 404 ∧ mac_auth.success res.2 = false ∧
           mac_auth.kvData res.1 = mac_auth.kvData w) ∧
        (∀ e, stored w !! k = Some e → mac_auth.kvOnline w = true →
           mac_auth.status res.2 = 200 ∧ mac_auth.success res.2 = true ∧
           mac_auth.kvData res.1 =
             Some (<[k := retyped (mac_auth.clock w) a e]> (stored w))))).
Proof.
  split; [| split].
  - apply updateMACAccess_absent.
  - apply updateMACAccess_present.
  - apply handleUpdateAccess_spec.
Qed.

Lemma updateAccess_behaviour_witness :
  mac_database.updateMACAccess true "00:00:00:00:00:01" "admin" two_devices =
  (two_devices,
   mac_database.mkResult false "MAC address not found in whitelist" None) ∧
  (mac_database.updateMACAccess true "AA:BB:CC:DD:EE:FF" "admin" two_devices).2 =
  mac_database.mkResult true "Access type updated successfully"
    (Some (mac_database.UpdatedEntry
             (mac_database.mkEntry (Some "Lab laptop") (Some "admin") 500
                (Some 2000%Z) None (Some 0) None (Some "uuid-a")))) ∧
  mac_auth.handleUpdateAccess
    (mac_auth.mkUpdateBody (Some "AA:BB:CC:DD:EE:FF") (Some "superuser")
       (Some "122316"))
    (mac_auth.mkWorld None true 2000 []) =
  (mac_auth.mkWorld None true 2000 [],
   mac_auth.mkResponse 400 false
     "Invalid access type. Must be: trial, unlimited, or admin" None).
Proof.
  pose proof (updateAccess_behaviour true) as (A & B & C).
  split; [| split].
  - apply A. split; vm_compute; reflexivity.
  - pose proof (B "AA:BB:CC:DD:EE:FF" "admin" laptop two_devices) as [_ R];
      [vm_compute; reflexivity |].
    exact R.
  - pose proof (C (mac_auth.mkUpdateBody (Some "AA:BB:CC:DD:EE:FF")
                     (Some "superuser") (Some "122316"))
                  "AA:BB:CC:DD:EE:FF" (mac_auth.mkWorld None true 2000 [])
                  eq_refl eq_refl eq_refl) as [R _].
    apply R. reflexivity.
Defined.

(** C8, refuted for [MacDatabase]: with a document that does not parse,
    [readDatabase] throws the error of the read on to its caller, and
    [addMacAddress] is rejected with it; nothing is added. *)
Lemma unreadable_document_throws :
  (macdb.readDatabase "Unexpected token" broken_document).2 =
    macdb.Throw "Unexpected token" ∧
  (macdb.addMacAddress sample_sha256 "Unexpected token" "aa:bb:cc:dd:ee:ff" ∅
     broken_document).2 = macdb.Throw "Unexpected token" ∧
  macdb.dbFile
    (macdb.addMacAddress sample_sha256 "Unexpected token" "aa:bb:cc:dd:ee:ff" ∅
       broken_document).1 = Corrupt.
Proof. repeat split; vm_compute; reflexivity. Qed.

(** C8, as the code has it.  [MACDatabase]: when the snapshot is missing
    or is not valid JSON, [readDatabase] raises nothing and returns the
    freshly initialized structure, with no entry and zeroed statistics;
    the calling operation goes on from it: an access check whose
    candidates name no member of [Object.prototype] is answered with a
    refusal, an add under such a name writes a snapshot with the one
    new entry.
    [MacDatabase]: [readDatabase] releases the lock and throws the error
    of the read on to the caller; [addMacAddress] is rejected with it. *)
Theorem unreadable_snapshot
    (randomUUID : nat → string) (overwrite : bool)
    (sha256 : string → string) (readError : string) :
  (∀ w, readJson (mac_database.macFile w) = None →
     mac_database.readDatabase w =
       mac_database.mkDatabase "1.0" (mac_database.clock w) ∅
         (mac_database.mkStatistics 0 (Some 0) (mac_database.clock w)) ∧
     (∀ candidates dev,
        Forall (λ x, plain_key (js.toLowerCase x)) candidates →
        (mac_database.checkAccess randomUUID overwrite candidates dev w).2 =
        mac_database.mkResult false
          "Device not authorized. MAC address not in whitelist." None) ∧
     (∀ mac desc at_,
        plain_key (js.toLowerCase mac) →
        let res :=
          mac_database.addMACAddress randomUUID overwrite mac desc at_ w in
        let e :=
          mac_database.mkEntry desc (Some (default "trial" at_))
            (mac_database.clock w) None None (Some 0) None
            (Some (randomUUID (mac_database.uuids w))) in
        (if moves overwrite w then mac_database.macFile res.1
         else mac_database.tmpFile res.1) =
          Content (mac_database.stamp (mac_database.clock w)
                     (mac_database.set_macAddresses {[js.toLowerCase mac := e]}
                        (mac_database.emptyDatabase (mac_database.clock w)))) ∧
        mac_database.success res.2 = moves overwrite w)) ∧
  (∀ w, macdb.lockFile w = false → readJson (macdb.dbFile w) = None →
     macdb.readDatabase readError w =
       (macdb.emit [FsLockTry true; FsUnlock] w, macdb.Throw readError) ∧
     (∀ mac meta, macdb.isValidMac (macdb.normalizeMac mac) = true →
        macdb.addMacAddress sha256 readError mac meta w =
        (macdb.emit [FsLockTry true; FsUnlock] w, macdb.Throw readError))).
Proof.
  split.
  - intros w H. split; [apply readDatabase_fallback; exact H |].
    apply unreadable_operations. exact H.
  - intros w Hl H. split.
    + rewrite (readDatabase_free readError w Hl), H. reflexivity.
    + intros mac meta Hv. apply addMacAddress_unreadable; assumption.
Qed.

Lemma unreadable_snapshot_witness :
  mac_database.readDatabase blank_world = mac_database.emptyDatabase 1000 ∧
  (mac_database.checkAccess sample_uuid true ["AA:BB:CC:DD:EE:FF"]
     sample_device blank_world).2 =
  mac_database.mkResult false
    "Device not authorized. MAC address not in whitelist." None ∧
  macdb.readDatabase "Unexpected token" broken_document =
    (macdb.emit [FsLockTry true; FsUnlock] broken_document,
     macdb.Throw "Unexpected token").
Proof.
  pose proof (unreadable_snapshot sample_uuid true sample_sha256
                "Unexpected token") as (A & B).
  destruct (A blank_world eq_refl) as (A1 & A2 & _).
  split; [exact A1 |]. split.
  - apply A2. repeat constructor.
  - apply (B broken_document); reflexivity.
Defined.

(** C9, where the code departs from it.  [writeDatabase] calls [move]
    without the option [overwrite], and the [move] of fs-extra then
    refuses a destination that exists: the write of the first run
    returns [false], [maintenance] does not look at it, the snapshot
    stays as it was, and the second run makes the same two fixes
    again. *)
Theorem maintenance_repeats_when_move_refused :
  mac_database.data
    (mac_database.maintenance sample_uuid false "Unexpected token"
       needs_fixing).2 = Some (mac_database.mkMaintenanceData 1 2) ∧
  mac_database.macFile
    (mac_database.maintenance sample_uuid false "Unexpected token"
       needs_fixing).1 = mac_database.macFile needs_fixing ∧
  (mac_database.maintenance sample_uuid false "Unexpected token"
     (mac_database.set_clock 3000
        (mac_database.maintenance sample_uuid false "Unexpected token"
           needs_fixing).1)).2 =
  mac_database.mkResult true "Maintenance completed successfully"
    (Some (mac_database.mkMaintenanceData 1 2)).
Proof. repeat split; vm_compute; reflexivity. Qed.

(** C10. Every write of the snapshot derives the stored count from the
    entry map and refreshes the time stamp just before it writes.  In
    [MACDatabase], after an add, a bulk add, an update, a removal or an
    access check the committed snapshot is either the one that was there
    before the call or one whose [totalDevices] is the number of its
    entries and whose [lastUpdated] is the time of the call; the same
    holds of [maintenance] and of [initializeDatabase].  In
    [MacDatabase], [writeDatabase] leaves the document as it was (when
    the lock cannot be taken) or replaces it by one whose [totalEntries]
    is the number of its entries and whose [lastModified] is the time of
    the write. *)
Theorem counters_rederived (randomUUID : nat → string) (overwrite : bool) :
  (∀ d w,
     let res := mac_database.writeDatabase overwrite d w in
     ∃ d', (if moves overwrite w then mac_database.macFile res.1
            else mac_database.tmpFile res.1) = Content d' ∧
           mac_database.macAddresses d' = mac_database.macAddresses d ∧
           mac_database.totalDevices (mac_database.statistics d') =
             size (mac_database.macAddresses d') ∧
           mac_database.lastUpdated (mac_database.statistics d') =
             mac_database.clock w) ∧
  (∀ w mac desc at_,
     commit_ok w
       (mac_database.addMACAddress randomUUID overwrite mac desc at_ w).1) ∧
  (∀ w typeError l,
     commit_ok w
       (mac_database.bulkAddMACs randomUUID overwrite typeError l w).1) ∧
  (∀ w mac newType,
     commit_ok w (mac_database.updateMACAccess overwrite mac newType w).1) ∧
  (∀ w mac, commit_ok w (mac_database.removeMACAddress overwrite mac w).1) ∧
  (∀ w candidates dev,
     commit_ok w
       (mac_database.checkAccess randomUUID overwrite candidates dev w).1) ∧
  (∀ w jsonError,
     commit_ok w (mac_database.maintenance randomUUID overwrite jsonError w).1) ∧
  (∀ w, commit_ok w (mac_database.initializeDatabase w)) ∧
  (∀ d w,
     macdb.dbFile (macdb.writeDatabase d w).1 = macdb.dbFile w ∨
     ∃ d', macdb.dbFile (macdb.writeDatabase d w).1 = Content d' ∧
           macdb.totalEntries (macdb.metadata d') =
             size (macdb.macAddresses d') ∧
           macdb.lastModified (macdb.metadata d') = Some (macdb.clock w) ∧
           macdb.macAddresses d' = macdb.macAddresses d).
Proof.
  split; [| repeat split].
  - intros d w res. subst res.
    pose proof (writeDatabase_spec overwrite d w) as (_ & Hm & Ht & _).
    exists (mac_database.stamp (mac_database.clock w) d).
    split; [destruct (moves overwrite w); assumption |].
    simpl. auto.
  - intros. apply addMACAddress_commit_ok.
  - intros. apply bulkAddMACs_commit_ok.
  - intros. apply updateMACAccess_commit_ok.
  - intros. apply removeMACAddress_commit_ok.
  - intros. apply checkAccess_commit_ok.
  - intros. apply maintenance_commit_ok.
  - intros. apply initializeDatabase_commit_ok.
  - intros. apply writeDatabase_counts.
Qed.

(** * Further properties of [MACDatabase] *)

Section mac_database_more_facts.

Import mac_database mac_database_queries.

Variable randomUUID : nat -> string.
Variable overwrite : bool.
Variable jsonError : string.

#[local] Instance newer_total : Total newer.
Proof. intros a b. unfold newer. lia. Qed.

#[local] Instance newer_trans : Transitive newer.
Proof. intros a b c. unfold newer. lia. Qed.

(** ** Backups *)

Lemma writeDatabase_backups (d : Database) (w : World) :
  backups (writeDatabase overwrite d w).1 = backups (backupDatabase w).
Proof.
  unfold writeDatabase. cbn zeta.
  destruct (overwrite || negb _)%bool; reflexivity.
Qed.

(** The directory as [backupDatabase] sorts it. *)
Lemma backupDatabase_unfold (w : World) :
  let t := clock w in
  let dir :=
    if pathExists (macFile w)
    then (t, macFile w) :: filter (λ p, p.1 ≠ t) (backups w)
    else backups w in
  backups (backupDatabase w) =
    if Nat.ltb 10 (length (merge_sort newer dir))
    then take 10 (merge_sort newer dir) else dir.
Proof. reflexivity. Qed.

Lemma backupDatabase_retention (w : World) :
  let w' := backupDatabase w in
  (length (backups w') ≤ 10)%nat ∧
  (∀ p, p ∈ backups w' →
     p ∈ backups w ∨
     (pathExists (macFile w) = true ∧ p = (clock w, macFile w))) ∧
  (∀ p q, p ∈ backups w' → q ∈ backups w → q ∉ backups w' →
     (pathExists (macFile w) = true → q.1 ≠ clock w) → (q.1 ≤ p.1)%Z) ∧
  (pathExists (macFile w) = true →
   (∀ q, q ∈ backups w → (q.1 ≤ clock w)%Z) →
   (clock w, macFile w) ∈ backups w').
Proof.
  intros w'. subst w'. rewrite backupDatabase_unfold. cbn zeta.
  set (t := clock w).
  set (dir := if pathExists (macFile w)
              then (t, macFile w) :: filter (λ p, p.1 ≠ t) (backups w)
              else backups w).
  pose proof (merge_sort_Permutation newer dir) as Hperm.
  pose proof (StronglySorted_merge_sort newer dir) as Hsorted.
  set (sorted := merge_sort newer dir) in *.
  assert (Hdir : ∀ p, p ∈ dir →
            p ∈ backups w ∨ (pathExists (macFile w) = true ∧ p = (t, macFile w))).
  { intros p Hp. subst dir. destruct (pathExists (macFile w)); [| auto].
    apply elem_of_cons in Hp as [-> | Hp]; [auto |].
    apply list_elem_of_filter in Hp as [_ Hp]. auto. }
  assert (Hin : ∀ q, q ∈ backups w →
            (pathExists (macFile w) = true → q.1 ≠ t) → q ∈ dir).
  { intros q Hq Hne. subst dir. destruct (pathExists (macFile w)); [| exact Hq].
    apply elem_of_cons. right. apply list_elem_of_filter. auto. }
  destruct (Nat.ltb_spec 10 (length sorted)) as [Hlong | Hshort].
  - repeat split.
    + rewrite length_take. lia.
    + intros p Hp. apply Hdir. rewrite <- Hperm.
      apply (subseteq_take 10 sorted). exact Hp.
    + intros p q Hp Hq Hnot Hne.
      assert (Hqs : q ∈ sorted) by (rewrite Hperm; auto).
      rewrite <- (take_drop 10 sorted) in Hqs, Hsorted.
      apply elem_of_app in Hqs as [Hqs | Hqs]; [contradiction |].
      exact (StronglySorted_app_1_elem_of newer _ _ p q Hsorted Hp Hqs).
    + intros Hex Hpast.
      assert (Hts : (t, macFile w) ∈ sorted).
      { rewrite Hperm. subst dir. rewrite Hex. left. }
      destruct sorted as [| h tl] eqn:Es; [simpl in Hlong; lia |].
      assert (Hh : h ∈ dir) by (rewrite <- Hperm; left).
      change (take 10 (h :: tl)) with (h :: take 9 tl).
      apply elem_of_cons in Hts as [<- | Hts]; [left |].
      apply StronglySorted_inv in Hsorted as [_ Hall].
      rewrite Forall_forall in Hall. specialize (Hall _ Hts).
      unfold newer in Hall. simpl in Hall.
      subst dir. rewrite Hex in Hh.
      apply elem_of_cons in Hh as [-> | Hh]; [left |].
      apply list_elem_of_filter in Hh as [Hne Hh].
      specialize (Hpast h Hh). lia.
  - repeat split.
    + rewrite <- Hperm. exact Hshort.
    + exact Hdir.
    + intros p q _ Hq Hnot Hne. exfalso. apply Hnot. apply Hin; assumption.
    + intros Hex _. subst dir. rewrite Hex. left.
Qed.

(** X1. [backupDatabase], which every [writeDatabase] runs first and
    whose result it leaves alone, keeps at most ten backups: the copy of
    the snapshot made at the time of the call (when there is a snapshot)
    and backups that were there before.  A backup that was dropped is not
    later than any backup that was kept (a backup of the very time of the
    call is replaced by the copy).  When no backup is dated after the
    time of the call, the copy of the snapshot is among the backups
    kept. *)
Theorem backups_retained (w : World) :
  let w' := backupDatabase w in
  (∀ d, backups (writeDatabase overwrite d w).1 = backups w') ∧
  (length (backups w') ≤ 10)%nat ∧
  (∀ p, p ∈ backups w' →
     p ∈ backups w ∨
     (pathExists (macFile w) = true ∧ p = (clock w, macFile w))) ∧
  (∀ p q, p ∈ backups w' → q ∈ backups w → q ∉ backups w' →
     (pathExists (macFile w) = true → q.1 ≠ clock w) → (q.1 ≤ p.1)%Z) ∧
  (pathExists (macFile w) = true →
   (∀ q, q ∈ backups w → (q.1 ≤ clock w)%Z) →
   (clock w, macFile w) ∈ backups w').
Proof.
  intros w'. split; [intros d; apply writeDatabase_backups |].
  apply backupDatabase_retention.
Qed.

(** ** Counting *)

Lemma count_le {A} (f : A → bool) (l : list A) :
  (length (List.filter f l) ≤ length l)%nat.
Proof. induction l as [| x l IH]; simpl; [lia |]. destruct (f x); simpl; lia. Qed.

Lemma count_impl {A} (f g : A → bool) (l : list A) :
  (∀ x, f x = true → g x = true) →
  (length (List.filter f l) ≤ length (List.filter g l))%nat.
Proof.
  intros H. induction l as [| x l IH]; simpl; [lia |].
  destruct (f x) eqn:Ef.
  - rewrite (H x Ef). simpl. lia.
  - destruct (g x); simpl; lia.
Qed.

Lemma count_disjoint2 {A} (f g : A → bool) (l : list A) :
  (∀ x, f x = true → g x = false) →
  (length (List.filter f l) + length (List.filter g l) ≤ length l)%nat.
Proof.
  intros H. induction l as [| x l IH]; simpl; [lia |].
  destruct (f x) eqn:Ef.
  - rewrite (H x Ef). simpl. lia.
  - destruct (g x); simpl; lia.
Qed.

Lemma count_disjoint3 {A} (f g h : A → bool) (l : list A) :
  (∀ x, f x = true → g x = false ∧ h x = false) →
  (∀ x, g x = true → h x = false) →
  (length (List.filter f l) + length (List.filter g l) +
   length (List.filter h l) ≤ length l)%nat ∧
  (length (List.filter f l) + length (List.filter g l) +
   length (List.filter h l) = length l ↔
   Forall (λ x, f x || g x || h x = true) l).
Proof.
  intros Hf Hg. induction l as [| x l [IHle IHeq]]; simpl.
  - split; [lia |]. split; [constructor | reflexivity].
  - rewrite Forall_cons.
    destruct (f x) eqn:Ef; [destruct (Hf x Ef) as [-> ->] |].
    + simpl. split; [lia |]. rewrite <- IHeq. split; [intros; split; [auto | lia] | lia].
    + destruct (g x) eqn:Eg; [rewrite (Hg x Eg) |]; simpl.
      * split; [lia |]. rewrite <- IHeq. split; [intros; split; [auto | lia] | lia].
      * destruct (h x); simpl.
        -- split; [lia |]. rewrite <- IHeq.
           split; [intros; split; [auto | lia] | lia].
        -- split; [lia |]. split; [lia | intros [? _]; discriminate].
Qed.

(** ** The list of the whitelist *)

(** X2. [listMACAddresses] always succeeds and changes nothing.  It lists
    exactly the entries of the snapshot it read (the empty one when the
    file cannot be read), each with its key; [total] is their number;
    [activeLast24h <= activeLast7d], and [activeLast7d + neverUsed <=
    total]; the three counts by access type add up to at most [total],
    and to [total] exactly when the access type of every entry (with
    [trial] for a missing one) is one of [trial], [unlimited], [admin];
    [totalAccesses] is the stored total, not a sum over the entries. *)
Theorem listMACAddresses_statistics (w : World) :
  let m := macAddresses (readDatabase w) in
  ∃ ld,
    listMACAddresses w =
      mkResult true "MAC addresses retrieved successfully" (Some ld) ∧
    let st := list_statistics ld in
    (∀ x, x ∈ listed ld ↔ ∃ k e, m !! k = Some e ∧ x = listed_of (k, e)) ∧
    length (listed ld) = size m ∧
    ls_total st = size m ∧
    (activeLast24h st ≤ activeLast7d st)%nat ∧
    (activeLast7d st + neverUsed st ≤ ls_total st)%nat ∧
    (trial (byAccessType st) + unlimited (byAccessType st) +
       admin (byAccessType st) ≤ ls_total st)%nat ∧
    (trial (byAccessType st) + unlimited (byAccessType st) +
       admin (byAccessType st) = ls_total st ↔
     ∀ k e, m !! k = Some e →
       js.or_default (accessType e) "trial" ∈ ["trial"; "unlimited"; "admin"]) ∧
    ls_totalAccesses st = js.or_zero (totalAccesses (statistics (readDatabase w))).
Proof.
  intros m. eexists. split; [reflexivity |]. cbn zeta.
  cbn [list_statistics listed ls_total activeLast24h activeLast7d neverUsed
       byAccessType trial unlimited admin ls_totalAccesses].
  fold m. set (macList := map listed_of (map_to_list m)).
  assert (Hlen : length macList = size m).
  { subst macList. rewrite length_map. apply length_map_to_list. }
  assert (Hmem : ∀ x, x ∈ macList ↔ ∃ k e, m !! k = Some e ∧ x = listed_of (k, e)).
  { intros x. subst macList. rewrite list_elem_of_fmap. split.
    - intros ([k e] & -> & Hin). exists k, e.
      split; [apply elem_of_map_to_list; exact Hin | reflexivity].
    - intros (k & e & Hk & ->). exists (k, e).
      split; [reflexivity | apply elem_of_map_to_list; exact Hk]. }
  destruct (count_disjoint3 is_trial is_unlimited is_admin macList)
    as [Hle Heq].
  { intros x. unfold is_trial, is_unlimited, is_admin.
    destruct (l_accessType x) as [| c s]; [simpl; auto |].
    change (js.or_default (Some (String c s)) "trial") with (String c s).
    intros H. apply String.eqb_eq in H. rewrite H. auto. }
  { intros x. unfold is_unlimited, is_admin.
    destruct (String.eqb_spec (l_accessType x) "unlimited") as [-> | ?];
      [reflexivity | discriminate]. }
  split_and!.
  - exact Hmem.
  - exact Hlen.
  - exact Hlen.
  - apply count_impl. intros x. unfold seen_within.
    destruct (l_lastSeen x); [| discriminate].
    rewrite !Z.leb_le. unfold day7d, day24h. lia.
  - apply count_disjoint2. intros x.
    unfold seen_within, never_seen. destruct (l_lastSeen x); [reflexivity | discriminate].
  - exact Hle.
  - rewrite Heq. rewrite Forall_forall. split.
    + intros Hall k e Hk.
      specialize (Hall (listed_of (k, e))).
      assert (Hx : listed_of (k, e) ∈ macList) by (apply Hmem; eauto).
      specialize (Hall Hx).
      unfold is_trial, is_unlimited, is_admin in Hall. simpl in Hall.
      remember (js.or_default (accessType e) "trial") as a eqn:Ea.
      destruct (String.eqb_spec a "unlimited") as [-> | ?]; [set_solver |].
      destruct (String.eqb_spec a "admin") as [-> | ?]; [set_solver |].
      rewrite !orb_false_r in Hall.
      destruct a as [| c r].
      * destruct (accessType e) as [[| ? ?] |]; discriminate.
      * change (js.or_default (Some (String c r)) "trial") with (String c r)
          in Hall.
        apply String.eqb_eq in Hall. rewrite Hall. set_solver.
    + intros Hall x Hx.
      apply Hmem in Hx as (k & e & Hk & ->).
      specialize (Hall k e Hk).
      unfold is_trial, is_unlimited, is_admin. simpl.
      remember (js.or_default (accessType e) "trial") as a eqn:Ea.
      apply elem_of_cons in Hall as [-> | Hall]; [reflexivity |].
      apply elem_of_cons in Hall as [-> | Hall]; [reflexivity |].
      apply elem_of_cons in Hall as [-> | Hall]; [reflexivity |].
      inversion Hall.
  - reflexivity.
Qed.


(** ** Reading the access log *)

#[local] Instance not_earlier_trans : Transitive not_earlier.
Proof. intros a b c. unfold not_earlier. lia. Qed.

Lemma insert_latest_Permutation (x : LogEntry) (l : list LogEntry) :
  insert_latest x l ≡ₚ x :: l.
Proof.
  induction l as [| y l IH]; simpl; [reflexivity |].
  destruct (log_timestamp x <? log_timestamp y)%Z; [| reflexivity].
  rewrite IH. apply Permutation_swap.
Qed.

Lemma sort_latest_first_Permutation (l : list LogEntry) :
  sort_latest_first l ≡ₚ l.
Proof.
  induction l as [| x l IH]; simpl; [reflexivity |].
  rewrite insert_latest_Permutation, IH. reflexivity.
Qed.

Lemma insert_latest_Sorted (x : LogEntry) (l : list LogEntry) :
  Sorted not_earlier l → Sorted not_earlier (insert_latest x l).
Proof.
  induction l as [| y l IH]; simpl; intros Hs.
  - repeat constructor.
  - destruct (Z.ltb_spec (log_timestamp x) (log_timestamp y)) as [Hlt | Hge].
    + apply Sorted_inv in Hs as [Hs Hhd]. constructor; [apply IH; exact Hs |].
      destruct l as [| z l]; simpl.
      * constructor. unfold not_earlier. lia.
      * destruct (Z.ltb_spec (log_timestamp x) (log_timestamp z)).
        -- constructor. apply HdRel_inv in Hhd. exact Hhd.
        -- constructor. unfold not_earlier. lia.
    + constructor; [exact Hs |]. constructor. unfold not_earlier. lia.
Qed.

Lemma sort_latest_first_Sorted (l : list LogEntry) :
  StronglySorted not_earlier (sort_latest_first l).
Proof.
  apply Sorted_StronglySorted; [apply _ |].
  induction l as [| x l IH]; simpl; [constructor |].
  apply insert_latest_Sorted, IH.
Qed.

(** The sort is stable: the events of one timestamp keep their order. *)
Lemma insert_latest_stable (t : Z) (x : LogEntry) (l : list LogEntry) :
  List.filter (λ e, (log_timestamp e =? t)%Z) (insert_latest x l) =
  List.filter (λ e, (log_timestamp e =? t)%Z) (x :: l).
Proof.
  induction l as [| y l IH]; [reflexivity |].
  cbn [insert_latest].
  destruct (Z.ltb_spec (log_timestamp x) (log_timestamp y)) as [Hlt | Hge];
    [| reflexivity].
  cbn [List.filter] in *. rewrite IH.
  destruct (Z.eqb_spec (log_timestamp x) t) as [Hx | Hx];
    destruct (Z.eqb_spec (log_timestamp y) t) as [Hy | Hy];
    try reflexivity.
  lia.
Qed.

Lemma sort_latest_first_stable (t : Z) (l : list LogEntry) :
  List.filter (λ e, (log_timestamp e =? t)%Z) (sort_latest_first l) =
  List.filter (λ e, (log_timestamp e =? t)%Z) l.
Proof.
  induction l as [| x l IH]; [reflexivity |].
  cbn [sort_latest_first foldr]. fold (sort_latest_first l).
  rewrite insert_latest_stable. cbn [List.filter]. rewrite IH. reflexivity.
Qed.

Lemma getAccessLogs_sorted (limit : Z) (w : World) :
  (0 ≤ limit)%Z → logFile w ≠ Corrupt →
  ∃ ls rest,
    getAccessLogs jsonError (Some limit) w =
      mkResult true "Access logs retrieved successfully"
        (Some (mkLogsData ls (length (events_of w)))) ∧
    length ls = Nat.min (Z.to_nat limit) (length (events_of w)) ∧
    ls ++ rest ≡ₚ events_of w ∧
    StronglySorted not_earlier (ls ++ rest) ∧
    ∀ t, List.filter (λ e, (log_timestamp e =? t)%Z) (ls ++ rest) =
         List.filter (λ e, (log_timestamp e =? t)%Z) (events_of w).
Proof.
  intros Hlim Hlog.
  set (sorted := sort_latest_first (events_of w)).
  exists (take (Z.to_nat limit) sorted), (drop (Z.to_nat limit) sorted).
  rewrite take_drop.
  assert (Hlen : length sorted = length (events_of w)).
  { subst sorted. rewrite sort_latest_first_Permutation. reflexivity. }
  split_and!.
  - rewrite <- Hlen. subst sorted. clear Hlen.
    unfold getAccessLogs, events_of, slice_first.
    change (default 100%Z (Some limit)) with limit.
    destruct (Z.ltb_spec limit 0) as [? | _]; [lia |].
    destruct (logFile w) as [| | ld]; [| contradiction |]; reflexivity.
  - rewrite length_take, Hlen. reflexivity.
  - apply sort_latest_first_Permutation.
  - apply sort_latest_first_Sorted.
  - intros t. apply sort_latest_first_stable.
Qed.

Lemma getAccessLogs_corrupt (limit : option Z) (w : World) :
  logFile w = Corrupt →
  getAccessLogs jsonError limit w =
  mkResult false ("Error retrieving logs: " +:+ jsonError) None.
Proof. intros H. unfold getAccessLogs. rewrite H. reflexivity. Qed.

(** X3. [getAccessLogs(limit)] with a log that parses (or no log file)
    and [limit >= 0] succeeds; [totalEvents] is the number of events in
    the log; [logs] holds [min limit totalEvents] events, the latest
    first: the events of the log are [logs] followed by the ones left
    out, sorted by time, the latest first, and events of one and the same
    time come in the order of the log.  An omitted [limit] is 100.  With
    a log file that does not parse the answer is a failure carrying the
    parser's message and no data. *)
Theorem getAccessLogs_latest_first (w : World) :
  (logFile w = Corrupt →
   ∀ limit, getAccessLogs jsonError limit w =
            mkResult false ("Error retrieving logs: " +:+ jsonError) None) ∧
  getAccessLogs jsonError None w = getAccessLogs jsonError (Some 100%Z) w ∧
  (logFile w ≠ Corrupt →
   ∀ limit, (0 ≤ limit)%Z →
   ∃ ls rest,
     getAccessLogs jsonError (Some limit) w =
       mkResult true "Access logs retrieved successfully"
         (Some (mkLogsData ls (length (events_of w)))) ∧
     length ls = Nat.min (Z.to_nat limit) (length (events_of w)) ∧
     ls ++ rest ≡ₚ events_of w ∧
     StronglySorted not_earlier (ls ++ rest) ∧
     ∀ t, List.filter (λ e, (log_timestamp e =? t)%Z) (ls ++ rest) =
          List.filter (λ e, (log_timestamp e =? t)%Z) (events_of w)).
Proof.
  split_and!.
  - intros H limit. apply getAccessLogs_corrupt, H.
  - reflexivity.
  - intros H limit Hl. apply getAccessLogs_sorted; assumption.
Qed.

(** ** What each operation commits *)

Lemma set_clock_same (w : World) : set_clock (clock w) w = w.
Proof. destruct w. reflexivity. Qed.

(** A granted check: the world after it is the write of the touched
    snapshot followed by the log of the grant. *)
Lemma checkAccess_granted
    (pre : list string) (m : string) (post : list string) (e : Entry)
    (dev : DeviceInfo) (w : World) :
  Forall (λ x, vacant (macAddresses (readDatabase w)) (js.toLowerCase x)) pre →
  macAddresses (readDatabase w) !! js.toLowerCase m = Some e →
  let k := js.toLowerCase m in
  checkAccess randomUUID overwrite (pre ++ m :: post) dev w =
  (logAccess randomUUID k dev true "Access granted"
     (writeDatabase overwrite
        (granted_snapshot (clock w) dev k e (readDatabase w)) w).1,
   mkResult true "Device authorized"
     (Some (mkAccessData k (description e)
              (js.or_default (accessType e) "trial") (Some (addedAt e))
              (Some (clock w)) (Some (js.or_zero (accessCount e) + 1))))).
Proof.
  intros Hpre Hm k. unfold checkAccess.
  rewrite (checkAccess_for_skip _ _ _ pre (m :: post) dev w Hpre).
  cbn [checkAccess_for]. rewrite Hm. reflexivity.
Qed.

(** A check granted on the name of a member of [Object.prototype]: the
    world after it is the write of the snapshot with the access total
    raised, followed by the log of the grant. *)
Lemma checkAccess_granted_member
    (pre : list string) (m : string) (post : list string)
    (dev : DeviceInfo) (w : World) :
  Forall (λ x, vacant (macAddresses (readDatabase w)) (js.toLowerCase x)) pre →
  macAddresses (readDatabase w) !! js.toLowerCase m = None →
  js.inherited (js.toLowerCase m) = true →
  let k := js.toLowerCase m in
  checkAccess randomUUID overwrite (pre ++ m :: post) dev w =
  (logAccess randomUUID k dev true "Access granted"
     (writeDatabase overwrite
        (set_statistics
           (mkStatistics (totalDevices (statistics (readDatabase w)))
              (Some (js.or_zero (totalAccesses (statistics (readDatabase w)))
                     + 1))
              (lastUpdated (statistics (readDatabase w))))
           (readDatabase w)) w).1,
   mkResult true "Device authorized"
     (Some (mkAccessData k None "trial" None (Some (clock w)) (Some 1)))).
Proof.
  intros Hpre Hm Hi k. unfold checkAccess.
  rewrite (checkAccess_for_skip _ _ _ pre (m :: post) dev w Hpre).
  cbn [checkAccess_for]. rewrite Hm, Hi. reflexivity.
Qed.

(** A refused check: one event in the log, nothing else. *)
Lemma checkAccess_refused (candidates : list string) (dev : DeviceInfo)
    (w : World) :
  Forall (λ x, vacant (macAddresses (readDatabase w)) (js.toLowerCase x))
    candidates →
  checkAccess randomUUID overwrite candidates dev w =
  (logAccess randomUUID (js.or_default (head candidates) "unknown") dev false
     "MAC address not whitelisted" w,
   mkResult false "Device not authorized. MAC address not in whitelist." None).
Proof.
  intros H. unfold checkAccess.
  pose proof (checkAccess_for_skip randomUUID overwrite (readDatabase w)
                candidates [] dev w H) as E.
  rewrite app_nil_r in E. rewrite E. reflexivity.
Qed.

(** Every list of candidates is of one of three kinds. *)
Lemma candidates_split (m : gmap string Entry) (l : list string) :
  Forall (λ x, vacant m (js.toLowerCase x)) l ∨
  (∃ pre x post e, l = pre ++ x :: post ∧
     Forall (λ x, vacant m (js.toLowerCase x)) pre ∧
     m !! js.toLowerCase x = Some e) ∨
  (∃ pre x post, l = pre ++ x :: post ∧
     Forall (λ x, vacant m (js.toLowerCase x)) pre ∧
     m !! js.toLowerCase x = None ∧ js.inherited (js.toLowerCase x) = true).
Proof.
  induction l as [| x l IH]; [left; constructor |].
  destruct (m !! js.toLowerCase x) as [e |] eqn:E.
  { right. left. exists [], x, l, e. repeat split; [constructor | exact E]. }
  destruct (js.inherited (js.toLowerCase x)) eqn:Hi.
  { right. right. exists [], x, l. repeat split; [constructor | exact E | exact Hi]. }
  assert (Hx : vacant m (js.toLowerCase x)) by (split; assumption).
  destruct IH as [IH | [(pre & y & post & e & -> & Hpre & Hy)
                        | (pre & y & post & -> & Hpre & Hy & Hyi)]].
  - left. constructor; assumption.
  - right. left. exists (x :: pre), y, post, e.
    repeat split; [constructor; assumption | exact Hy].
  - right. right. exists (x :: pre), y, post.
    repeat split; [constructor; assumption | exact Hy | exact Hyi].
Qed.



Lemma removeMACAddress_absent (mac : string) (w : World) :
  vacant (macAddresses (readDatabase w)) (js.toLowerCase mac) →
  removeMACAddress overwrite mac w =
  (w, mkResult false "MAC address not found in whitelist" None).
Proof.
  intros [H Hi]. unfold removeMACAddress. cbn zeta. rewrite H, Hi.
  reflexivity.
Qed.

Lemma removeMACAddress_stored (mac : string) (e : Entry) (w : World) :
  macAddresses (readDatabase w) !! js.toLowerCase mac = Some e →
  let d' :=
    set_macAddresses (delete (js.toLowerCase mac) (macAddresses (readDatabase w)))
      (readDatabase w) in
  removeMACAddress overwrite mac w =
  ((writeDatabase overwrite d' w).1,
   if moves overwrite w
   then mkResult true "MAC address removed successfully" None
   else mkResult false "Failed to save to database" None).
Proof.
  intros H d'. unfold removeMACAddress. cbn zeta. rewrite H. fold d'.
  pose proof (writeDatabase_spec overwrite d' w) as (Hr & _).
  destruct (writeDatabase overwrite d' w) as [w1 saved].
  simpl in Hr. subst saved.
  destruct (moves overwrite w); reflexivity.
Qed.



(** ** A device's life in the whitelist *)


(** ** The access log under the operations *)

Lemma checkAccess_logs (candidates : list string) (dev : DeviceInfo)
    (w : World) :
  logFile w ≠ Corrupt →
  let res := checkAccess randomUUID overwrite candidates dev w in
  ∃ ev,
    events_of res.1 = js.slice_last 1000 (events_of w ++ [ev]) ∧
    log_timestamp ev = clock w ∧
    log_success ev = success res.2 ∧
    log_macAddress ev =
      match data res.2 with
      | Some a => r_macAddress a
      | None => js.or_default (head candidates) "unknown"
      end ∧
    log_message ev =
      (if success res.2 then "Access granted"
       else "MAC address not whitelisted") ∧
    log_id ev = randomUUID (uuids w).
Proof.
  intros Hlog res. subst res.
  destruct (candidates_split (macAddresses (readDatabase w)) candidates)
    as [Hnone | [(pre & x & post & e & -> & Hpre & Hx)
                | (pre & x & post & -> & Hpre & Hx & Hxi)]].
  - rewrite (checkAccess_refused candidates dev w Hnone). cbn [fst snd].
    pose proof (logAccess_events randomUUID
                  (mkLogCall (clock w)
                     (js.or_default (head candidates) "unknown") dev false
                     "MAC address not whitelisted") w Hlog) as (_ & Hev & _).
    cbn [c_time c_mac c_dev c_ok c_msg] in Hev.
    rewrite set_clock_same in Hev.
    eexists. split; [exact Hev |]. repeat split.
  - rewrite (checkAccess_granted pre x post e dev w Hpre Hx). cbn [fst snd].
    match goal with
    | |- context [writeDatabase overwrite ?d w] =>
        pose proof (writeDatabase_spec overwrite d w)
          as (_ & _ & _ & Hlg & Hck & Huu & _);
        set (w1 := (writeDatabase overwrite d w).1) in *
    end.
    cbn zeta in Hlg, Hck, Huu.
    assert (Hlog1 : logFile w1 ≠ Corrupt) by (rewrite Hlg; exact Hlog).
    pose proof (logAccess_events randomUUID
                  (mkLogCall (clock w1) (js.toLowerCase x) dev true
                     "Access granted") w1 Hlog1) as (_ & Hev & _).
    cbn [c_time c_mac c_dev c_ok c_msg] in Hev.
    rewrite set_clock_same in Hev.
    assert (Hevs : events_of w1 = events_of w)
      by (unfold events_of; rewrite Hlg; reflexivity).
    rewrite Hevs, Huu in Hev.
    eexists. split; [exact Hev |]. repeat split. exact Hck.
  - rewrite (checkAccess_granted_member pre x post dev w Hpre Hx Hxi).
    cbn [fst snd].
    match goal with
    | |- context [writeDatabase overwrite ?d w] =>
        pose proof (writeDatabase_spec overwrite d w)
          as (_ & _ & _ & Hlg & Hck & Huu & _);
        set (w1 := (writeDatabase overwrite d w).1) in *
    end.
    cbn zeta in Hlg, Hck, Huu.
    assert (Hlog1 : logFile w1 ≠ Corrupt) by (rewrite Hlg; exact Hlog).
    pose proof (logAccess_events randomUUID
                  (mkLogCall (clock w1) (js.toLowerCase x) dev true
                     "Access granted") w1 Hlog1) as (_ & Hev & _).
    cbn [c_time c_mac c_dev c_ok c_msg] in Hev.
    rewrite set_clock_same in Hev.
    assert (Hevs : events_of w1 = events_of w)
      by (unfold events_of; rewrite Hlg; reflexivity).
    rewrite Hevs, Huu in Hev.
    eexists. split; [exact Hev |]. repeat split. exact Hck.
Qed.

(** With a log that does not parse the event is dropped. *)
Lemma logAccess_corrupt mac dev ok msg (w : World) :
  logFile w = Corrupt → logAccess randomUUID mac dev ok msg w = w.
Proof. intros H. unfold logAccess. rewrite H. reflexivity. Qed.

Lemma mutations_keep_log (w : World) :
  (∀ mac desc ty,
     logFile (addMACAddress randomUUID overwrite mac desc ty w).1 = logFile w) ∧
  (∀ mac ty, logFile (updateMACAccess overwrite mac ty w).1 = logFile w) ∧
  (∀ mac, logFile (removeMACAddress overwrite mac w).1 = logFile w) ∧
  (∀ typeError l,
     logFile (bulkAddMACs randomUUID overwrite typeError l w).1 = logFile w).
Proof.
  split_and!.
  - intros mac desc ty. unfold addMACAddress. cbn zeta.
    destruct (macAddresses (readDatabase w) !! js.toLowerCase mac);
      [reflexivity |].
    destruct (js.inherited (js.toLowerCase mac)); [reflexivity |].
    match goal with
    | |- context [writeDatabase overwrite ?d ?w0] =>
        pose proof (writeDatabase_spec overwrite d w0) as (_ & _ & _ & Hlg & _);
        destruct (writeDatabase overwrite d w0) as [w1 saved]
    end.
    destruct saved; exact Hlg.
  - intros mac ty. unfold updateMACAccess. cbn zeta.
    destruct (macAddresses (readDatabase w) !! js.toLowerCase mac);
      [| destruct (js.inherited (js.toLowerCase mac)); [| reflexivity]].
    all: match goal with
    | |- context [writeDatabase overwrite ?d ?w0] =>
        pose proof (writeDatabase_spec overwrite d w0) as (_ & _ & _ & Hlg & _);
        destruct (writeDatabase overwrite d w0) as [w1 saved]
    end.
    all: destruct saved; exact Hlg.
  - intros mac. unfold removeMACAddress. cbn zeta.
    destruct (macAddresses (readDatabase w) !! js.toLowerCase mac);
      [| destruct (js.inherited (js.toLowerCase mac)); [| reflexivity]].
    all: match goal with
    | |- context [writeDatabase overwrite ?d ?w0] =>
        pose proof (writeDatabase_spec overwrite d w0) as (_ & _ & _ & Hlg & _);
        destruct (writeDatabase overwrite d w0) as [w1 saved]
    end.
    all: destruct saved; exact Hlg.
  - intros typeError l. unfold bulkAddMACs. cbn zeta.
    destruct (bulkAdd_for _ _ _ _) as [st | st]; [| reflexivity].
    match goal with
    | |- context [writeDatabase overwrite ?d ?w0] =>
        pose proof (writeDatabase_spec overwrite d w0) as (_ & _ & _ & Hlg & _);
        destruct (writeDatabase overwrite d w0) as [w1 saved]
    end.
    destruct saved; exact Hlg.
Qed.

(** X7. Who writes the access log.  With a log that parses (or no log
    file yet) every [checkAccess], granted or refused, appends exactly
    one event and keeps the last 1000: the event carries the time of the
    call, the outcome, the key that matched (the first candidate, or
    [unknown] for an empty list, when none did) and a fresh identifier.
    With a log file that does not parse the check is still answered and
    the file is left as it is.  Adding, updating, removing and bulk
    adding never write the access log. *)
Theorem access_log_writers (w : World) :
  (logFile w ≠ Corrupt →
   ∀ candidates dev,
     let res := checkAccess randomUUID overwrite candidates dev w in
     ∃ ev,
       events_of res.1 = js.slice_last 1000 (events_of w ++ [ev]) ∧
       log_timestamp ev = clock w ∧
       log_success ev = success res.2 ∧
       log_macAddress ev =
         match data res.2 with
         | Some a => r_macAddress a
         | None => js.or_default (head candidates) "unknown"
         end ∧
       log_message ev =
         (if success res.2 then "Access granted"
          else "MAC address not whitelisted") ∧
       log_id ev = randomUUID (uuids w)) ∧
  (logFile w = Corrupt →
   ∀ candidates dev,
     logFile (checkAccess randomUUID overwrite candidates dev w).1 = Corrupt) ∧
  (∀ mac desc ty,
     logFile (addMACAddress randomUUID overwrite mac desc ty w).1 = logFile w) ∧
  (∀ mac ty, logFile (updateMACAccess overwrite mac ty w).1 = logFile w) ∧
  (∀ mac, logFile (removeMACAddress overwrite mac w).1 = logFile w) ∧
  (∀ typeError l,
     logFile (bulkAddMACs randomUUID overwrite typeError l w).1 = logFile w).
Proof.
  split; [| split].
  - intros Hlog candidates dev. apply checkAccess_logs, Hlog.
  - intros Hc candidates dev.
    destruct (candidates_split (macAddresses (readDatabase w)) candidates)
      as [Hnone | [(pre & x & post & e & -> & Hpre & Hx)
                  | (pre & x & post & -> & Hpre & Hx & Hxi)]].
    + rewrite (checkAccess_refused candidates dev w Hnone). cbn [fst].
      rewrite logAccess_corrupt; exact Hc.
    + rewrite (checkAccess_granted pre x post e dev w Hpre Hx). cbn [fst].
      match goal with
      | |- context [writeDatabase overwrite ?d w] =>
          pose proof (writeDatabase_spec overwrite d w) as (_ & _ & _ & Hlg & _)
      end.
      cbn zeta in Hlg.
      rewrite logAccess_corrupt; rewrite Hlg; exact Hc.
    + rewrite (checkAccess_granted_member pre x post dev w Hpre Hx Hxi).
      cbn [fst].
      match goal with
      | |- context [writeDatabase overwrite ?d w] =>
          pose proof (writeDatabase_spec overwrite d w) as (_ & _ & _ & Hlg & _)
      end.
      cbn zeta in Hlg.
      rewrite logAccess_corrupt; rewrite Hlg; exact Hc.
  - apply mutations_keep_log.
Qed.

(** X5. [removeMACAddress] of a MAC address under whose lower-cased
    form nothing is found (it is no key and names no member of
    [Object.prototype]) answers with the not-found failure and touches
    nothing: no backup, no write.  Of one that is a key, it hands to the write the
    snapshot without that key and with every other entry as it was; the
    write sets the device count to one less and leaves the access total.
    When the write is committed the answer is a success; when it is not,
    the committed snapshot is the old one and the answer is the failure
    [Failed to save to database]. *)
Theorem removeMACAddress_behaviour (mac : string) (w : World) :
  let k := js.toLowerCase mac in
  let d := readDatabase w in
  (vacant (macAddresses d) k →
   removeMACAddress overwrite mac w =
   (w, mkResult false "MAC address not found in whitelist" None)) ∧
  (∀ e, macAddresses d !! k = Some e →
   let res := removeMACAddress overwrite mac w in
   res.2 =
     (if moves overwrite w
      then mkResult true "MAC address removed successfully" None
      else mkResult false "Failed to save to database" None) ∧
   (moves overwrite w = false → macFile res.1 = macFile w) ∧
   ∃ d', (if moves overwrite w then macFile res.1 else tmpFile res.1)
           = Content d' ∧
         macAddresses d' = delete k (macAddresses d) ∧
         totalDevices (statistics d') = pred (size (macAddresses d)) ∧
         totalAccesses (statistics d') = totalAccesses (statistics d)).
Proof.
  intros k d. split; [apply removeMACAddress_absent |].
  intros e He res. subst res.
  rewrite (removeMACAddress_stored mac e w He). cbn [fst snd].
  match goal with
  | |- context [writeDatabase overwrite ?d0 w] =>
      pose proof (writeDatabase_spec overwrite d0 w) as (_ & Hmac & Htmp & _)
  end.
  cbn zeta in Hmac, Htmp. split_and!.
  - reflexivity.
  - intros Hm. rewrite Hm in Hmac. exact Hmac.
  - eexists. split; [destruct (moves overwrite w); eassumption |].
    cbn [stamp set_statistics set_macAddresses macAddresses statistics
         totalDevices totalAccesses].
    split_and!; [reflexivity | | reflexivity].
    apply map_size_delete_Some. exists e. exact He.
Qed.

(** ** Accounting for the accesses *)

Lemma access_sum_empty : access_sum ∅ = 0.
Proof. unfold access_sum. rewrite map_to_list_empty. reflexivity. Qed.

Lemma access_sum_insert_fresh (m : gmap string Entry) (k : string) (e : Entry) :
  m !! k = None →
  access_sum (<[k := e]> m) = js.or_zero (accessCount e) + access_sum m.
Proof.
  intros H. unfold access_sum. rewrite (map_to_list_insert m k e H). reflexivity.
Qed.

Lemma access_sum_delete (m : gmap string Entry) (k : string) (e : Entry) :
  m !! k = Some e →
  access_sum m = js.or_zero (accessCount e) + access_sum (delete k m).
Proof.
  intros H. unfold access_sum. rewrite <- (map_to_list_delete m k e H).
  reflexivity.
Qed.

Lemma access_sum_insert (m : gmap string Entry) (k : string) (e e' : Entry) :
  m !! k = Some e →
  access_sum (<[k := e']> m) + js.or_zero (accessCount e) =
  access_sum m + js.or_zero (accessCount e').
Proof.
  intros H. rewrite <- (insert_delete_eq m k e').
  rewrite access_sum_insert_fresh by apply lookup_delete_eq.
  rewrite (access_sum_delete m k e H). lia.
Qed.

Lemma readDatabase_accounted (w : World) :
  store_accounted w → accesses_accounted (readDatabase w).
Proof.
  intros H. unfold readDatabase.
  destruct (macFile w) as [| | d] eqn:E; simpl.
  - unfold accesses_accounted. simpl. rewrite access_sum_empty. lia.
  - unfold accesses_accounted. simpl. rewrite access_sum_empty. lia.
  - apply H. exact E.
Qed.

Lemma writeDatabase_accounted (d : Database) (w0 w : World) :
  macFile w0 = macFile w →
  accesses_accounted d → store_accounted w →
  store_accounted (writeDatabase overwrite d w0).1.
Proof.
  intros Hm Hd Hw d' Hd'.
  pose proof (writeDatabase_spec overwrite d w0) as (_ & Hmac & _).
  cbn zeta in Hmac. rewrite Hmac in Hd'.
  destruct (moves overwrite w0).
  - injection Hd' as <-. exact Hd.
  - apply Hw. congruence.
Qed.

Lemma logAccess_accounted mac dev ok msg (w : World) :
  store_accounted w → store_accounted (logAccess randomUUID mac dev ok msg w).
Proof.
  intros H d Hd.
  pose proof (logAccess_frame randomUUID mac dev ok msg w) as (Hm & _).
  cbn zeta in Hm. apply H. congruence.
Qed.

Lemma bulkAdd_for_access_sum (now : Z) (l : list MacEntry) :
  ∀ st st' : BulkState,
  bulkAdd_for randomUUID now l st = BulkDone st' →
  access_sum (bs_map st') = access_sum (bs_map st).
Proof.
  induction l as [| x l IH]; intros st st' H; cbn [bulkAdd_for] in H.
  - injection H as <-. reflexivity.
  - destruct (bulkAdd_step randomUUID now x st) as [st1 |] eqn:E;
      [| discriminate].
    rewrite (IH _ _ H). unfold bulkAdd_step in E.
    destruct (in_macAddress x) as [a |]; [| discriminate]. cbn zeta in E.
    destruct (bs_map st !! js.toLowerCase a) eqn:E2.
    + injection E as <-. reflexivity.
    + destruct (js.inherited (js.toLowerCase a)); injection E as <-;
        [reflexivity |].
      cbn [bs_map]. rewrite access_sum_insert_fresh by exact E2. reflexivity.
Qed.

(** ** What the integrity sweep changes *)

Lemma sweep_entry_repaired (e : Entry) (u : nat) :
  repaired e (sweep_entry randomUUID e u).1.1.
Proof.
  unfold sweep_entry, repaired.
  destruct (js.truthy (id e)) eqn:Hid; cbn [set_id accessType id fst snd];
    destruct (js.truthy (accessType e)) eqn:Hat;
    cbn [set_id set_accessType accessType id fst snd description addedAt
         updatedAt lastSeen accessCount lastDevice];
    split_and!; auto; try discriminate; intros; congruence.
Qed.

Lemma sweep_for_repaired (l : list (string * Entry)) : ∀ u f,
  Forall2 (λ p p', p'.1 = p.1 ∧ repaired p.2 p'.2) l
    (sweep_for randomUUID l u f).1.1.
Proof.
  induction l as [| [mac e] l IH]; intros u f; simpl; [constructor |].
  pose proof (sweep_entry_repaired e u) as He.
  destruct (sweep_entry randomUUID e u) as [[e' u'] fe]. simpl in He.
  specialize (IH u' (f + fe)).
  destruct (sweep_for randomUUID l u' (f + fe)) as [[l' u''] f'].
  simpl in *. constructor; [split; [reflexivity | exact He] | exact IH].
Qed.

Lemma swept_keys (l l' : list (string * Entry)) :
  Forall2 (λ p p', p'.1 = p.1 ∧ repaired p.2 p'.2) l l' → l'.*1 = l.*1.
Proof.
  induction 1 as [| p p' l l' [Hk _] _ IH]; [reflexivity |].
  rewrite !fmap_cons, Hk, IH. reflexivity.
Qed.

Lemma swept_sum (l l' : list (string * Entry)) :
  Forall2 (λ p p', p'.1 = p.1 ∧ repaired p.2 p'.2) l l' →
  sum_list_with (λ p, js.or_zero (accessCount p.2)) l' =
  sum_list_with (λ p, js.or_zero (accessCount p.2)) l.
Proof.
  induction 1 as [| p p' l l' [_ Hr] _ IH]; [reflexivity |].
  simpl. destruct Hr as (_ & _ & _ & _ & Hc & _). rewrite Hc, IH. reflexivity.
Qed.

Lemma swept_map (m : gmap string Entry) (l' : list (string * Entry)) :
  Forall2 (λ p p', p'.1 = p.1 ∧ repaired p.2 p'.2) (map_to_list m) l' →
  dom (list_to_map l' : gmap string Entry) = dom m ∧
  (∀ k e, m !! k = Some e →
     ∃ e', (list_to_map l' : gmap string Entry) !! k = Some e' ∧
           repaired e e') ∧
  access_sum (list_to_map l') = access_sum m.
Proof.
  intros H.
  pose proof (swept_keys _ _ H) as Hkeys.
  assert (Hnd : NoDup l'.*1)
    by (rewrite Hkeys; apply NoDup_fst_map_to_list).
  split_and!.
  - rewrite dom_list_to_map_L, Hkeys.
    rewrite <- dom_list_to_map_L, list_to_map_to_list. reflexivity.
  - intros k e Hk. apply elem_of_map_to_list in Hk.
    apply list_elem_of_lookup in Hk as [i Hi].
    destruct (Forall2_lookup_l _ _ _ _ _ H Hi) as ([k' e'] & Hi' & Hk' & Hr).
    simpl in Hk', Hr. subst k'. exists e'. split; [| exact Hr].
    apply elem_of_list_to_map_1; [exact Hnd |].
    apply list_elem_of_lookup. eauto.
  - unfold access_sum. rewrite (map_to_list_to_map l' Hnd).
    apply swept_sum. exact H.
Qed.

(** The part of [maintenance] before the sweep: backup and log cleanup. *)
Lemma maintenance_cleanup (w : World) :
  logFile w ≠ Corrupt →
  ∃ w2, macFile w2 = macFile w ∧ tmpFile w2 = tmpFile w ∧ clock w2 = clock w ∧
    logFile w2 ≠ Corrupt ∧
    events_of w2 = js.slice_last 1000 (events_of w) ∧
    maintenance randomUUID overwrite jsonError w =
    (let d := readDatabase w2 in
     let '(swept, u, fixedCount) :=
       sweep_for randomUUID (map_to_list (macAddresses d)) (uuids w2) 0 in
     let d' := set_macAddresses (list_to_map swept) d in
     let w3 := set_uuids u w2 in
     let w4 :=
       if Nat.ltb 0 fixedCount then (writeDatabase overwrite d' w3).1 else w3 in
     (w4, mkResult true "Maintenance completed successfully"
            (Some (mkMaintenanceData 1 fixedCount)))).
Proof.
  intros Hlog. unfold maintenance.
  pose proof (backupDatabase_frame w) as (Hm & Ht & Hl & Hc & _).
  set (w1 := backupDatabase w) in *.
  assert (Hev : events_of w1 = events_of w)
    by (unfold events_of; rewrite Hl; reflexivity).
  destruct (logFile w1) as [| | ld] eqn:E; cbn [pathExists readJson].
  - exists w1. split_and!; try assumption; try reflexivity.
    rewrite Hev. unfold events_of. rewrite <- Hl. reflexivity.
  - congruence.
  - destruct (Nat.ltb_spec 1000 (length (accessEvents ld))) as [Hlong | Hshort].
    + eexists. split_and!; [| | | | | reflexivity]; try assumption.
      * discriminate.
      * unfold events_of at 2. rewrite <- Hl. reflexivity.
    + exists w1. split_and!; try assumption; try reflexivity.
      rewrite Hev. unfold events_of. rewrite <- Hl.
      rewrite slice_last_all by exact Hshort. reflexivity.
Qed.

(** X6. [statistics.totalAccesses] never falls below the accesses
    counted on the entries: when the sum of [accessCount] over the
    entries of the committed snapshot is at most its [totalAccesses]
    (as in every snapshot [initializeDatabase] creates), the same holds
    of the committed snapshot after an access check, an add, an update,
    a removal, a bulk add and a maintenance run.  A granted check adds
    one to both; a removal takes the entry's count out of the sum and
    leaves the total. *)
Theorem accesses_accounted_for (w : World) :
  store_accounted w →
  (∀ candidates dev,
     store_accounted (checkAccess randomUUID overwrite candidates dev w).1) ∧
  (∀ mac desc ty,
     store_accounted (addMACAddress randomUUID overwrite mac desc ty w).1) ∧
  (∀ mac ty, store_accounted (updateMACAccess overwrite mac ty w).1) ∧
  (∀ mac, store_accounted (removeMACAddress overwrite mac w).1) ∧
  (∀ typeError l,
     store_accounted (bulkAddMACs randomUUID overwrite typeError l w).1) ∧
  store_accounted (maintenance randomUUID overwrite jsonError w).1 ∧
  store_accounted (initializeDatabase w).
Proof.
  intros Hw. pose proof (readDatabase_accounted w Hw) as Hd.
  unfold accesses_accounted in Hd.
  split_and!.
  - intros candidates dev.
    destruct (candidates_split (macAddresses (readDatabase w)) candidates)
      as [Hnone | [(pre & x & post & e & -> & Hpre & Hx)
                  | (pre & x & post & -> & Hpre & Hx & Hxi)]].
    + rewrite (checkAccess_refused candidates dev w Hnone). cbn [fst].
      apply logAccess_accounted, Hw.
    + rewrite (checkAccess_granted pre x post e dev w Hpre Hx). cbn [fst].
      apply logAccess_accounted.
      apply (writeDatabase_accounted _ w w eq_refl); [| exact Hw].
      unfold accesses_accounted, granted_snapshot. simpl.
      pose proof (access_sum_insert _ _ e (touched (clock w) dev e) Hx) as Hs.
      simpl in Hs. lia.
    + rewrite (checkAccess_granted_member pre x post dev w Hpre Hx Hxi).
      cbn [fst].
      apply logAccess_accounted.
      apply (writeDatabase_accounted _ w w eq_refl); [| exact Hw].
      unfold accesses_accounted. simpl. lia.
  - intros mac desc ty. unfold addMACAddress. cbn zeta.
    destruct (macAddresses (readDatabase w) !! js.toLowerCase mac) eqn:E;
      [exact Hw |].
    destruct (js.inherited (js.toLowerCase mac)); [exact Hw |].
    match goal with
    | |- context [writeDatabase overwrite ?d ?w0] =>
        pose proof (writeDatabase_accounted d w0 w eq_refl) as G;
        destruct (writeDatabase overwrite d w0) as [w1 saved]
    end.
    assert (G' : store_accounted w1).
    { apply G; [| exact Hw]. unfold accesses_accounted. simpl.
      rewrite access_sum_insert_fresh by exact E. simpl. exact Hd. }
    destruct saved; exact G'.
  - intros mac ty. unfold updateMACAccess. cbn zeta.
    destruct (macAddresses (readDatabase w) !! js.toLowerCase mac) as [e |] eqn:E;
      [| destruct (js.inherited (js.toLowerCase mac)); [| exact Hw];
         match goal with
         | |- context [writeDatabase overwrite ?d ?w0] =>
             pose proof (writeDatabase_accounted d w0 w eq_refl Hd Hw) as G;
             destruct (writeDatabase overwrite d w0) as [w1 saved]
         end;
         destruct saved; exact G].
    match goal with
    | |- context [writeDatabase overwrite ?d ?w0] =>
        pose proof (writeDatabase_accounted d w0 w eq_refl) as G;
        destruct (writeDatabase overwrite d w0) as [w1 saved]
    end.
    assert (G' : store_accounted w1).
    { apply G; [| exact Hw]. unfold accesses_accounted. simpl.
      pose proof (access_sum_insert _ _ e
                    (set_updatedAt (Some (clock w))
                       (set_accessType (Some ty) e)) E) as Hs.
      simpl in Hs. lia. }
    destruct saved; exact G'.
  - intros mac. unfold removeMACAddress. cbn zeta.
    destruct (macAddresses (readDatabase w) !! js.toLowerCase mac) as [e |] eqn:E;
      [| destruct (js.inherited (js.toLowerCase mac)); [| exact Hw];
         match goal with
         | |- context [writeDatabase overwrite ?d ?w0] =>
             pose proof (writeDatabase_accounted d w0 w eq_refl Hd Hw) as G;
             destruct (writeDatabase overwrite d w0) as [w1 saved]
         end;
         destruct saved; exact G].
    match goal with
    | |- context [writeDatabase overwrite ?d ?w0] =>
        pose proof (writeDatabase_accounted d w0 w eq_refl) as G;
        destruct (writeDatabase overwrite d w0) as [w1 saved]
    end.
    assert (G' : store_accounted w1).
    { apply G; [| exact Hw]. unfold accesses_accounted. simpl.
      pose proof (access_sum_delete _ _ e E) as Hs. lia. }
    destruct saved; exact G'.
  - intros typeError l. unfold bulkAddMACs. cbn zeta.
    destruct (bulkAdd_for randomUUID (clock w) l _) as [st | st] eqn:El;
      [| intros d0 Hd0; apply Hw; exact Hd0].
    match goal with
    | |- context [writeDatabase overwrite ?d ?w0] =>
        pose proof (writeDatabase_accounted d w0 w eq_refl) as G;
        destruct (writeDatabase overwrite d w0) as [w1 saved]
    end.
    assert (G' : store_accounted w1).
    { apply G; [| exact Hw]. unfold accesses_accounted. simpl.
      rewrite (bulkAdd_for_access_sum _ _ _ _ El). simpl. exact Hd. }
    destruct saved; exact G'.
  - assert (Hdec : logFile w = Corrupt ∨ logFile w ≠ Corrupt)
      by (destruct (logFile w); [right | left | right]; congruence).
    destruct Hdec as [Hc | Hlog].
    + unfold maintenance.
      pose proof (backupDatabase_frame w) as (Hm & _ & Hl & _).
      rewrite Hl, Hc. simpl. intros d Hd'. apply Hw. congruence.
    + destruct (maintenance_cleanup w Hlog)
        as (w2 & Hm & _ & Hc & _ & _ & ->).
      assert (Hr : readDatabase w2 = readDatabase w)
        by (unfold readDatabase; rewrite Hm, Hc; reflexivity).
      cbn zeta. rewrite Hr.
      pose proof (sweep_for_repaired
                    (map_to_list (macAddresses (readDatabase w))) (uuids w2) 0)
        as Hrep.
      destruct (sweep_for randomUUID _ (uuids w2) 0) as [[swept u] f].
      cbn [fst snd] in *.
      destruct (swept_map _ swept Hrep) as (_ & _ & Hsum).
      destruct (Nat.ltb 0 f); cbn [fst].
      * apply (writeDatabase_accounted _ _ w); [exact Hm | | exact Hw].
        unfold accesses_accounted. simpl. rewrite Hsum. exact Hd.
      * intros d Hd'. apply Hw. simpl in Hd'. congruence.
  - unfold initializeDatabase. intros d.
    destruct (macFile w) as [| | d0] eqn:Em; simpl; rewrite ?Em; simpl;
      destruct (logFile w); simpl; rewrite ?Em; intros Hd';
      try discriminate; try (apply Hw; congruence).
    all: injection Hd' as <-; unfold accesses_accounted; simpl;
      rewrite access_sum_empty; lia.
Qed.

Hypothesis randomUUID_nonempty : ∀ n, randomUUID n ≠ "".

(** X8. What [maintenance] does when the access log parses (or is
    missing).  It answers with a success that reports [backupsCreated:
    1] and as [entriesFixed] the number of missing identifiers plus the
    number of missing access types; it cuts the access log to its last
    1000 events.  When nothing is to be fixed the snapshot is not
    written.  Otherwise the snapshot handed to the write has the keys it
    had, and every entry differs from the one before at most in an
    identifier or an access type that was missing ([trial] now), and
    lacks neither any more. *)
Theorem maintenance_repairs (w : World) :
  logFile w ≠ Corrupt →
  let res := maintenance randomUUID overwrite jsonError w in
  let m := macAddresses (readDatabase w) in
  let n := fixes_needed (map_to_list m) in
  res.2 =
    mkResult true "Maintenance completed successfully"
      (Some (mkMaintenanceData 1 n)) ∧
  events_of res.1 = js.slice_last 1000 (events_of w) ∧
  (n = 0 → macFile res.1 = macFile w ∧ tmpFile res.1 = tmpFile w) ∧
  (0 < n →
   ∃ d', (if moves overwrite w then macFile res.1 else tmpFile res.1)
           = Content d' ∧
         dom (macAddresses d') = dom m ∧
         ∀ k e, m !! k = Some e →
           ∃ e', macAddresses d' !! k = Some e' ∧ repaired e e' ∧ healthy e').
Proof.
  intros Hlog res m n. subst res.
  destruct (maintenance_cleanup w Hlog) as (w2 & Hm & Ht & Hc & Hl2 & Hev & ->).
  assert (Hd : readDatabase w2 = readDatabase w)
    by (unfold readDatabase; rewrite Hm, Hc; reflexivity).
  cbn zeta. rewrite Hd. fold m.
  pose proof (sweep_for_spec randomUUID randomUUID_nonempty (map_to_list m)
                (uuids w2) 0) as (Hhealthy & Hf).
  pose proof (sweep_for_repaired (map_to_list m) (uuids w2) 0) as Hrep.
  destruct (sweep_for randomUUID (map_to_list m) (uuids w2) 0)
    as [[swept u] f].
  cbn [fst snd] in *. simpl in Hf. fold n in Hf. subst f.
  destruct (swept_map m swept Hrep) as (Hdom & Hlook & _).
  split_and!.
  - reflexivity.
  - destruct (Nat.ltb 0 n); cbn [fst]; [| exact Hev].
    match goal with
    | |- context [writeDatabase overwrite ?d ?w0] =>
        pose proof (writeDatabase_spec overwrite d w0) as (_ & _ & _ & Hlg & _)
    end.
    cbn zeta in Hlg. unfold events_of in *. rewrite Hlg. exact Hev.
  - intros Hz. rewrite Hz. cbn [Nat.ltb Nat.leb fst]. auto.
  - intros Hpos. destruct (Nat.ltb_spec 0 n) as [_ | ?]; [| lia]. cbn [fst].
    match goal with
    | |- context [writeDatabase overwrite ?d ?w0] =>
        pose proof (writeDatabase_spec overwrite d w0) as (_ & Hmac & Htmp & _)
    end.
    cbn zeta in Hmac, Htmp.
    change (moves overwrite (set_uuids u w2)) with (moves overwrite w2)
      in Hmac, Htmp.
    assert (Hmv : moves overwrite w2 = moves overwrite w)
      by (unfold moves; rewrite Hm; reflexivity).
    rewrite Hmv in Hmac, Htmp.
    eexists. split; [destruct (moves overwrite w); eassumption |].
    cbn [stamp set_statistics set_macAddresses macAddresses].
    split; [exact Hdom |].
    intros k e Hk. destruct (Hlook k e Hk) as (e' & Hk' & Hr).
    exists e'. split_and!; [exact Hk' | exact Hr |].
    rewrite Forall_forall in Hhealthy.
    apply (Hhealthy (k, e')). apply elem_of_list_to_map_2. exact Hk'.
Qed.

End mac_database_more_facts.

(** * Further properties of [MacDatabase] *)

Section macdb_more_facts.

Import macdb macdb_admin.

Variable sha256 : string -> string.
Variable readError : string.
Variable typeError : string.

(** ** Which strings are accepted as MAC addresses *)

Lemma is_lower_hex_lower (c : ascii) :
  js.is_lower_hex (js.lower_ascii c) = js.is_hex c.
Proof. destruct c as [[] [] [] [] [] [] [] []]; reflexivity. Qed.

Lemma is_hex_lower (c : ascii) :
  js.is_hex c = true → js.is_hex (js.lower_ascii c) = true.
Proof.
  destruct c as [[] [] [] [] [] [] [] []]; intros H; vm_compute in H;
    try discriminate; reflexivity.
Qed.

Lemma filter_lower_hex (l : list ascii) :
  List.filter js.is_lower_hex (map js.lower_ascii l) =
  map js.lower_ascii (List.filter js.is_hex l).
Proof.
  induction l as [| c l IH]; [reflexivity |].
  cbn [map List.filter]. rewrite is_lower_hex_lower, IH.
  destruct (js.is_hex c); reflexivity.
Qed.

(** [normalizeMac] keeps the hexadecimal digits, lower-cased, and puts a
    colon after every second one that has a successor. *)
Lemma normalizeMac_hex_digits (s : string) :
  normalizeMac s =
  string_of_list_ascii (colonize (map js.lower_ascii (hex_digits s))).
Proof.
  unfold normalizeMac, hex_digits.
  rewrite toLowerCase_list, filter_lower_hex. reflexivity.
Qed.

Lemma mac_groups_colonize (n : nat) : ∀ h : list ascii,
  Forall (λ c, js.is_hex c = true) h →
  js.mac_groups (Ascii.eqb ":"%char) n (colonize h) =
  Nat.eqb (length h) (2 * S n).
Proof.
  induction n as [| n IH]; intros h Hh.
  - destruct h as [| a [| b [| c rest]]]; try reflexivity.
    apply Forall_cons in Hh as [Ha Hh]. apply Forall_cons in Hh as [Hb _].
    simpl. rewrite Ha, Hb. reflexivity.
  - destruct h as [| a [| b [| c rest]]].
    + reflexivity.
    + reflexivity.
    + symmetry. apply Nat.eqb_neq. simpl. lia.
    + apply Forall_cons in Hh as [Ha Hh]. apply Forall_cons in Hh as [Hb Hh].
      change (colonize (a :: b :: c :: rest))
        with (a :: b :: ":"%char :: colonize (c :: rest)).
      cbn [js.mac_groups]. rewrite Ha, Hb, (IH _ Hh).
      change (Ascii.eqb ":" ":") with true. cbn [andb].
      cbn [length]. apply eq_true_iff_eq. rewrite !Nat.eqb_eq. lia.
Qed.

Lemma isValidMac_normalizeMac (s : string) :
  isValidMac (normalizeMac s) = Nat.eqb (length (hex_digits s)) 12.
Proof.
  rewrite normalizeMac_hex_digits. unfold isValidMac.
  rewrite list_ascii_of_string_of_list_ascii, mac_groups_colonize.
  - rewrite length_map. reflexivity.
  - apply Forall_forall. intros c Hc.
    apply list_elem_of_fmap in Hc as (c0 & -> & Hc0).
    apply is_hex_lower.
    unfold hex_digits in Hc0. apply list_elem_of_In, filter_In in Hc0.
    exact (proj2 Hc0).
Qed.

(** X9. Which strings [MacDatabase] takes for a MAC address.  The
    format is tested after the normalization, which drops every
    character that is not a hexadecimal digit: a string is accepted
    exactly when it holds twelve hexadecimal digits, whatever else it
    holds and however they are grouped.  With any other number of
    digits [addMacAddress] throws [Invalid MAC address format] and
    [authenticateMac] answers [Invalid MAC format], both before they
    touch the lock or the document.  With twelve, the key is the twelve
    digits in lower case, colon-separated in pairs. *)
Theorem accepted_addresses (s : string) :
  isValidMac (normalizeMac s) = Nat.eqb (length (hex_digits s)) 12 ∧
  normalizeMac s =
    string_of_list_ascii (colonize (map js.lower_ascii (hex_digits s))) ∧
  (length (hex_digits s) ≠ 12 →
   ∀ meta w,
     addMacAddress sha256 readError s meta w =
       (w, Throw "Invalid MAC address format") ∧
     authenticateMac readError s w =
       (w, Return (mkAuthResult false (Some "Invalid MAC format")
                     None None None))).
Proof.
  split; [apply isValidMac_normalizeMac |].
  split; [apply normalizeMac_hex_digits |].
  intros Hn meta w.
  unfold addMacAddress, authenticateMac. cbn zeta.
  rewrite isValidMac_normalizeMac.
  apply Nat.eqb_neq in Hn. rewrite Hn. split; reflexivity.
Qed.

(** ** The operations when nobody holds the lock *)

Lemma ready_emit (ops : list FsOp) (w : World) (d : Database) :
  ready w d → ready (emit ops w) d.
Proof. intros H. exact H. Qed.

Lemma ready_set_clock (t : Z) (w : World) (d : Database) :
  ready w d → ready (set_clock t w) d.
Proof. intros H. exact H. Qed.

Lemma readDatabase_ready (w : World) (d : Database) :
  ready w d →
  readDatabase readError w = (emit [FsLockTry true; FsUnlock] w, Return d).
Proof.
  intros [Hl Hd]. rewrite (readDatabase_free readError w Hl), Hd. reflexivity.
Qed.

Lemma writeDatabase_ready (d' : Database) (w : World) (d : Database) :
  ready w d →
  ∃ w', writeDatabase d' w = (w', Return tt) ∧
        ready w' (stamped (clock w) d') ∧ clock w' = clock w.
Proof.
  intros [Hl Hd]. rewrite (writeDatabase_free d' w Hl).
  eexists. split; [reflexivity |].
  split; [split; [exact Hl | reflexivity] | reflexivity].
Qed.

Lemma addMacAddress_ready (mac : string) (meta : gmap string string)
    (w : World) (d : Database) :
  ready w d → isValidMac (normalizeMac mac) = true →
  let k := normalizeMac mac in
  ∃ w', clock w' = clock w ∧
    match macAddresses d !! k with
    | Some _ =>
        addMacAddress sha256 readError mac meta w =
          (w', Return (mkAddResult false "MAC address already exists" None)) ∧
        ready w' d
    | None =>
        addMacAddress sha256 readError mac meta w =
          (w', Return (mkAddResult true "MAC address added successfully"
                         (Some k))) ∧
        ready w'
          (stamped (clock w)
             (with_entries
                (<[k := new_entry sha256 (clock w) k meta]> (macAddresses d))
                d))
    end.
Proof.
  intros Hr Hv k. unfold addMacAddress. cbn zeta. rewrite Hv. cbn [negb].
  rewrite (readDatabase_ready w d Hr). fold k.
  destruct (macAddresses d !! k) as [e |].
  - eexists. split; [| split; [reflexivity | exact Hr]]. reflexivity.
  - match goal with
    | |- context [writeDatabase ?d' ?w1] =>
        destruct (writeDatabase_ready d' w1 d (ready_emit _ w d Hr))
          as (w' & -> & Hr' & Hc)
    end.
    exists w'. split; [exact Hc |]. split; [reflexivity | exact Hr'].
Qed.

Lemma authenticateMac_ready (mac : string) (w : World) (d : Database) :
  ready w d → isValidMac (normalizeMac mac) = true →
  let k := normalizeMac mac in
  ∃ w', clock w' = clock w ∧
    match macAddresses d !! k with
    | None =>
        authenticateMac readError mac w =
          (w', Return (mkAuthResult false (Some "MAC address not found")
                         None None None)) ∧
        ready w' d
    | Some e =>
        if active e
        then
          authenticateMac readError mac w =
            (w', Return (mkAuthResult true None (Some k) (Some (clock w))
                           (Some (js.or_zero (accessCount e) + 1)))) ∧
          ready w'
            (stamped (clock w)
               (with_entries (<[k := accessed (clock w) e]> (macAddresses d))
                  d))
        else
          authenticateMac readError mac w =
            (w', Return (mkAuthResult false (Some "MAC address is disabled")
                           None None None)) ∧
          ready w' d
    end.
Proof.
  intros Hr Hv k. unfold authenticateMac. cbn zeta. rewrite Hv. cbn [negb].
  rewrite (readDatabase_ready w d Hr). fold k.
  destruct (macAddresses d !! k) as [e |].
  - destruct (active e) eqn:Ha; cbn [negb].
    + match goal with
      | |- context [writeDatabase ?d' ?w1] =>
          destruct (writeDatabase_ready d' w1 d (ready_emit _ w d Hr))
            as (w' & -> & Hr' & Hc)
      end.
      exists w'. split; [exact Hc |]. split; [reflexivity |].
      unfold accessed. rewrite Ha. exact Hr'.
    + eexists. split; [| split; [reflexivity | exact Hr]]. reflexivity.
  - eexists. split; [| split; [reflexivity | exact Hr]]. reflexivity.
Qed.

Lemma removeMacAddress_ready (mac : string) (w : World) (d : Database) :
  ready w d →
  let k := normalizeMac mac in
  ∃ w', clock w' = clock w ∧
    match macAddresses d !! k with
    | None =>
        removeMacAddress readError mac w =
          (w', Return (mkAddResult false "MAC address not found" None)) ∧
        ready w' d
    | Some _ =>
        removeMacAddress readError mac w =
          (w', Return (mkAddResult true "MAC address removed successfully"
                         (Some k))) ∧
        ready w'
          (stamped (clock w) (with_entries (delete k (macAddresses d)) d))
    end.
Proof.
  intros Hr k. unfold removeMacAddress. cbn zeta.
  rewrite (readDatabase_ready w d Hr). fold k.
  destruct (macAddresses d !! k) as [e |].
  - match goal with
    | |- context [writeDatabase ?d' ?w1] =>
        destruct (writeDatabase_ready d' w1 d (ready_emit _ w d Hr))
          as (w' & -> & Hr' & Hc)
    end.
    exists w'. split; [exact Hc |]. split; [reflexivity | exact Hr'].
  - eexists. split; [| split; [reflexivity | exact Hr]]. reflexivity.
Qed.

Lemma toggleMacAddress_ready (mac : string) (b : option bool) (w : World)
    (d : Database) :
  ready w d →
  let k := normalizeMac mac in
  ∃ w', clock w' = clock w ∧
    match macAddresses d !! k with
    | None =>
        toggleMacAddress readError mac b w =
          (w', Return (mkToggleResult false "MAC address not found" None None)) ∧
        ready w' d
    | Some e =>
        toggleMacAddress readError mac b w =
          (w', Return (mkToggleResult true
                         ("MAC address " +:+
                          (if default true b then "enabled" else "disabled")
                          +:+ " successfully")
                         (Some k) (Some (default true b)))) ∧
        ready w'
          (stamped (clock w)
             (with_entries
                (<[k := toggled (clock w) (default true b) e]> (macAddresses d))
                d))
    end.
Proof.
  intros Hr k. unfold toggleMacAddress. cbn zeta.
  rewrite (readDatabase_ready w d Hr). fold k.
  destruct (macAddresses d !! k) as [e |].
  - match goal with
    | |- context [writeDatabase ?d' ?w1] =>
        destruct (writeDatabase_ready d' w1 d (ready_emit _ w d Hr))
          as (w' & -> & Hr' & Hc)
    end.
    exists w'. split; [exact Hc |]. split; [reflexivity | exact Hr'].
  - eexists. split; [| split; [reflexivity | exact Hr]]. reflexivity.
Qed.

(** ** The lock file under the operations *)

Lemma lock_respected_refl (w : World) : lock_respected w w.
Proof. split; intros H; auto. Qed.

Lemma lock_respected_trans (w1 w2 w3 : World) :
  lock_respected w1 w2 → lock_respected w2 w3 → lock_respected w1 w3.
Proof.
  intros [F1 H1] [F2 H2]. split; intros H.
  - destruct (F1 H) as [L1 C1]. destruct (F2 L1) as [L2 C2].
    split; [exact L2 | congruence].
  - destruct (H1 H) as [L1 D1]. destruct (H2 L1) as [L2 D2].
    split; [exact L2 | congruence].
Qed.

Lemma readDatabase_lock (w : World) :
  lock_respected w (readDatabase readError w).1.
Proof.
  split; intros H.
  - rewrite (readDatabase_free readError w H). split; [exact H | reflexivity].
  - rewrite (readDatabase_held readError w H). split; reflexivity.
Qed.

Lemma writeDatabase_lock (d : Database) (w : World) :
  lock_respected w (writeDatabase d w).1.
Proof.
  split; intros H.
  - rewrite (writeDatabase_free d w H). split; [exact H | reflexivity].
  - rewrite (writeDatabase_held d w H). split; reflexivity.
Qed.

(** The worlds an operation goes through: the one after the read, then
    the one after the write. *)
Ltac through_read w w1 H1 :=
  pose proof (readDatabase_lock w) as H1;
  destruct (readDatabase readError w) as [w1 [? | ?]]; cbn [fst] in H1 |- *.

Ltac through_write H1 :=
  match goal with
  | |- context [writeDatabase ?d' ?w1] =>
      let H2 := fresh "H2" in
      pose proof (writeDatabase_lock d' w1) as H2;
      destruct (writeDatabase d' w1) as [? [? | ?]]; cbn [fst] in H2 |- *;
      exact (lock_respected_trans _ _ _ H1 H2)
  end.

Lemma addMacAddress_lock (mac : string) (meta : gmap string string) (w : World) :
  lock_respected w (addMacAddress sha256 readError mac meta w).1.
Proof.
  unfold addMacAddress. cbn zeta.
  destruct (negb (isValidMac (normalizeMac mac))); [apply lock_respected_refl |].
  through_read w w1 H1; [| exact H1].
  destruct (macAddresses _ !! normalizeMac mac); [exact H1 |].
  through_write H1.
Qed.

Lemma authenticateMac_lock (mac : string) (w : World) :
  lock_respected w (authenticateMac readError mac w).1.
Proof.
  unfold authenticateMac. cbn zeta.
  destruct (negb (isValidMac (normalizeMac mac))); [apply lock_respected_refl |].
  through_read w w1 H1; [| exact H1].
  destruct (macAddresses _ !! normalizeMac mac) as [e |]; [| exact H1].
  destruct (negb (active e)); [exact H1 |].
  through_write H1.
Qed.

Lemma removeMacAddress_lock (mac : string) (w : World) :
  lock_respected w (removeMacAddress readError mac w).1.
Proof.
  unfold removeMacAddress. cbn zeta.
  through_read w w1 H1; [| exact H1].
  destruct (macAddresses _ !! normalizeMac mac); [| exact H1].
  through_write H1.
Qed.

Lemma toggleMacAddress_lock (mac : string) (b : option bool) (w : World) :
  lock_respected w (toggleMacAddress readError mac b w).1.
Proof.
  unfold toggleMacAddress. cbn zeta.
  through_read w w1 H1; [| exact H1].
  destruct (macAddresses _ !! normalizeMac mac); [| exact H1].
  through_write H1.
Qed.

Lemma import_step_lock (ov : bool) (mac : ImportItem) (w : World)
    (rs : list ImportResult) :
  lock_respected w (import_step sha256 readError typeError ov mac (w, rs)).1.
Proof.
  unfold import_step.
  destruct (item_address mac) as [a |]; [| apply lock_respected_refl].
  cbn zeta.
  assert (H1 : ∃ w1 o,
            (if ov
             then
               match removeMacAddress readError a w with
               | (w1, Throw e) => (w1, Some e)
               | (w1, Return _) => (w1, None)
               end
             else (w, None)) = (w1, o) ∧ lock_respected w w1).
  { destruct ov.
    - pose proof (removeMacAddress_lock a w) as H.
      destruct (removeMacAddress readError a w) as [w1 [? | e]];
        eexists _, _; split; try reflexivity; exact H.
    - eexists _, _. split; [reflexivity | apply lock_respected_refl]. }
  destruct H1 as (w1 & o & -> & H1).
  destruct o as [e |]; [exact H1 |].
  pose proof (addMacAddress_lock a (item_metadata mac) w1) as H2.
  destruct (addMacAddress sha256 readError a (item_metadata mac) w1)
    as [w2 [? | ?]]; exact (lock_respected_trans _ _ _ H1 H2).
Qed.

Lemma import_fold_lock (ov : bool) (items : list ImportItem) :
  ∀ (w : World) (rs : list ImportResult),
  lock_respected w
    (foldl (λ st mac, import_step sha256 readError typeError ov mac st)
       (w, rs) items).1.
Proof.
  induction items as [| x items IH]; intros w rs; [apply lock_respected_refl |].
  cbn [foldl].
  pose proof (import_step_lock ov x w rs) as H1.
  destruct (import_step sha256 readError typeError ov x (w, rs)) as [w1 rs1].
  exact (lock_respected_trans _ _ _ H1 (IH w1 rs1)).
Qed.

(** X10. The lock file of [MacDatabase].  Whatever an operation answers
    or throws: when no lock file was there at the start, none is there
    at the end and no time went by waiting (the lock taken for the read
    and for the write is released in [finally], also when the read
    fails); when a lock file was there at the start (somebody else's, or
    one left behind), it is still there at the end and the document has
    not been written. *)
Theorem lock_file_respected (w : World) :
  lock_respected w (readDatabase readError w).1 ∧
  (∀ d, lock_respected w (writeDatabase d w).1) ∧
  (∀ mac meta,
     lock_respected w (addMacAddress sha256 readError mac meta w).1) ∧
  (∀ mac, lock_respected w (authenticateMac readError mac w).1) ∧
  (∀ mac, lock_respected w (removeMacAddress readError mac w).1) ∧
  (∀ mac b, lock_respected w (toggleMacAddress readError mac b w).1) ∧
  (∀ activeOnly, lock_respected w (listMacAddresses readError activeOnly w).1) ∧
  lock_respected w (getStats readError w).1 ∧
  (∀ items ov,
     lock_respected w
       (importMacAddresses sha256 readError typeError items ov w).1).
Proof.
  split_and!.
  - apply readDatabase_lock.
  - intros d. apply writeDatabase_lock.
  - intros mac meta. apply addMacAddress_lock.
  - intros mac. apply authenticateMac_lock.
  - intros mac. apply removeMacAddress_lock.
  - intros mac b. apply toggleMacAddress_lock.
  - intros activeOnly. unfold listMacAddresses.
    through_read w w1 H1; exact H1.
  - unfold getStats. through_read w w1 H1; exact H1.
  - intros items ov. unfold importMacAddresses. apply import_fold_lock.
Qed.

(** ** How the operations compose *)

Lemma stamped_entries (t : Z) (m : gmap string Entry) (d : Database) :
  macAddresses (stamped t (with_entries m d)) = m.
Proof. reflexivity. Qed.

(** X12. The life of an address in [MacDatabase], with the lock free and
    a document that parses: an address with twelve hexadecimal digits
    that is not yet a key is added, with metadata that names none of
    the entry's own properties; authenticating with any string that
    normalizes to the same key is granted and counts the accesses, 1
    then 2, with [lastAccess] at the time of each call; removing it
    under either spelling succeeds; authenticating afterwards answers
    [MAC address not found]; and the entries are again the ones there
    were before the add. *)
Theorem address_lifecycle
    (s1 s2 : string) (meta : gmap string string) (w : World) (d : Database)
    (t1 t2 t3 t4 : Z) :
  ready w d →
  plain_metadata meta →
  isValidMac (normalizeMac s1) = true →
  normalizeMac s2 = normalizeMac s1 →
  macAddresses d !! normalizeMac s1 = None →
  let k := normalizeMac s1 in
  let r1 := addMacAddress sha256 readError s1 meta w in
  let r2 := authenticateMac readError s2 (set_clock t1 r1.1) in
  let r3 := authenticateMac readError s1 (set_clock t2 r2.1) in
  let r4 := removeMacAddress readError s2 (set_clock t3 r3.1) in
  let r5 := authenticateMac readError s1 (set_clock t4 r4.1) in
  r1.2 = Return (mkAddResult true "MAC address added successfully" (Some k)) ∧
  r2.2 = Return (mkAuthResult true None (Some k) (Some t1) (Some 1)) ∧
  r3.2 = Return (mkAuthResult true None (Some k) (Some t2) (Some 2)) ∧
  r4.2 =
    Return (mkAddResult true "MAC address removed successfully" (Some k)) ∧
  r5.2 =
    Return (mkAuthResult false (Some "MAC address not found") None None None) ∧
  ∃ d5, ready r5.1 d5 ∧ macAddresses d5 = macAddresses d.
Proof.
  intros Hr _ Hv Hsame Hnew k r1 r2 r3 r4 r5.
  assert (Hv2 : isValidMac (normalizeMac s2) = true) by (rewrite Hsame; exact Hv).
  (* the add *)
  destruct (addMacAddress_ready s1 meta w d Hr Hv) as (w1 & C1 & H1).
  cbn zeta in H1. rewrite Hnew in H1. destruct H1 as [E1 R1]. fold k in E1, R1.
  set (e1 := new_entry sha256 (clock w) k meta) in *.
  set (d1 := stamped (clock w) (with_entries (<[k := e1]> (macAddresses d)) d))
    in *.
  assert (A1 : r1 = (w1, Return (mkAddResult true
                                   "MAC address added successfully" (Some k))))
    by exact E1.
  (* the first authentication *)
  destruct (authenticateMac_ready s2 (set_clock t1 w1) d1
              (ready_set_clock t1 w1 d1 R1) Hv2) as (w2 & C2 & H2).
  cbn zeta in H2. rewrite Hsame in H2. fold k in H2.
  unfold d1 in H2 at 1. rewrite stamped_entries, lookup_insert_eq in H2.
  change (active e1) with true in H2. cbn iota in H2.
  change (clock (set_clock t1 w1)) with t1 in H2.
  destruct H2 as [E2 R2].
  set (d2 := stamped t1 (with_entries
                           (<[k := accessed t1 e1]> (macAddresses d1)) d1)) in *.
  assert (A2 : r2 = (w2, Return (mkAuthResult true None (Some k) (Some t1)
                                   (Some 1)))).
  { unfold r2. rewrite A1. cbn [fst]. exact E2. }
  (* the second *)
  destruct (authenticateMac_ready s1 (set_clock t2 w2) d2
              (ready_set_clock t2 w2 d2 R2) Hv) as (w3 & C3 & H3).
  cbn zeta in H3. fold k in H3.
  unfold d2 in H3 at 1. rewrite stamped_entries, lookup_insert_eq in H3.
  change (active (accessed t1 e1)) with true in H3. cbn iota in H3.
  change (clock (set_clock t2 w2)) with t2 in H3.
  destruct H3 as [E3 R3].
  set (d3 := stamped t2 (with_entries
                           (<[k := accessed t2 (accessed t1 e1)]>
                              (macAddresses d2)) d2)) in *.
  assert (A3 : r3 = (w3, Return (mkAuthResult true None (Some k) (Some t2)
                                   (Some 2)))).
  { unfold r3. rewrite A2. cbn [fst]. exact E3. }
  (* the removal *)
  destruct (removeMacAddress_ready s2 (set_clock t3 w3) d3
              (ready_set_clock t3 w3 d3 R3)) as (w4 & C4 & H4).
  cbn zeta in H4. rewrite Hsame in H4. fold k in H4.
  unfold d3 in H4 at 1. rewrite stamped_entries, lookup_insert_eq in H4.
  change (clock (set_clock t3 w3)) with t3 in H4.
  destruct H4 as [E4 R4].
  set (d4 := stamped t3 (with_entries (delete k (macAddresses d3)) d3)) in *.
  assert (A4 : r4 = (w4, Return (mkAddResult true
                                   "MAC address removed successfully" (Some k)))).
  { unfold r4. rewrite A3. cbn [fst]. exact E4. }
  assert (M4 : macAddresses d4 = macAddresses d).
  { unfold d4, d3, d2, d1. rewrite !stamped_entries.
    rewrite !insert_insert_eq, delete_insert_eq. apply delete_id. exact Hnew. }
  (* the last authentication *)
  destruct (authenticateMac_ready s1 (set_clock t4 w4) d4
              (ready_set_clock t4 w4 d4 R4) Hv) as (w5 & C5 & H5).
  cbn zeta in H5. fold k in H5. rewrite M4 in H5. unfold k in H5.
  rewrite Hnew in H5. destruct H5 as [E5 R5].
  assert (A5 : r5 = (w5, Return (mkAuthResult false
                                   (Some "MAC address not found")
                                   None None None))).
  { unfold r5. rewrite A4. cbn [fst]. exact E5. }
  rewrite A1, A2, A3, A4, A5. cbn [fst snd].
  split_and!; try reflexivity.
  exists d4. split; [exact R5 | exact M4].
Qed.

(** X11. Disabling and enabling, with the lock free and a document that
    parses: [toggleMacAddress(mac, false)] on a key that is there
    succeeds; authenticating the address then answers [MAC address is
    disabled] and writes nothing; [toggleMacAddress(mac)] (the default
    enables) succeeds; authenticating then is granted and counts one
    access more than the entry had.  The toggles do not touch the
    access statistics, and on a key that is not there they answer [MAC
    address not found] and write nothing. *)
Theorem disabled_address_refused
    (s s' : string) (e : Entry) (w : World) (d : Database) (t1 t2 t3 : Z) :
  ready w d →
  isValidMac (normalizeMac s) = true →
  normalizeMac s' = normalizeMac s →
  macAddresses d !! normalizeMac s = Some e →
  let k := normalizeMac s in
  let r1 := toggleMacAddress readError s (Some false) w in
  let r2 := authenticateMac readError s' (set_clock t1 r1.1) in
  let r3 := toggleMacAddress readError s' None (set_clock t2 r2.1) in
  let r4 := authenticateMac readError s (set_clock t3 r3.1) in
  r1.2 =
    Return (mkToggleResult true "MAC address disabled successfully" (Some k)
              (Some false)) ∧
  r2.2 =
    Return (mkAuthResult false (Some "MAC address is disabled") None None None) ∧
  dbFile r2.1 = dbFile r1.1 ∧
  r3.2 =
    Return (mkToggleResult true "MAC address enabled successfully" (Some k)
              (Some true)) ∧
  r4.2 =
    Return (mkAuthResult true None (Some k) (Some t3)
              (Some (js.or_zero (accessCount e) + 1))) ∧
  (∀ s0 b, macAddresses d !! normalizeMac s0 = None →
     ∃ w', toggleMacAddress readError s0 b w =
             (w', Return (mkToggleResult false "MAC address not found"
                            None None)) ∧
           dbFile w' = dbFile w).
Proof.
  intros Hr Hv Hsame He k r1 r2 r3 r4.
  assert (Hv' : isValidMac (normalizeMac s') = true) by (rewrite Hsame; exact Hv).
  destruct (toggleMacAddress_ready s (Some false) w d Hr) as (w1 & C1 & H1).
  cbn zeta in H1. rewrite He in H1. destruct H1 as [E1 R1]. fold k in E1, R1.
  cbn [default] in E1, R1.
  set (d1 := stamped (clock w)
               (with_entries (<[k := toggled (clock w) false e]> (macAddresses d))
                  d)) in *.
  assert (A1 : r1 = (w1, Return (mkToggleResult true
                                   "MAC address disabled successfully"
                                   (Some k) (Some false))))
    by exact E1.
  destruct (authenticateMac_ready s' (set_clock t1 w1) d1
              (ready_set_clock t1 w1 d1 R1) Hv') as (w2 & C2 & H2).
  cbn zeta in H2. rewrite Hsame in H2. fold k in H2.
  unfold d1 in H2 at 1. rewrite stamped_entries, lookup_insert_eq in H2.
  change (active (toggled (clock w) false e)) with false in H2. cbn iota in H2.
  destruct H2 as [E2 R2].
  assert (A2 : r2 = (w2, Return (mkAuthResult false
                                   (Some "MAC address is disabled")
                                   None None None))).
  { unfold r2. rewrite A1. cbn [fst]. exact E2. }
  destruct (toggleMacAddress_ready s' None (set_clock t2 w2) d1
              (ready_set_clock t2 w2 d1 R2)) as (w3 & C3 & H3).
  cbn zeta in H3. rewrite Hsame in H3. fold k in H3.
  unfold d1 in H3 at 1. rewrite stamped_entries, lookup_insert_eq in H3.
  cbn [default] in H3. change (clock (set_clock t2 w2)) with t2 in H3.
  destruct H3 as [E3 R3].
  set (d3 := stamped t2
               (with_entries
                  (<[k := toggled t2 true (toggled (clock w) false e)]>
                     (macAddresses d1)) d1)) in *.
  assert (A3 : r3 = (w3, Return (mkToggleResult true
                                   "MAC address enabled successfully"
                                   (Some k) (Some true)))).
  { unfold r3. rewrite A2. cbn [fst]. exact E3. }
  destruct (authenticateMac_ready s (set_clock t3 w3) d3
              (ready_set_clock t3 w3 d3 R3) Hv) as (w4 & C4 & H4).
  cbn zeta in H4. fold k in H4.
  unfold d3 in H4 at 1. rewrite stamped_entries, lookup_insert_eq in H4.
  change (active (toggled t2 true (toggled (clock w) false e))) with true in H4.
  cbn iota in H4. change (clock (set_clock t3 w3)) with t3 in H4.
  destruct H4 as [E4 R4].
  assert (A4 : r4 = (w4, Return (mkAuthResult true None (Some k) (Some t3)
                                   (Some (js.or_zero (accessCount e) + 1))))).
  { unfold r4. rewrite A3. cbn [fst]. exact E4. }
  rewrite A1, A2, A3, A4. cbn [fst snd].
  split_and!; try reflexivity.
  - destruct R1 as [_ D1]. destruct R2 as [_ D2].
    rewrite D2. symmetry. exact D1.
  - intros s0 b H0.
    destruct (toggleMacAddress_ready s0 b w d Hr) as (w' & _ & H').
    cbn zeta in H'. rewrite H0 in H'. destruct H' as [E' [_ D']].
    exists w'. split; [exact E' |]. destruct Hr as [_ D0]. congruence.
Qed.

(** ** Statistics and listings *)

Lemma foldl_sum {A} (f : A → nat) (l : list A) : ∀ a,
  foldl (λ sum x, sum + f x) a l = a + sum_list_with f l.
Proof.
  induction l as [| x l IH]; intros a; simpl; [lia |].
  rewrite IH. lia.
Qed.

Lemma count_split {A} (f : A → bool) (l : list A) :
  length (List.filter f l) + length (List.filter (λ x, negb (f x)) l) =
  length l.
Proof.
  induction l as [| x l IH]; simpl; [reflexivity |].
  destruct (f x); simpl; lia.
Qed.

(** X13. [getStats] and [listMacAddresses], with the lock free and a
    document that parses, agree with the document and with one another:
    [totalAddresses] is the number of entries and the length of the full
    listing; the active and the inactive addresses add up to it;
    [activeAddresses] is the length of the listing of the active ones,
    which holds exactly the entries whose [active] is set; [totalAccess]
    is the sum of the access counts; and on a document as
    [writeDatabase] leaves it, the stored [totalEntries] is
    [totalAddresses].  Neither writes the document. *)
Theorem statistics_agree (w : World) (d : Database) :
  ready w d →
  ∃ w1 w2 w3 st all actives,
    getStats readError w = (w1, Return st) ∧
    listMacAddresses readError None w = (w2, Return all) ∧
    listMacAddresses readError (Some true) w = (w3, Return actives) ∧
    ready w1 d ∧ ready w2 d ∧ ready w3 d ∧
    totalAddresses st = size (macAddresses d) ∧
    totalAddresses st = length all ∧
    activeAddresses st + inactiveAddresses st = totalAddresses st ∧
    activeAddresses st = length actives ∧
    (∀ k e, (k, e) ∈ all ↔ macAddresses d !! k = Some e) ∧
    (∀ k e, (k, e) ∈ actives ↔
            macAddresses d !! k = Some e ∧ active e = true) ∧
    totalAccess st =
      sum_list_with (λ p, js.or_zero (accessCount p.2))
        (map_to_list (macAddresses d)) ∧
    (∀ t d0, d = stamped t d0 → totalEntries (metadata d) = totalAddresses st).
Proof.
  intros Hr. unfold getStats, listMacAddresses.
  rewrite (readDatabase_ready w d Hr). cbn [default].
  eexists _, _, _, _, _, _.
  split; [reflexivity |]. split; [reflexivity |]. split; [reflexivity |].
  cbn [totalAddresses activeAddresses inactiveAddresses totalAccess].
  set (l := map_to_list (macAddresses d)).
  split_and!; try exact Hr.
  - rewrite length_map. apply length_map_to_list.
  - rewrite length_map. reflexivity.
  - apply count_split.
  - clear. induction l as [| p l IH]; [reflexivity |].
    cbn [map List.filter]. destruct (active p.2); simpl; rewrite IH; reflexivity.
  - intros k e. apply elem_of_map_to_list.
  - intros k e. split.
    + intros H. apply list_elem_of_In, filter_In in H as [H1 H2].
      split; [apply elem_of_map_to_list, list_elem_of_In; exact H1 | exact H2].
    + intros [H1 H2]. apply list_elem_of_In, filter_In.
      split; [apply list_elem_of_In, elem_of_map_to_list; exact H1 | exact H2].
  - rewrite foldl_sum. clear. induction l as [| p l IH]; [reflexivity |].
    simpl. f_equal. exact IH.
  - intros t d0 ->. cbn. rewrite length_map. symmetry. apply length_map_to_list.
Qed.

(** ** Imports *)

Lemma import_step_add (item : ImportItem) (w : World) (d : Database)
    (rs : list ImportResult) :
  ready w d →
  ∃ w' d' r,
    import_step sha256 readError typeError false item (w, rs) =
      (w', rs ++ [r]) ∧
    ready w' d' ∧ clock w' = clock w ∧
    (∀ k e, macAddresses d !! k = Some e → macAddresses d' !! k = Some e) ∧
    dom (macAddresses d') =
      dom (macAddresses d) ∪ list_to_set (option_list (import_key item)) ∧
    size (macAddresses d') =
      size (macAddresses d) + (if i_success r then 1 else 0).
Proof.
  intros Hr. unfold import_step, import_key.
  destruct (item_address item) as [a |]; cbn zeta.
  - destruct (isValidMac (normalizeMac a)) eqn:Hv.
    + destruct (addMacAddress_ready a (item_metadata item) w d Hr Hv)
        as (w' & C & H).
      cbn zeta in H.
      destruct (macAddresses d !! normalizeMac a) as [e0 |] eqn:Hk;
        destruct H as [-> R].
      * exists w', d. eexists. split; [reflexivity |].
        assert (normalizeMac a ∈ dom (macAddresses d))
          by (apply elem_of_dom; eauto).
        split_and!; auto; cbn [i_success option_list list_to_set];
          first [lia | set_solver].
      * exists w'. eexists. eexists. split; [reflexivity |].
        split; [exact R |]. split; [exact C |].
        rewrite stamped_entries. cbn [i_success success option_list list_to_set].
        split_and!.
        -- intros k e Hke. rewrite lookup_insert_ne; [exact Hke | congruence].
        -- rewrite dom_insert_L. clear. set_solver.
        -- rewrite map_size_insert_None by exact Hk. lia.
    + assert (E : addMacAddress sha256 readError a (item_metadata item) w =
                  (w, Throw "Invalid MAC address format"))
        by (unfold addMacAddress; cbn zeta; rewrite Hv; reflexivity).
      rewrite E. clear E. exists w, d. eexists. split; [reflexivity |].
      split_and!; auto; cbn [i_success option_list list_to_set];
        first [lia | clear; set_solver].
  - exists w, d. eexists. split; [reflexivity |].
    split_and!; auto; cbn [i_success option_list list_to_set];
      first [lia | clear; set_solver].
Qed.

Lemma import_fold_add (items : list ImportItem) :
  ∀ (w : World) (d : Database) (rs : list ImportResult),
  ready w d →
  ∃ w' d' new,
    foldl (λ st mac, import_step sha256 readError typeError false mac st)
      (w, rs) items = (w', rs ++ new) ∧
    ready w' d' ∧ clock w' = clock w ∧
    length new = length items ∧
    (∀ k e, macAddresses d !! k = Some e → macAddresses d' !! k = Some e) ∧
    dom (macAddresses d') =
      dom (macAddresses d) ∪ list_to_set (omap import_key items) ∧
    size (macAddresses d') =
      size (macAddresses d) + length (List.filter i_success new).
Proof.
  induction items as [| x items IH]; intros w d rs Hr.
  - exists w, d, []. rewrite app_nil_r.
    split_and!; auto; simpl; first [lia | clear; set_solver].
  - cbn [foldl].
    destruct (import_step_add x w d rs Hr)
      as (w1 & d1 & r & -> & R1 & C1 & P1 & D1 & S1).
    destruct (IH w1 d1 (rs ++ [r]) R1)
      as (w' & d' & new & -> & R' & C' & L' & P' & D' & S').
    exists w', d', (r :: new). rewrite <- app_assoc. split; [reflexivity |].
    split_and!.
    + exact R'.
    + congruence.
    + simpl. rewrite L'. reflexivity.
    + intros k e Hk. apply P', P1, Hk.
    + rewrite D', D1. clear.
      change (omap import_key (x :: items)) with
        (match import_key x with
         | Some k => k :: omap import_key items
         | None => omap import_key items
         end).
      destruct (import_key x); simpl; set_solver.
    + rewrite S', S1. cbn [List.filter].
      destruct (i_success r); simpl; lia.
Qed.

(** X14. [importMacAddresses] without [overwrite], with the lock free
    and a document that parses, only adds: it returns one result for
    each item; every entry that was there is there unchanged; the keys
    afterwards are the keys before and the normalized addresses of the
    items that hold twelve hexadecimal digits; and the number of
    entries has grown by the number of results that report a success.
    An item that cannot be added (no address, a malformed one, one that
    is a key already) costs that item only.  The other properties of an
    item are its metadata, which names none of the entry's own
    properties, as [extra] has it. *)
Theorem import_only_adds (items : list ImportItem) (w : World) (d : Database) :
  ready w d →
  let res := importMacAddresses sha256 readError typeError items None w in
  ∃ d',
    ready res.1 d' ∧ clock res.1 = clock w ∧
    length res.2 = length items ∧
    (∀ k e, macAddresses d !! k = Some e → macAddresses d' !! k = Some e) ∧
    dom (macAddresses d') =
      dom (macAddresses d) ∪ list_to_set (omap import_key items) ∧
    size (macAddresses d') =
      size (macAddresses d) + length (List.filter i_success res.2).
Proof.
  intros Hr res. subst res. unfold importMacAddresses.
  change (default false None) with false.
  destruct (import_fold_add items w d [] Hr)
    as (w' & d' & new & -> & R' & C' & L' & P' & D' & S').
  exists d'. cbn [fst snd app]. split_and!; assumption.
Qed.

Lemma import_step_overwrite (item : ImportItem) (w : World) (d : Database)
    (rs : list ImportResult) :
  ready w d →
  ∃ w' d' r,
    import_step sha256 readError typeError true item (w, rs) =
      (w', rs ++ [r]) ∧
    ready w' d' ∧ clock w' = clock w ∧
    macAddresses d' =
      match item_address item with
      | None => macAddresses d
      | Some a =>
          if isValidMac (normalizeMac a)
          then <[normalizeMac a :=
                   new_entry sha256 (clock w) (normalizeMac a)
                     (item_metadata item)]> (macAddresses d)
          else delete (normalizeMac a) (macAddresses d)
      end.
Proof.
  intros Hr. unfold import_step.
  destruct (item_address item) as [a |]; cbn zeta.
  - assert (H1 : ∃ w1 d1 o,
              removeMacAddress readError a w = (w1, Return o) ∧
              ready w1 d1 ∧ clock w1 = clock w ∧
              macAddresses d1 = delete (normalizeMac a) (macAddresses d)).
    { destruct (removeMacAddress_ready a w d Hr) as (w1 & C1 & H).
      cbn zeta in H.
      destruct (macAddresses d !! normalizeMac a) eqn:Hk; destruct H as [E R].
      - eexists w1, _, _. split; [exact E |]. split; [exact R |].
        split; [exact C1 | reflexivity].
      - exists w1, d. eexists. split; [exact E |]. split; [exact R |].
        split; [exact C1 |]. symmetry. apply delete_id. exact Hk. }
    destruct H1 as (w1 & d1 & o & -> & R1 & C1 & M1).
    destruct (isValidMac (normalizeMac a)) eqn:Hv.
    + destruct (addMacAddress_ready a (item_metadata item) w1 d1 R1 Hv)
        as (w2 & C2 & H).
      cbn zeta in H. rewrite M1, lookup_delete_eq in H. destruct H as [-> R2].
      eexists w2, _, _. split; [reflexivity |]. split; [exact R2 |].
      split; [congruence |].
      rewrite stamped_entries, insert_delete_eq, C1. reflexivity.
    + assert (E : addMacAddress sha256 readError a (item_metadata item) w1 =
                  (w1, Throw "Invalid MAC address format"))
        by (unfold addMacAddress; cbn zeta; rewrite Hv; reflexivity).
      rewrite E. eexists w1, d1, _. split; [reflexivity |].
      split_and!; assumption.
  - exists w, d. eexists. split; [reflexivity |]. split_and!; auto.
Qed.

Lemma import_key_name (item : ImportItem) (k : string) :
  import_key item = Some k → import_name item = Some k.
Proof.
  unfold import_key, import_name.
  destruct (item_address item) as [a |]; [| discriminate].
  destruct (isValidMac (normalizeMac a)); [| discriminate].
  intros H. exact H.
Qed.

Lemma not_named_cons (x : ImportItem) (items : list ImportItem) (k : string) :
  k ∉ omap import_name (x :: items) →
  import_name x ≠ Some k ∧ k ∉ omap import_name items.
Proof.
  intros H. split.
  - intros E. apply H, list_elem_of_omap. exists x. split; [left | exact E].
  - intros Hin. apply H.
    apply list_elem_of_omap in Hin as (y & Hy & E).
    apply list_elem_of_omap. exists y. split; [right; exact Hy | exact E].
Qed.

Lemma import_fold_overwrite (items : list ImportItem) :
  ∀ (w : World) (d : Database) (rs : list ImportResult),
  ready w d →
  ∃ w' d' new,
    foldl (λ st mac, import_step sha256 readError typeError true mac st)
      (w, rs) items = (w', rs ++ new) ∧
    ready w' d' ∧ clock w' = clock w ∧
    length new = length items ∧
    (∀ item k, item ∈ items → import_key item = Some k →
       ∃ e, macAddresses d' !! k = Some e ∧ fresh_at (clock w) e) ∧
    (∀ k e, macAddresses d !! k = Some e → k ∉ omap import_name items →
       macAddresses d' !! k = Some e).
Proof.
  induction items as [| x items IH]; intros w d rs Hr.
  - exists w, d, []. rewrite app_nil_r. split_and!; auto.
    intros item k Hin. inversion Hin.
  - cbn [foldl].
    destruct (import_step_overwrite x w d rs Hr)
      as (w1 & d1 & r & -> & R1 & C1 & M1).
    destruct (IH w1 d1 (rs ++ [r]) R1)
      as (w' & d' & new & -> & R' & C' & L' & F' & P').
    exists w', d', (r :: new). rewrite <- app_assoc. split; [reflexivity |].
    split_and!.
    + exact R'.
    + congruence.
    + simpl. rewrite L'. reflexivity.
    + intros item k Hin Hkey.
      apply elem_of_cons in Hin as [-> | Hin].
      * destruct (decide (k ∈ omap import_name items)) as [Hlater | Hnot].
        -- apply list_elem_of_omap in Hlater as (y & Hy & Hname).
           destruct (F' y k Hy) as (e & He & Hf).
           { unfold import_key, import_name in *.
             destruct (item_address y) as [b |]; [| discriminate].
             destruct (item_address x) as [a |]; [| discriminate].
             simpl in Hname. injection Hname as Hb.
             destruct (isValidMac (normalizeMac a)) eqn:Hva; [| discriminate].
             injection Hkey as Ha. rewrite Hb, <- Ha, Hva. congruence. }
           exists e. split; [exact He |]. rewrite <- C1. exact Hf.
        -- unfold import_key in Hkey.
           destruct (item_address x) as [a |]; [| discriminate].
           destruct (isValidMac (normalizeMac a)); [| discriminate].
           injection Hkey as <-.
           eexists. split.
           ++ apply P'; [| exact Hnot]. rewrite M1. apply lookup_insert_eq.
           ++ repeat split.
      * destruct (F' item k Hin Hkey) as (e & He & Hf).
        exists e. split; [exact He |]. rewrite <- C1. exact Hf.
    + intros k e Hk Hnot.
      apply not_named_cons in Hnot as [Hx Hnot].
      apply P'; [| exact Hnot].
      rewrite M1. unfold import_name in Hx.
      destruct (item_address x) as [a |]; [| exact Hk].
      assert (normalizeMac a ≠ k) by (intros <-; apply Hx; reflexivity).
      destruct (isValidMac (normalizeMac a)).
      * rewrite lookup_insert_ne by assumption. exact Hk.
      * rewrite lookup_delete_ne by assumption. exact Hk.
Qed.

(** X15. [importMacAddresses] with [overwrite], with the lock free and a
    document that parses, of items whose metadata (the other properties
    of an item) names none of the entry's own properties, starts every
    address of the list afresh: it returns one result for each item;
    afterwards every address of the list that holds twelve hexadecimal
    digits is a key whose entry is as new ([added] at the time of the
    import, active, never accessed, the access count 0), whatever the
    entry was before, a disabled one included; and the entries of the
    keys that no item names are unchanged. *)
Theorem import_overwrite_starts_afresh
    (items : list ImportItem) (w : World) (d : Database) :
  ready w d →
  Forall (λ item, plain_metadata (item_metadata item)) items →
  let res :=
    importMacAddresses sha256 readError typeError items (Some true) w in
  ∃ d',
    ready res.1 d' ∧ clock res.1 = clock w ∧
    length res.2 = length items ∧
    (∀ item k, item ∈ items → import_key item = Some k →
       ∃ e, macAddresses d' !! k = Some e ∧ fresh_at (clock w) e) ∧
    (∀ k e, macAddresses d !! k = Some e → k ∉ omap import_name items →
       macAddresses d' !! k = Some e).
Proof.
  intros Hr _ res. subst res. unfold importMacAddresses.
  change (default false (Some true)) with true.
  destruct (import_fold_overwrite items w d [] Hr)
    as (w' & d' & new & -> & R' & C' & L' & F' & P').
  exists d'. cbn [fst snd app]. split_and!; assumption.
Qed.

(** ** A new database directory *)

(** X28. [init] makes a missing document, and nothing else.  When there
    is no document it writes the empty one, stamped with the time, after
    which (the lock being free) an authentication is answered [MAC
    address not found]; when there is a document it leaves the directory
    as it is, so that a document that does not parse is not repaired and
    an authentication keeps failing with the error of the read; and a
    second [init] changes nothing. *)
Theorem init_behaviour (w : World) :
  (dbFile w = Missing →
     dbFile (init w) =
       Content (mkDatabase (mkMetadata (clock w) "1.0.0" 0 None) ∅) ∧
     lockFile (init w) = lockFile w ∧
     (lockFile w = false →
      ∀ s, length (hex_digits s) = 12 →
        (authenticateMac readError s (init w)).2 =
          Return (mkAuthResult false (Some "MAC address not found")
                    None None None))) ∧
  (dbFile w ≠ Missing → init w = w) ∧
  init (init w) = init w ∧
  (dbFile w = Corrupt → lockFile w = false →
   ∀ s, length (hex_digits s) = 12 →
     (authenticateMac readError s (init w)).2 = Throw readError).
Proof.
  split_and!.
  - intros Hm. unfold init. rewrite Hm. cbn [pathExists].
    split; [reflexivity |]. split; [reflexivity |].
    intros Hl s Hs.
    assert (Hv : isValidMac (normalizeMac s) = true)
      by (rewrite isValidMac_normalizeMac; apply Nat.eqb_eq, Hs).
    match goal with
    | |- (authenticateMac _ _ ?w0).2 = _ =>
        destruct (authenticateMac_ready s w0
                    (mkDatabase (mkMetadata (clock w) "1.0.0" 0 None) ∅)
                    (conj Hl eq_refl) Hv) as (w' & _ & H)
    end.
    cbn zeta in H. cbn [macAddresses] in H. rewrite lookup_empty in H.
    destruct H as [-> _]. reflexivity.
  - intros Hm. unfold init. destruct (dbFile w); [contradiction | |]; reflexivity.
  - unfold init. destruct (dbFile w) eqn:E; cbn [pathExists].
    + reflexivity.
    + rewrite E. reflexivity.
    + rewrite E. reflexivity.
  - intros Hc Hl s Hs.
    assert (Hv : isValidMac (normalizeMac s) = true)
      by (rewrite isValidMac_normalizeMac; apply Nat.eqb_eq, Hs).
    unfold init. rewrite Hc. cbn [pathExists].
    unfold authenticateMac. cbn zeta. rewrite Hv. cbn [negb].
    rewrite (readDatabase_free readError w Hl), Hc. reflexivity.
Qed.

(** X17. [authenticateMac] fails closed.  It answers
    [authenticated: true] only when nobody holds the lock, the document
    parses, the string holds twelve hexadecimal digits and its key has
    an entry that is active; the answer then carries the key, the time
    of the call and the entry's access count plus one, and the document
    is written with the entry so updated.  When it throws (the lock
    held for five seconds, a document that is missing or does not
    parse) the document is left as it was. *)
Theorem authentication_fails_closed (s : string) (w : World) :
  let k := normalizeMac s in
  match authenticateMac readError s w with
  | (w', Return r) =>
      authenticated r = true →
      lockFile w = false ∧ length (hex_digits s) = 12 ∧
      ∃ d e,
        dbFile w = Content d ∧ macAddresses d !! k = Some e ∧
        active e = true ∧
        r = mkAuthResult true None (Some k) (Some (clock w))
              (Some (js.or_zero (accessCount e) + 1)) ∧
        dbFile w' =
          Content
            (stamped (clock w)
               (with_entries (<[k := accessed (clock w) e]> (macAddresses d))
                  d))
  | (w', Throw details) =>
      dbFile w' = dbFile w ∧
      length (hex_digits s) = 12 ∧
      (lockFile w = true ∧ details = "Could not acquire database lock" ∨
       lockFile w = false ∧ readJson (dbFile w) = None ∧ details = readError)
  end.
Proof.
  intros k.
  destruct (isValidMac (normalizeMac s)) eqn:Hv.
  - assert (Hlen : length (hex_digits s) = 12)
      by (rewrite isValidMac_normalizeMac in Hv; apply Nat.eqb_eq, Hv).
    destruct (lockFile w) eqn:Hl.
    + unfold authenticateMac. cbn zeta. rewrite Hv. cbn [negb].
      rewrite (readDatabase_held readError w Hl).
      split_and!; auto.
    + destruct (dbFile w) as [| | d] eqn:Hd.
      * unfold authenticateMac. cbn zeta. rewrite Hv. cbn [negb].
        rewrite (readDatabase_free readError w Hl), Hd. cbn [readJson].
        split_and!; auto.
      * unfold authenticateMac. cbn zeta. rewrite Hv. cbn [negb].
        rewrite (readDatabase_free readError w Hl), Hd. cbn [readJson].
        split_and!; auto.
      * destruct (authenticateMac_ready s w d (conj Hl Hd) Hv)
          as (w' & _ & H).
        cbn zeta in H. fold k in H.
        destruct (macAddresses d !! k) as [e |] eqn:He.
        -- destruct (active e) eqn:Ha; destruct H as [-> [_ Hd']].
           ++ intros _. split; [reflexivity |]. split; [exact Hlen |].
              exists d, e. split_and!; auto.
           ++ intros H. discriminate H.
        -- destruct H as [-> _]. intros H. discriminate H.
  - unfold authenticateMac. cbn zeta. rewrite Hv. cbn [negb].
    intros H. discriminate H.
Qed.

End macdb_more_facts.

(** * Further properties of the handlers over the key-value store *)

Section mac_auth_more_facts.

Import mac_auth mac_auth_admin.

(** ** Well-formed addresses and the members of [Object.prototype] *)

Lemma mac_groups_length (sep : ascii → bool) (n : nat) : ∀ l,
  js.mac_groups sep n l = true → length l = 3 * n + 2.
Proof.
  induction n as [| n IH]; intros l H.
  - destruct l as [| a [| b [| c rest]]]; try discriminate. reflexivity.
  - destruct l as [| a [| b [| c rest]]]; try discriminate.
    cbn [js.mac_groups] in H. apply andb_prop in H as [_ H].
    cbn [length]. rewrite (IH _ H). lia.
Qed.

Lemma toLowerCase_length (s : string) :
  String.length (js.toLowerCase s) = String.length s.
Proof. induction s as [| c r IH]; simpl; congruence. Qed.

Lemma list_ascii_length (s : string) :
  length (list_ascii_of_string s) = String.length s.
Proof. induction s as [| c r IH]; simpl; congruence. Qed.

(** No member of [Object.prototype] has a name of seventeen
    characters. *)
Lemma inherited_length (k : string) :
  js.inherited k = true → String.length k ≠ 17.
Proof.
  unfold js.inherited. rewrite existsb_exists.
  intros (x & Hin & E). apply String.eqb_eq in E. subst x.
  unfold js.prototype_members in Hin. simpl in Hin.
  repeat (destruct Hin as [<- | Hin]; [simpl; lia |]).
  destruct Hin.
Qed.

(** The key of a well-formed address names none of them. *)
Lemma valid_mac_plain (mac : string) :
  isValidMac mac = true → plain_key (js.toLowerCase mac).
Proof.
  intros H. unfold isValidMac in H. apply mac_groups_length in H.
  rewrite list_ascii_length in H.
  unfold plain_key. destruct (js.inherited (js.toLowerCase mac)) eqn:E;
    [| reflexivity].
  apply inherited_length in E. rewrite toLowerCase_length in E. lia.
Qed.

Lemma getAllMacAddresses_stored (w : World) :
  getAllMacAddresses w = (emit [KvGet] w, stored w).
Proof. reflexivity. Qed.

Lemma saveAllMacAddresses_online (m : gmap string Entry) (w : World) :
  kvOnline w = true →
  saveAllMacAddresses m w = (emit [KvSet true] (set_kvData (Some m) w), true).
Proof. intros H. unfold saveAllMacAddresses. rewrite H. reflexivity. Qed.

Lemma saveAllMacAddresses_offline (m : gmap string Entry) (w : World) :
  kvOnline w = false →
  saveAllMacAddresses m w = (emit [KvSet false] w, false).
Proof. intros H. unfold saveAllMacAddresses. rewrite H. reflexivity. Qed.

Lemma stored_saved (m : gmap string Entry) (ops ops' : list FsOp) (w : World) :
  kvOnline w = true →
  stored (emit ops (set_kvData (Some m) (emit ops' w))) = m.
Proof. intros H. unfold stored. simpl. rewrite H. reflexivity. Qed.

Lemma stored_offline (w : World) : kvOnline w = false → stored w = ∅.
Proof. intros H. unfold stored. rewrite H. reflexivity. Qed.

Lemma isAccessType_or_default (a : string) :
  isAccessType (Some a) = true → js.or_default (Some a) "trial" = a.
Proof.
  intros H. apply bool_decide_eq_true in H.
  repeat (apply elem_of_cons in H as [-> | H]; [reflexivity |]).
  inversion H.
Qed.

(** [handleAddMac] on a request with the admin key, a well-formed
    address and an access type of the three. *)
Lemma handleAddMac_spec (mac : string) (desc at_ key : option string)
    (w : World) :
  isValidAdmin key = true → isValidMac mac = true →
  isAccessType (Some (default "trial" at_)) = true →
  let k := js.toLowerCase mac in
  let a := default "trial" at_ in
  let res := handleAddMac (mkAddBody (Some mac) desc at_ key) w in
  match stored w !! k with
  | Some _ =>
      res = (emit [KvGet] w,
             mkResponse 409 false "MAC address already exists in whitelist"
               None)
  | None =>
      if kvOnline w
      then
        res =
          (emit [KvSet true]
             (set_kvData
                (Some (<[k := kv_new_entry (clock w) k desc a]> (stored w)))
                (emit [KvGet] w)),
           mkResponse 200 true "MAC address added successfully"
             (Some (mkAddData k desc a (clock w))))
      else
        res =
          (emit [KvSet false] (emit [KvGet] w),
           mkResponse 500 false "Failed to save MAC address to database" None)
  end.
Proof.
  intros Hadm Hmac Hty k a res. subst res. unfold handleAddMac.
  cbn [a_adminKey a_macAddress a_accessType a_description]. cbn zeta.
  rewrite Hadm, Hmac, Hty. cbn [negb]. cbn iota.
  rewrite getAllMacAddresses_stored. fold k.
  destruct (stored w !! k) as [e |]; [reflexivity |].
  destruct (kvOnline w) eqn:Hon.
  - rewrite saveAllMacAddresses_online by exact Hon. reflexivity.
  - rewrite saveAllMacAddresses_offline by exact Hon. reflexivity.
Qed.

(** [handleRemoveMac] on a request with the admin key and a well-formed
    address. *)
Lemma handleRemoveMac_spec (mac : string) (key : option string) (w : World) :
  isValidAdmin key = true → isValidMac mac = true →
  let k := js.toLowerCase mac in
  let res := handleRemoveMac (mkRemoveBody (Some mac) key) w in
  match stored w !! k with
  | None =>
      res = (emit [KvGet] w,
             mkResponse 404 false "MAC address not found in whitelist" None)
  | Some _ =>
      if kvOnline w
      then
        res =
          (emit [KvSet true]
             (set_kvData (Some (delete k (stored w))) (emit [KvGet] w)),
           mkResponse 200 true "MAC address removed successfully" None)
      else
        res =
          (emit [KvSet false] (emit [KvGet] w),
           mkResponse 500 false "Failed to remove MAC address from database"
             None)
  end.
Proof.
  intros Hadm Hmac k res. subst res. unfold handleRemoveMac.
  cbn [r_adminKey r_macAddress]. rewrite Hadm, Hmac. cbn [negb]. cbn iota.
  rewrite getAllMacAddresses_stored. fold k.
  destruct (stored w !! k) as [e |]; [| reflexivity].
  destruct (kvOnline w) eqn:Hon.
  - rewrite saveAllMacAddresses_online by exact Hon. reflexivity.
  - rewrite saveAllMacAddresses_offline by exact Hon. reflexivity.
Qed.

Lemma handleCheckAccess_for_found (allMacs : gmap string Entry)
    (candidates : list string) dev (w : World) r :
  handleCheckAccess_for allMacs candidates dev w = Some r →
  ∃ k,
    (∃ e, allMacs !! k = Some e ∧ r = grant allMacs k e dev w) ∨
    (allMacs !! k = None ∧ js.inherited k = true ∧
     r = grant_member allMacs k w).
Proof.
  induction candidates as [| c rest IH]; [discriminate |].
  cbn [handleCheckAccess_for].
  destruct (allMacs !! js.toLowerCase c) as [e |] eqn:E.
  - intros [= <-]. eauto.
  - destruct (js.inherited (js.toLowerCase c)) eqn:Hi; [| exact IH].
    intros [= <-]. eauto.
Qed.

Lemma handleCheckAccess_for_none (allMacs : gmap string Entry)
    (candidates : list string) dev (w : World) :
  Forall (λ x, vacant allMacs (js.toLowerCase x)) candidates →
  handleCheckAccess_for allMacs candidates dev w = None.
Proof.
  induction 1 as [| x l [Hx Hi] _ IH]; [reflexivity |].
  cbn [handleCheckAccess_for]. rewrite Hx, Hi. exact IH.
Qed.

(** What [handleCheckAccess] does to the store. *)
Lemma handleCheckAccess_world (body : CheckBody) (w : World) :
  let res := handleCheckAccess body w in
  kvOnline res.1 = kvOnline w ∧ clock res.1 = clock w ∧
  (stored res.1 = stored w ∨
   ∃ k e, stored w !! k = Some e ∧
     stored res.1 = <[k := kv_touched (clock w) (c_deviceInfo body) e]> (stored w)).
Proof.
  intros res. subst res. unfold handleCheckAccess.
  destruct (c_macAddresses body) as [candidates |]; [| auto].
  rewrite getAllMacAddresses_stored.
  destruct (handleCheckAccess_for (stored w) candidates (c_deviceInfo body)
              (emit [KvGet] w)) as [r |] eqn:E.
  - apply handleCheckAccess_for_found in E
      as (k & [(e & Hk & ->) | (Hk & Hi & ->)]).
    + unfold grant. cbn [fst].
      destruct (kvOnline w) eqn:Hon.
      * rewrite saveAllMacAddresses_online by exact Hon. cbn [fst].
        split; [exact Hon |]. split; [reflexivity |]. right.
        exists k, e. split; [exact Hk |]. apply stored_saved, Hon.
      * rewrite saveAllMacAddresses_offline by exact Hon. cbn [fst].
        split; [exact Hon |]. split; [reflexivity |]. left.
        rewrite !stored_offline; [reflexivity | exact Hon | exact Hon].
    + unfold grant_member. cbn [fst].
      destruct (kvOnline w) eqn:Hon.
      * rewrite saveAllMacAddresses_online by exact Hon. cbn [fst].
        split; [exact Hon |]. split; [reflexivity |]. left.
        apply stored_saved, Hon.
      * rewrite saveAllMacAddresses_offline by exact Hon. cbn [fst].
        split; [exact Hon |]. split; [reflexivity |]. left.
        rewrite !stored_offline; [reflexivity | exact Hon | exact Hon].
  - split; [reflexivity |]. split; [reflexivity |]. left. reflexivity.
Qed.

(** X18. The life of an address in the key-value store, the store being
    reachable: an administrator adds a well-formed address that is not
    stored; a check with that address in any letter case is granted,
    with the access type the administrator gave ([trial] when none was
    given) and an access count of 1; the administrator removes it; a
    check is then refused with 403; and the store holds what it held
    before the add. *)
Theorem kv_device_lifecycle (mac mac' : string) (desc at_ key : option string)
    (dev : option mac_database.DeviceInfo) (w : World) :
  kvOnline w = true → isValidAdmin key = true →
  isValidMac mac = true → isValidMac mac' = true →
  js.toLowerCase mac' = js.toLowerCase mac →
  isAccessType (Some (default "trial" at_)) = true →
  stored w !! js.toLowerCase mac = None →
  let k := js.toLowerCase mac in
  let a := default "trial" at_ in
  let r1 := handleAddMac (mkAddBody (Some mac) desc at_ key) w in
  let r2 := handleCheckAccess (mkCheckBody (Some [mac']) dev) r1.1 in
  let r3 := handleRemoveMac (mkRemoveBody (Some mac') key) r2.1 in
  let r4 := handleCheckAccess (mkCheckBody (Some [mac']) dev) r3.1 in
  r1.2 = mkResponse 200 true "MAC address added successfully"
           (Some (mkAddData k desc a (clock w))) ∧
  stored r1.1 = <[k := kv_new_entry (clock w) k desc a]> (stored w) ∧
  r2.2 = mkResponse 200 true "Device authorized"
           (Some (Granted k (js.or_default desc "No description") a (clock w)
                    (Some (clock w)) (Some 1))) ∧
  r3.2 = mkResponse 200 true "MAC address removed successfully" None ∧
  stored r3.1 = stored w ∧
  status r4.2 = 403 ∧ success r4.2 = false ∧ stored r4.1 = stored w.
Proof.
  intros Hon Hadm Hmac Hmac' Hsame Hty Hfresh k a r1 r2 r3 r4.
  fold k in Hfresh, Hsame. fold a in Hty.
  pose proof (handleAddMac_spec mac desc at_ key w Hadm Hmac Hty) as H1.
  cbn zeta in H1. fold k a r1 in H1. rewrite Hfresh, Hon in H1.
  assert (Hs1 : stored r1.1 = <[k := kv_new_entry (clock w) k desc a]> (stored w))
    by (rewrite H1; apply stored_saved, Hon).
  assert (Hon1 : kvOnline r1.1 = true) by (rewrite H1; exact Hon).
  assert (Hc1 : clock r1.1 = clock w) by (rewrite H1; reflexivity).
  assert (Hk1 : stored r1.1 !! js.toLowerCase mac' =
                Some (kv_new_entry (clock w) k desc a))
    by (rewrite Hs1, Hsame; apply lookup_insert_eq).
  pose proof (handleCheckAccess_grants_first [] mac' []
                (kv_new_entry (clock w) k desc a)
                (mkCheckBody (Some [mac']) dev) r1.1 eq_refl
                (Forall_nil_2 _) Hk1) as H2.
  cbn zeta in H2. fold r2 in H2. destruct H2 as [H2 H2w].
  specialize (H2w Hon1). cbn [c_deviceInfo] in H2w.
  pose proof (handleCheckAccess_world (mkCheckBody (Some [mac']) dev) r1.1)
    as (Hon2 & Hc2 & _).
  fold r2 in Hon2, Hc2. rewrite Hon1 in Hon2.
  assert (Hs2 : stored r2.1 =
                <[k := kv_touched (clock w) dev
                         (kv_new_entry (clock w) k desc a)]> (stored w)).
  { unfold stored at 1. rewrite Hon2, H2w. cbn [default].
    rewrite Hs1, Hsame, Hc1. fold k. apply insert_insert_eq. }
  pose proof (handleRemoveMac_spec mac' key r2.1 Hadm Hmac') as H3.
  cbn zeta in H3. fold r3 in H3.
  rewrite Hs2, Hsame in H3. fold k in H3.
  rewrite lookup_insert_eq, Hon2 in H3.
  rewrite delete_insert_eq, (delete_id _ _ Hfresh) in H3.
  assert (Hs3 : stored r3.1 = stored w)
    by (rewrite H3; apply stored_saved, Hon2).
  pose proof (handleCheckAccess_world (mkCheckBody (Some [mac']) dev) r3.1)
    as (_ & _ & Hs4).
  fold r4 in Hs4.
  assert (Hnone : handleCheckAccess_for (stored r3.1) [mac'] dev
                    (emit [KvGet] r3.1) = None).
  { apply handleCheckAccess_for_none. constructor; [| constructor].
    split; [rewrite Hs3, Hsame; exact Hfresh | apply valid_mac_plain, Hmac']. }
  assert (H4 : status r4.2 = 403 ∧ success r4.2 = false ∧
               stored r4.1 = stored r3.1).
  { subst r4. unfold handleCheckAccess. cbn [c_macAddresses c_deviceInfo].
    rewrite getAllMacAddresses_stored, Hnone. auto. }
  destruct H4 as (H4a & H4b & H4c).
  split_and!.
  - rewrite H1. reflexivity.
  - exact Hs1.
  - rewrite H2, Hc1. unfold kv_new_entry.
    cbn [description accessType addedAt accessCount js.or_zero default].
    rewrite (isAccessType_or_default a Hty), Hsame. reflexivity.
  - rewrite H3. reflexivity.
  - exact Hs3.
  - exact H4a.
  - exact H4b.
  - rewrite H4c. exact Hs3.
Qed.

(** ** Adding in bulk *)

Lemma kv_bulk_step_spec (now : Z) (st : BulkState) (x : BulkItem) :
  let st' := bulk_step now st x in
  ∃ r,
    bs_results st' = bs_results st ++ [r] ∧
    bs_successCount st' =
      bs_successCount st + (if br_success r then 1 else 0) ∧
    size (bs_allMacs st') =
      size (bs_allMacs st) + (if br_success r then 1 else 0) ∧
    (∀ k e, bs_allMacs st !! k = Some e → bs_allMacs st' !! k = Some e) ∧
    dom (bs_allMacs st') =
      dom (bs_allMacs st) ∪ list_to_set (option_list (kv_bulk_key x)) ∧
    (∀ k e, bs_allMacs st' !! k = Some e → bs_allMacs st !! k = None →
       kv_bulk_key x = Some k ∧
       e = mkEntry k (js.or_default (bi_description x) "Bulk added")
             (Some (default "trial" (bi_accessType x))) now None (Some 0)
             None None).
Proof.
  intros st'. subst st'. unfold bulk_step, kv_bulk_key. cbn zeta.
  destruct (bi_macAddress x) as [mac |].
  - destruct (isValidMac mac) eqn:Hv; cbn [negb].
    + destruct (bs_allMacs st !! js.toLowerCase mac) as [e0 |] eqn:Hk.
      * eexists. split; [reflexivity |].
        cbn [bs_allMacs bs_successCount br_success option_list list_to_set].
        assert (js.toLowerCase mac ∈ dom (bs_allMacs st))
          by (apply elem_of_dom; eauto).
        split_and!; auto; try lia; [set_solver | congruence].
      * eexists. split; [reflexivity |].
        cbn [bs_allMacs bs_successCount br_success option_list list_to_set].
        split_and!.
        -- reflexivity.
        -- rewrite map_size_insert_None by exact Hk. lia.
        -- intros k e Hke. rewrite lookup_insert_ne; [exact Hke | congruence].
        -- rewrite dom_insert_L. clear. set_solver.
        -- intros k e Hke Hnone.
           destruct (decide (js.toLowerCase mac = k)) as [<- | Hne].
           ++ rewrite lookup_insert_eq in Hke. injection Hke as <-. auto.
           ++ rewrite lookup_insert_ne in Hke by exact Hne. congruence.
    + eexists. split; [reflexivity |].
      cbn [bs_allMacs bs_successCount br_success option_list list_to_set].
      split_and!; auto; try lia; [clear; set_solver | congruence].
  - eexists. split; [reflexivity |].
    cbn [bs_allMacs bs_successCount br_success option_list list_to_set].
    split_and!; auto; try lia; [clear; set_solver | congruence].
Qed.

Lemma kv_bulk_fold_spec (now : Z) (items : list BulkItem) : ∀ st : BulkState,
  let st' := foldl (bulk_step now) st items in
  ∃ new,
    bs_results st' = bs_results st ++ new ∧
    length new = length items ∧
    bs_successCount st' =
      bs_successCount st + length (List.filter br_success new) ∧
    size (bs_allMacs st') =
      size (bs_allMacs st) + length (List.filter br_success new) ∧
    (∀ k e, bs_allMacs st !! k = Some e → bs_allMacs st' !! k = Some e) ∧
    dom (bs_allMacs st') =
      dom (bs_allMacs st) ∪ list_to_set (omap kv_bulk_key items) ∧
    (∀ k e, bs_allMacs st' !! k = Some e → bs_allMacs st !! k = None →
       ∃ x, x ∈ items ∧ kv_bulk_key x = Some k ∧
         e = mkEntry k (js.or_default (bi_description x) "Bulk added")
               (Some (default "trial" (bi_accessType x))) now None (Some 0)
               None None).
Proof.
  induction items as [| x items IH]; intros st; cbn [foldl]; cbn zeta.
  - exists []. rewrite app_nil_r.
    split_and!; auto; simpl; try lia; [clear; set_solver | congruence].
  - destruct (kv_bulk_step_spec now st x) as (r & R1 & C1 & S1 & P1 & D1 & N1).
    destruct (IH (bulk_step now st x)) as (new & R' & L' & C' & S' & P' & D' & N').
    exists (r :: new). split_and!.
    + rewrite R', R1, <- app_assoc. reflexivity.
    + simpl. rewrite L'. reflexivity.
    + rewrite C', C1. cbn [List.filter]. destruct (br_success r); simpl; lia.
    + rewrite S', S1. cbn [List.filter]. destruct (br_success r); simpl; lia.
    + intros k e Hk. apply P', P1, Hk.
    + rewrite D', D1. clear.
      change (omap kv_bulk_key (x :: items)) with
        (match kv_bulk_key x with
         | Some k => k :: omap kv_bulk_key items
         | None => omap kv_bulk_key items
         end).
      destruct (kv_bulk_key x); simpl; set_solver.
    + intros k e Hk Hnone.
      destruct (bs_allMacs (bulk_step now st x) !! k) as [e1 |] eqn:Hk1.
      * destruct (N1 k e1 Hk1 Hnone) as [Hkey ->].
        exists x. split; [left |]. split; [exact Hkey |].
        pose proof (P' k _ Hk1) as Hk'. congruence.
      * destruct (N' k e Hk Hk1) as (y & Hy & Hkey & He).
        exists y. split; [right; exact Hy | auto].
Qed.

(** X19. [handleBulkAdd] with the admin key.  The store is read once
    and written once, whatever the number of items.  When the store is
    reachable the answer is 200 with one result for each item, and
    [successCount] is the number of results that report a success and
    the number of entries the store has grown by; every entry that was
    stored is unchanged; the keys are those there were and the
    lower-cased addresses of the well-formed items; and a new entry is
    the one of an item of the list, with an access count of 0 and with
    the access type of that item as it was sent, which is not compared
    with the three access types.  When the store is not reachable the
    answer is 500. *)
Theorem kv_bulk_add (items : list BulkItem) (key : option string) (w : World) :
  isValidAdmin key = true →
  let res := handleBulkAdd (mkBulkBody (Some items) key) w in
  trace res.1 = trace w ++ [KvGet; KvSet (kvOnline w)] ∧
  (kvOnline w = false →
     status res.2 = 500 ∧ success res.2 = false ∧ kvData res.1 = kvData w) ∧
  (kvOnline w = true →
     ∃ bd,
       status res.2 = 200 ∧ success res.2 = true ∧ data res.2 = Some bd ∧
       length (bd_results bd) = length items ∧
       bd_totalCount bd = length items ∧
       bd_successCount bd = length (List.filter br_success (bd_results bd)) ∧
       size (stored res.1) = size (stored w) + bd_successCount bd ∧
       (∀ k e, stored w !! k = Some e → stored res.1 !! k = Some e) ∧
       dom (stored res.1) =
         dom (stored w) ∪ list_to_set (omap kv_bulk_key items) ∧
       (∀ k e, stored res.1 !! k = Some e → stored w !! k = None →
          ∃ x, x ∈ items ∧ kv_bulk_key x = Some k ∧
            e = mkEntry k (js.or_default (bi_description x) "Bulk added")
                  (Some (default "trial" (bi_accessType x))) (clock w) None
                  (Some 0) None None)).
Proof.
  intros Hadm res. subst res. unfold handleBulkAdd.
  cbn [bb_adminKey bb_macAddresses]. rewrite Hadm. cbn [negb]. cbn iota.
  rewrite getAllMacAddresses_stored.
  destruct (kv_bulk_fold_spec (clock w) items (mkBulkState (stored w) [] 0))
    as (new & R & L & C & S & P & D & N).
  cbn zeta in R, L, C, S, P, D, N.
  cbn [bs_results bs_successCount bs_allMacs app] in R, C, S, P, D, N.
  change (clock (emit [KvGet] w)) with (clock w).
  destruct (kvOnline w) eqn:Hon.
  - rewrite saveAllMacAddresses_online by exact Hon.
    split; [cbn [fst trace emit set_kvData]; rewrite <- app_assoc; reflexivity |].
    split; [discriminate |]. intros _.
    eexists. split; [reflexivity |]. split; [reflexivity |].
    split; [reflexivity |].
    cbn [fst bd_results bd_totalCount bd_successCount].
    rewrite stored_saved by exact Hon. rewrite R, C.
    split_and!; auto.
  - rewrite saveAllMacAddresses_offline by exact Hon.
    split; [cbn [fst trace emit]; rewrite <- app_assoc; reflexivity |].
    split; [| discriminate]. intros _. auto.
Qed.

(** ** The store out of reach *)

(** X20. When the key-value store cannot be reached, the handlers go on
    as with an empty whitelist: every check whose candidates name no
    member of [Object.prototype] is refused with 403; an add
    of a well-formed address with the admin key fails with 500 after the
    write was tried; a removal and a change of access type answer 404,
    as for an address that is not stored, and try no write; the list is
    answered with 200 and no entry.  Nothing is stored by any of
    them. *)
Theorem kv_store_unreachable (w : World) :
  kvOnline w = false →
  (∀ candidates dev,
     Forall (λ x, plain_key (js.toLowerCase x)) candidates →
     let res := handleCheckAccess (mkCheckBody (Some candidates) dev) w in
     status res.2 = 403 ∧ success res.2 = false ∧ kvData res.1 = kvData w) ∧
  (∀ mac desc at_ key,
     isValidAdmin key = true → isValidMac mac = true →
     isAccessType (Some (default "trial" at_)) = true →
     handleAddMac (mkAddBody (Some mac) desc at_ key) w =
       (emit [KvSet false] (emit [KvGet] w),
        mkResponse 500 false "Failed to save MAC address to database" None)) ∧
  (∀ mac key,
     isValidAdmin key = true → isValidMac mac = true →
     handleRemoveMac (mkRemoveBody (Some mac) key) w =
       (emit [KvGet] w,
        mkResponse 404 false "MAC address not found in whitelist" None)) ∧
  (∀ mac a key,
     isValidAdmin key = true → isValidMac mac = true →
     isAccessType (Some a) = true →
     let res := handleUpdateAccess (mkUpdateBody (Some mac) (Some a) key) w in
     status res.2 = 404 ∧ success res.2 = false ∧ kvData res.1 = kvData w) ∧
  (∀ key,
     isValidAdmin key = true →
     let res := handleListMacs key w in
     status res.2 = 200 ∧
     (kv_macAddresses <$> data res.2) = Some [] ∧
     (kv_total ∘ kv_statistics <$> data res.2) = Some 0 ∧
     kvData res.1 = kvData w).
Proof.
  intros Hoff. pose proof (stored_offline w Hoff) as Hs. split_and!.
  - intros candidates dev Hp res. subst res. unfold handleCheckAccess.
    cbn [c_macAddresses c_deviceInfo].
    rewrite getAllMacAddresses_stored, Hs.
    rewrite handleCheckAccess_for_none; [auto |].
    eapply Forall_impl; [exact Hp |].
    intros x Hx. split; [apply lookup_empty | exact Hx].
  - intros mac desc at_ key Hadm Hmac Hty.
    pose proof (handleAddMac_spec mac desc at_ key w Hadm Hmac Hty) as H.
    cbn zeta in H. rewrite Hs, lookup_empty, Hoff in H. exact H.
  - intros mac key Hadm Hmac.
    pose proof (handleRemoveMac_spec mac key w Hadm Hmac) as H.
    cbn zeta in H. rewrite Hs, lookup_empty in H. exact H.
  - intros mac a key Hadm Hmac Hty.
    pose proof (handleUpdateAccess_spec (mkUpdateBody (Some mac) (Some a) key)
                  mac w Hadm eq_refl Hmac) as H.
    cbn zeta in H. destruct H as [_ H].
    destruct (H a eq_refl Hty) as [H404 _].
    apply H404. rewrite Hs. apply lookup_empty.
  - intros key Hadm res. subst res. unfold handleListMacs.
    rewrite Hadm. cbn [negb]. cbn iota.
    rewrite getAllMacAddresses_stored, Hs, map_to_list_empty.
    split_and!; reflexivity.
Qed.

(** ** Who may change the whitelist *)

(** X21. Without one of the admin keys the whitelist cannot be changed.
    [handleAddMac], [handleUpdateAccess], [handleRemoveMac],
    [handleBulkAdd] and [handleListMacs] answer 403 and call the store
    neither for a read nor for a write, whatever else the body holds.
    [handleCheckAccess], which asks for no key, leaves the set of the
    stored addresses as it is, and on every entry the address, the
    description, the access type, [addedAt] and [updatedAt]. *)
Theorem kv_changes_need_the_key (w : World) :
  (∀ body, isValidAdmin (a_adminKey body) = false →
     handleAddMac body w = (w, mkResponse 403 false "Invalid admin key" None)) ∧
  (∀ body, isValidAdmin (u_adminKey body) = false →
     handleUpdateAccess body w =
       (w, mkResponse 403 false "Invalid admin key" None)) ∧
  (∀ body, isValidAdmin (r_adminKey body) = false →
     handleRemoveMac body w =
       (w, mkResponse 403 false "Invalid admin key" None)) ∧
  (∀ body, isValidAdmin (bb_adminKey body) = false →
     handleBulkAdd body w =
       (w, mkResponse 403 false "Invalid admin key" None)) ∧
  (∀ key, isValidAdmin key = false →
     handleListMacs key w =
       (w, mkResponse 403 false "Invalid admin key" None)) ∧
  (∀ body,
     let res := handleCheckAccess body w in
     dom (stored res.1) = dom (stored w) ∧
     ∀ k e', stored res.1 !! k = Some e' →
       ∃ e, stored w !! k = Some e ∧ same_registration e e').
Proof.
  split_and!.
  - intros body H. unfold handleAddMac. cbn zeta. rewrite H. reflexivity.
  - intros body H. unfold handleUpdateAccess. rewrite H. reflexivity.
  - intros body H. unfold handleRemoveMac. rewrite H. reflexivity.
  - intros body H. unfold handleBulkAdd. rewrite H. reflexivity.
  - intros key H. unfold handleListMacs. rewrite H. reflexivity.
  - intros body res.
    destruct (handleCheckAccess_world body w) as (_ & _ & [E | (k & e & Hk & E)]);
      fold res in E; rewrite E.
    + split; [reflexivity |]. intros k e' He'. exists e'.
      split; [exact He' | repeat split].
    + split.
      * rewrite dom_insert_L.
        assert (k ∈ dom (stored w)) by (apply elem_of_dom; eauto).
        set_solver.
      * intros k0 e' He'.
        destruct (decide (k = k0)) as [<- | Hne].
        -- rewrite lookup_insert_eq in He'. injection He' as <-.
           exists e. split; [exact Hk | repeat split].
        -- rewrite lookup_insert_ne in He' by exact Hne.
           exists e'. split; [exact He' | repeat split].
Qed.

(** ** The list of the administrator *)

(** X22. [handleListMacs] with an admin key reads the store and writes
    nothing.  It lists exactly the stored entries; [total] is their
    number; [activeLast24h <= activeLast7d] and [activeLast7d +
    neverUsed <= total]; [totalAccesses] is the sum of the access counts
    of the entries; the three counts by access type add up to at most
    [total], and to [total] exactly when the access type of every entry
    (with [trial] for a missing one) is one of the three. *)
Theorem kv_list_statistics (key : option string) (w : World) :
  isValidAdmin key = true →
  ∃ ld,
    handleListMacs key w =
      (emit [KvGet] w,
       mkResponse 200 true "MAC addresses retrieved successfully" (Some ld)) ∧
    let st := kv_statistics ld in
    let by_type := kv_byAccessType st in
    (∀ e, e ∈ kv_macAddresses ld ↔ ∃ k, stored w !! k = Some e) ∧
    length (kv_macAddresses ld) = size (stored w) ∧
    kv_total st = size (stored w) ∧
    (kv_activeLast24h st ≤ kv_activeLast7d st)%nat ∧
    (kv_activeLast7d st + kv_neverUsed st ≤ kv_total st)%nat ∧
    kv_totalAccesses st = kv_access_sum (stored w) ∧
    (kv_trial by_type + kv_unlimited by_type + kv_admin by_type
       ≤ kv_total st)%nat ∧
    (kv_trial by_type + kv_unlimited by_type + kv_admin by_type = kv_total st ↔
     ∀ k e, stored w !! k = Some e →
       js.or_default (accessType e) "trial" ∈ ["trial"; "unlimited"; "admin"]).
Proof.
  intros Hadm. unfold handleListMacs. rewrite Hadm. cbn [negb]. cbn iota.
  rewrite getAllMacAddresses_stored. cbn zeta.
  eexists. split; [reflexivity |].
  cbn [kv_statistics kv_macAddresses kv_total kv_activeLast24h kv_activeLast7d
       kv_neverUsed kv_totalAccesses kv_byAccessType kv_trial kv_unlimited
       kv_admin].
  set (l := (map_to_list (stored w)).*2).
  assert (Hmem : ∀ e, e ∈ l ↔ ∃ k, stored w !! k = Some e).
  { intros e. unfold l. rewrite list_elem_of_fmap. split.
    - intros ([k e0] & -> & Hin). exists k.
      apply elem_of_map_to_list in Hin. exact Hin.
    - intros [k Hk]. exists (k, e). split; [reflexivity |].
      apply elem_of_map_to_list. exact Hk. }
  assert (Hlen : length l = size (stored w))
    by (unfold l; rewrite length_fmap; apply length_map_to_list).
  destruct (count_disjoint3 (has_type "trial") (has_type "unlimited")
              (has_type "admin") l) as [Hle Heq].
  { intros x Hx. unfold has_type in *. apply String.eqb_eq in Hx.
    rewrite Hx. split; reflexivity. }
  { intros x Hx. unfold has_type in *. apply String.eqb_eq in Hx.
    rewrite Hx. reflexivity. }
  split_and!.
  - exact Hmem.
  - exact Hlen.
  - exact Hlen.
  - apply count_impl. intros x. unfold seen_after.
    destruct (lastSeen x) as [t |]; [| discriminate].
    change (clock (emit [KvGet] w)) with (clock w).
    rewrite !Z.ltb_lt. lia.
  - apply count_disjoint2. intros x. unfold seen_after, never_seen.
    destruct (lastSeen x); [reflexivity | discriminate].
  - rewrite foldl_sum. unfold kv_access_sum, l.
    clear. induction (map_to_list (stored w)) as [| p rest IH]; [reflexivity |].
    rewrite fmap_cons. simpl. simpl in IH. rewrite IH. reflexivity.
  - exact Hle.
  - fold l. rewrite Heq, Forall_forall. split.
    + intros H k e Hk.
      assert (He : e ∈ l) by (apply Hmem; eauto).
      specialize (H e He). unfold has_type in H.
      apply orb_prop in H as [H | H]; [apply orb_prop in H as [H | H] |];
        apply String.eqb_eq in H; rewrite H; set_solver.
    + intros H e He. apply Hmem in He as [k Hk]. specialize (H k e Hk).
      unfold has_type.
      repeat (apply elem_of_cons in H as [-> | H]; [reflexivity |]).
      inversion H.
Qed.

End mac_auth_more_facts.

(** * Further properties of the handlers over the file *)

Section mac_auth_file_more_facts.

Import mac_auth_file mac_auth_file_handlers.

Lemma getWhitelist_logAccess macs dev g reason_ req (w : World) :
  getWhitelist (logAccess macs dev g reason_ req w) = getWhitelist w.
Proof. reflexivity. Qed.

Lemma getWhitelist_saveWhitelist (whitelist : list Entry) (w : World) :
  getWhitelist (saveWhitelist whitelist w).1 = whitelist.
Proof. reflexivity. Qed.

Lemma findIndex_None (k : string) (wl : list Entry) :
  findIndex k wl = None ↔ find_entry k wl = None.
Proof.
  unfold findIndex. rewrite list_find_None, find_entry_None, Forall_forall.
  split.
  - intros H Hin. apply list_elem_of_fmap in Hin as (e & -> & He).
    exact (H e He eq_refl).
  - intros H e He Heq. apply H, list_elem_of_fmap. exists e. auto.
Qed.

Lemma findIndex_Some (k : string) (wl : list Entry) (i : nat) (e : Entry) :
  findIndex k wl = Some (i, e) → wl !! i = Some e ∧ macAddress e = k.
Proof.
  unfold findIndex. intros H. apply list_find_Some in H as (H1 & H2 & _).
  auto.
Qed.

Lemma findIndex_appended (k : string) (wl : list Entry) (e : Entry) :
  find_entry k wl = None → macAddress e = k →
  findIndex k (wl ++ [e]) = Some (length wl, e).
Proof.
  intros Hnone Hk. unfold findIndex. apply list_find_Some. split_and!.
  - apply list_lookup_middle. reflexivity.
  - exact Hk.
  - intros j y Hj Hlt Hy.
    rewrite lookup_app_l in Hj by exact Hlt.
    apply find_entry_None in Hnone. apply Hnone.
    apply list_elem_of_fmap. exists y. split; [auto |].
    apply list_elem_of_lookup. eauto.
Qed.

Lemma names_insert (wl : list Entry) (i : nat) (e e' : Entry) :
  wl !! i = Some e → macAddress e' = macAddress e →
  map macAddress (<[i := e']> wl) = map macAddress wl.
Proof.
  intros Hi He.
  change (macAddress <$> <[i := e']> wl = macAddress <$> wl).
  rewrite list_fmap_insert. apply list_insert_id.
  rewrite list_lookup_fmap, Hi, He. reflexivity.
Qed.

Lemma listed_once_delete (wl : list Entry) (i : nat) :
  listed_once wl → listed_once (delete i wl).
Proof.
  unfold listed_once. intros H.
  change (NoDup (macAddress <$> delete i wl)).
  rewrite list_fmap_delete.
  eapply sublist_NoDup; [exact H | apply sublist_delete].
Qed.

Lemma listed_once_snoc (wl : list Entry) (e : Entry) :
  listed_once wl → find_entry (macAddress e) wl = None →
  listed_once (wl ++ [e]).
Proof.
  unfold listed_once. intros H Hnone. rewrite map_app.
  apply NoDup_app. split; [exact H |]. split.
  - intros x Hx Hin. apply list_elem_of_singleton in Hin. subst x.
    apply find_entry_None in Hnone. exact (Hnone Hx).
  - apply NoDup_singleton.
Qed.

Lemma first_listed_Some (wl : list Entry) (macs : list string) mac i e :
  first_listed wl macs = Some (mac, (i, e)) →
  mac ∈ macs ∧ wl !! i = Some e ∧ macAddress e = mac.
Proof.
  induction macs as [| m rest IH]; [discriminate |].
  cbn [first_listed].
  destruct (findIndex m wl) as [[j x] |] eqn:E.
  - intros [= <- <- <-]. apply findIndex_Some in E as [E1 E2].
    split; [left | auto].
  - intros H. destruct (IH H) as (H1 & H2). split; [right; exact H1 | exact H2].
Qed.

(** What [handleCheckAccess] does to the whitelist. *)
Lemma file_check_whitelist (req : Request) (body : CheckBody) (w : World) :
  let res := handleCheckAccess req body w in
  getWhitelist res.1 = getWhitelist w ∨
  ∃ i e, getWhitelist w !! i = Some e ∧
    getWhitelist res.1 =
      <[i := file_touched (clock w) (c_deviceInfo body) e]> (getWhitelist w).
Proof.
  intros res. subst res. unfold handleCheckAccess.
  destruct (negb (method req =? "POST")%string); [left; reflexivity |].
  cbn zeta.
  destruct (c_macAddresses body) as [[| m macs] |]; [left; reflexivity | |
    left; reflexivity].
  destruct (first_listed (getWhitelist w) _) as [[mac [i e]] |] eqn:E.
  - apply first_listed_Some in E as (_ & Hi & _).
    right. exists i, e. split; [exact Hi | reflexivity].
  - left. reflexivity.
Qed.

Lemma bulk_for_listed_once (now : Z) (l : list MacData) :
  ∀ (wl : list Entry) (rs : list ItemResult) st',
  listed_once wl → bulk_for now l (wl, rs) = Some st' → listed_once st'.1.
Proof.
  induction l as [| x l IH]; intros wl rs st' H E; cbn [bulk_for] in E.
  - injection E as <-. exact H.
  - unfold bulk_step in E.
    destruct (in_macAddress x) as [a |]; [| discriminate]. cbn zeta in E.
    destruct (negb (macRegex_test _)); [exact (IH _ _ _ H E) |].
    destruct (find_entry _ wl) eqn:Ef; [exact (IH _ _ _ H E) |].
    refine (IH _ _ _ _ E). apply listed_once_snoc; [exact H | exact Ef].
Qed.

(** X23. No handler lists an address twice.  If no two entries of the
    whitelist have the same address, the same holds after
    [handleCheckAccess], [handleAddMAC], [handleRemoveMAC] and
    [handleBulkAddMACs], whatever the request; and it holds of the
    whitelist read from a file that is missing or does not parse. *)
Theorem file_addresses_listed_once (w : World) :
  (readJson (dataFile w) = None → listed_once (getWhitelist w)) ∧
  (listed_once (getWhitelist w) →
   (∀ req body, listed_once (getWhitelist (handleCheckAccess req body w).1)) ∧
   (∀ req body, listed_once (getWhitelist (handleAddMAC req body w).1)) ∧
   (∀ req body, listed_once (getWhitelist (handleRemoveMAC req body w).1)) ∧
   (∀ req body, listed_once (getWhitelist (handleBulkAddMACs req body w).1))).
Proof.
  split.
  - intros H. unfold getWhitelist. rewrite H. apply NoDup_nil_2.
  - intros Hw. split_and!.
    + intros req body.
      destruct (file_check_whitelist req body w) as [-> | (i & e & Hi & ->)];
        [exact Hw |].
      unfold listed_once. rewrite (names_insert _ i e); auto.
    + intros req body. unfold handleAddMAC.
      destruct (negb (method req =? "POST")%string); [exact Hw |].
      destruct (negb (bool_decide _)); [exact Hw |].
      destruct (negb (js.truthy _)); [exact Hw |].
      cbn zeta.
      destruct (negb (macRegex_test _)); [exact Hw |].
      destruct (find_entry _ (getWhitelist w)) eqn:E; [exact Hw |].
      cbn [saveWhitelist negb fst].
      rewrite getWhitelist_logAccess.
      change (listed_once (getWhitelist w ++
        [file_new_entry (clock w)
           (js.trim (js.toLowerCase (default "" (a_macAddress body))))
           (a_description body)])).
      apply listed_once_snoc; [exact Hw | exact E].
    + intros req body. unfold handleRemoveMAC.
      destruct (negb (method req =? "DELETE")%string); [exact Hw |].
      destruct (negb (bool_decide _)); [exact Hw |].
      destruct (negb (js.truthy _)); [exact Hw |].
      cbn zeta.
      destruct (findIndex _ (getWhitelist w)) as [[i e] |]; [| exact Hw].
      cbn [saveWhitelist negb fst].
      rewrite getWhitelist_logAccess.
      change (listed_once (delete i (getWhitelist w))).
      apply listed_once_delete, Hw.
    + intros req body. unfold handleBulkAddMACs.
      destruct (negb (method req =? "POST")%string); [exact Hw |].
      destruct (negb (bool_decide _)); [exact Hw |].
      destruct (b_macAddresses body) as [l |]; [| exact Hw].
      pose proof (bulk_for_listed_once (clock w) l (getWhitelist w) []) as H.
      destruct (bulk_for (clock w) l (getWhitelist w, [])) as [[wl' rs] |];
        [| exact Hw].
      exact (H _ Hw eq_refl).
Qed.

(** ** Who may change the whitelist *)

Lemma same_listing_refl (wl : list Entry) : Forall2 same_listing wl wl.
Proof. apply Forall2_same_length_lookup_2; [reflexivity |].
  intros i x y Hx Hy. rewrite Hx in Hy. injection Hy as <-. repeat split.
Qed.

(** X24. Without the admin key the whitelist file cannot be changed.
    [handleAddMAC], [handleRemoveMAC] and [handleBulkAddMACs] answer 405
    or 401 to a request whose key is not the admin key, and write
    neither the whitelist nor a backup; [handleRemoveMAC] and
    [handleBulkAddMACs] then change nothing at all, [handleAddMAC]
    records the attempt in the access log when the method was [POST].
    [handleCheckAccess], which asks for no key, leaves the addresses of
    the whitelist as they are, in their order, and on every entry the
    description, [addedAt] and [addedBy]. *)
Theorem file_changes_need_the_key (req : Request) (w : World) :
  (∀ body, a_adminKey body ≠ Some ADMIN_SECRET_KEY →
     let res := handleAddMAC req body w in
     r_success res.2 = false ∧
     dataFile res.1 = dataFile w ∧ backupFiles res.1 = backupFiles w ∧
     (if String.eqb (method req) "POST"
      then r_status res.2 = 401 ∧
           file_events_of res.1 =
             js.slice_last 500
               (file_events_of w ++
                  [file_event_of
                     (mkFileLogCall (clock w) [] None false "Invalid admin key"
                        req)])
      else r_status res.2 = 405 ∧ res.1 = w)) ∧
  (∀ body, rm_adminKey body ≠ Some ADMIN_SECRET_KEY →
     let res := handleRemoveMAC req body w in
     r_success res.2 = false ∧ res.1 = w ∧
     r_status res.2 = (if String.eqb (method req) "DELETE" then 401 else 405)) ∧
  (∀ body, b_adminKey body ≠ Some ADMIN_SECRET_KEY →
     let res := handleBulkAddMACs req body w in
     ∃ r, res.2 = Some r ∧
       success r = false ∧ res.1 = w ∧
       status r = (if String.eqb (method req) "POST" then 401 else 405)) ∧
  (∀ body,
     let res := handleCheckAccess req body w in
     map macAddress (getWhitelist res.1) = map macAddress (getWhitelist w) ∧
     Forall2 same_listing (getWhitelist w) (getWhitelist res.1)).
Proof.
  split_and!.
  - intros body Hkey res. subst res. unfold handleAddMAC.
    rewrite (bool_decide_eq_false_2 _ Hkey). cbn [negb].
    destruct (method req =? "POST")%string; cbn [negb]; cbn iota.
    + split_and!; try reflexivity.
      pose proof (file_logAccess_events
                    (mkFileLogCall (clock w) [] None false "Invalid admin key"
                       req) w) as H.
      cbn [fc_macs fc_dev fc_granted fc_reason fc_req fc_time] in H.
      destruct w as [df bf lf c tr]. exact H.
    + split_and!; reflexivity.
  - intros body Hkey res. subst res. unfold handleRemoveMAC.
    rewrite (bool_decide_eq_false_2 _ Hkey). cbn [negb].
    destruct (method req =? "DELETE")%string; split_and!; reflexivity.
  - intros body Hkey res. subst res. unfold handleBulkAddMACs.
    rewrite (bool_decide_eq_false_2 _ Hkey). cbn [negb].
    destruct (method req =? "POST")%string; eexists;
      (split; [reflexivity |]); split_and!; reflexivity.
  - intros body res.
    destruct (file_check_whitelist req body w) as [E | (i & e & Hi & E)];
      fold res in E; rewrite E.
    + split; [reflexivity | apply same_listing_refl].
    + split; [apply (names_insert _ i e); auto |].
      rewrite <- (list_insert_id _ _ _ Hi) at 1.
      apply Forall2_insert; [apply same_listing_refl | repeat split].
Qed.

(** ** The life of an address *)

Lemma file_name_truthy (s : string) :
  macRegex_test (file_name s) = true → js.truthy (Some s) = true.
Proof. destruct s; [discriminate | reflexivity]. Qed.

(** X25. The life of an address in the whitelist file.  An administrator
    adds an address that is well-formed once trimmed and lower-cased and
    is not listed: the answer is 201 with the new entry, which is
    appended to the whitelist; a check that sends the address in any
    letter case and with spaces around it is granted with an access
    count of 1; the administrator removes it under any such spelling
    and gets the entry back as the check left it; a check is then
    refused with 403; and the whitelist is the one there was before the
    add. *)
Theorem file_address_lifecycle
    (post del : Request) (s s' : string) (desc : option string)
    (dev : option mac_database.DeviceInfo) (w : World) :
  method post = "POST" → method del = "DELETE" →
  macRegex_test (file_name s) = true → file_name s' = file_name s →
  find_entry (file_name s) (getWhitelist w) = None →
  let k := file_name s in
  let key := Some ADMIN_SECRET_KEY in
  let new := file_new_entry (clock w) k desc in
  let r1 := handleAddMAC post (mkAddBody (Some s) desc key) w in
  let r2 := handleCheckAccess post (mkCheckBody (Some [s']) dev) r1.1 in
  let r3 := handleRemoveMAC del (mkRemoveBody (Some s') key) r2.1 in
  let r4 := handleCheckAccess post (mkCheckBody (Some [s']) dev) r3.1 in
  r1.2 = mkReply 201 true "MAC address added to whitelist" (Some new) ∧
  getWhitelist r1.1 = getWhitelist w ++ [new] ∧
  r2.2 = mkReply 200 true "Device authorized"
           (Some (Granted k (js.or_default desc "No description") (clock w)
                    (Some (clock w)) (Some 1))) ∧
  getWhitelist r2.1 = getWhitelist w ++ [file_touched (clock w) dev new] ∧
  r3.2 = mkReply 200 true "MAC address removed from whitelist"
           (Some (file_touched (clock w) dev new)) ∧
  getWhitelist r3.1 = getWhitelist w ∧
  r_status r4.2 = 403 ∧ r_success r4.2 = false ∧
  getWhitelist r4.1 = getWhitelist w.
Proof.
  intros Hpost Hdel Hfmt Hsame Hfresh k key new r1 r2 r3 r4.
  pose proof (file_name_truthy s Hfmt) as Hs.
  assert (Hs' : js.truthy (Some s') = true)
    by (apply file_name_truthy; rewrite Hsame; exact Hfmt).
  fold k in Hfmt, Hsame, Hfresh.
  assert (E1 : r1 =
            (logAccess [k] None true "MAC address added by admin" post
               (saveWhitelist (getWhitelist w ++ [new]) w).1,
             mkReply 201 true "MAC address added to whitelist" (Some new))).
  { subst r1. unfold handleAddMAC.
    cbn [a_adminKey a_macAddress a_description]. subst key.
    rewrite Hpost, (bool_decide_eq_true_2 _ eq_refl), Hs.
    change ("POST" =? "POST")%string with true. cbn [negb]. cbn iota.
    cbn zeta. change (default "" (Some s)) with s.
    change (js.trim (js.toLowerCase s)) with k.
    rewrite Hfmt, Hfresh. reflexivity. }
  assert (W1 : getWhitelist r1.1 = getWhitelist w ++ [new])
    by (rewrite E1; reflexivity).
  assert (C1 : clock r1.1 = clock w) by (rewrite E1; reflexivity).
  assert (F1 : findIndex k (getWhitelist r1.1) =
               Some (length (getWhitelist w), new))
    by (rewrite W1; apply findIndex_appended; [exact Hfresh | reflexivity]).
  assert (E2 : r2 =
            (logAccess [s'] dev true ("Authorized MAC: " +:+ k) post
               (saveWhitelist
                  (<[length (getWhitelist w) := file_touched (clock w) dev new]>
                     (getWhitelist r1.1)) r1.1).1,
             mkReply 200 true "Device authorized"
               (Some (Granted k (js.or_default desc "No description") (clock w)
                        (Some (clock w)) (Some 1))))).
  { subst r2. unfold handleCheckAccess.
    cbn [c_macAddresses c_deviceInfo].
    rewrite Hpost. change ("POST" =? "POST")%string with true. cbn [negb].
    cbn iota. cbn zeta. cbn [map first_listed].
    change (js.trim (js.toLowerCase s')) with (file_name s').
    rewrite Hsame, F1, C1. reflexivity. }
  assert (W2 : getWhitelist r2.1 =
               getWhitelist w ++ [file_touched (clock w) dev new]).
  { rewrite E2. cbn [fst]. rewrite getWhitelist_logAccess,
      getWhitelist_saveWhitelist, W1.
    rewrite <- (Nat.add_0_r (length (getWhitelist w))).
    rewrite insert_app_r. reflexivity. }
  assert (F2 : findIndex k (getWhitelist r2.1) =
               Some (length (getWhitelist w), file_touched (clock w) dev new))
    by (rewrite W2; apply findIndex_appended; [exact Hfresh | reflexivity]).
  assert (E3 : r3 =
            (logAccess [k] None true "MAC address removed by admin" del
               (saveWhitelist
                  (delete (length (getWhitelist w)) (getWhitelist r2.1))
                  r2.1).1,
             mkReply 200 true "MAC address removed from whitelist"
               (Some (file_touched (clock w) dev new)))).
  { subst r3. unfold handleRemoveMAC.
    cbn [rm_adminKey rm_macAddress]. subst key.
    rewrite Hdel, (bool_decide_eq_true_2 _ eq_refl), Hs'.
    change ("DELETE" =? "DELETE")%string with true. cbn [negb]. cbn iota.
    cbn zeta. change (default "" (Some s')) with s'.
    change (js.trim (js.toLowerCase s')) with (file_name s').
    rewrite Hsame, F2. reflexivity. }
  assert (W3 : getWhitelist r3.1 = getWhitelist w).
  { rewrite E3. cbn [fst]. rewrite getWhitelist_logAccess,
      getWhitelist_saveWhitelist, W2.
    rewrite delete_middle. apply app_nil_r. }
  assert (E4 : r_status r4.2 = 403 ∧ r_success r4.2 = false ∧
               getWhitelist r4.1 = getWhitelist w).
  { subst r4. unfold handleCheckAccess.
    cbn [c_macAddresses c_deviceInfo].
    rewrite Hpost. change ("POST" =? "POST")%string with true. cbn [negb].
    cbn iota. cbn zeta. cbn [map first_listed].
    change (js.trim (js.toLowerCase s')) with (file_name s').
    rewrite Hsame, W3.
    rewrite (proj2 (findIndex_None k (getWhitelist w)) Hfresh).
    split_and!; [reflexivity | reflexivity | exact W3]. }
  destruct E4 as (E4a & E4b & E4c).
  split_and!.
  - rewrite E1. reflexivity.
  - exact W1.
  - rewrite E2. reflexivity.
  - exact W2.
  - rewrite E3. reflexivity.
  - exact W3.
  - exact E4a.
  - exact E4b.
  - exact E4c.
Qed.

End mac_auth_file_more_facts.

(** X1, at an example: the first backup of a data directory is the
    snapshot as it is at the time of the call. *)
Lemma backups_retained_witness :
  (2000%Z, mac_database.macFile two_devices)
    ∈ mac_database.backups (mac_database.backupDatabase two_devices).
Proof.
  pose proof (backups_retained true two_devices) as H. cbn zeta in H.
  destruct H as (_ & _ & _ & _ & A).
  apply A; [reflexivity | intros q Hq; inversion Hq].
Defined.

(** X3, at an example: the two latest of three events. *)
Lemma getAccessLogs_latest_first_witness :
  ∃ ls rest,
    mac_database_queries.getAccessLogs "Unexpected token" (Some 2%Z)
      three_events =
      mac_database.mkResult true "Access logs retrieved successfully"
        (Some (mac_database_queries.mkLogsData ls
                 (length (events_of three_events)))) ∧
    length ls = Nat.min (Z.to_nat 2) (length (events_of three_events)) ∧
    ls ++ rest ≡ₚ events_of three_events ∧
    StronglySorted not_earlier (ls ++ rest) ∧
    ∀ t, List.filter (λ e, (mac_database.log_timestamp e =? t)%Z) (ls ++ rest) =
         List.filter (λ e, (mac_database.log_timestamp e =? t)%Z)
           (events_of three_events).
Proof.
  destruct (getAccessLogs_latest_first "Unexpected token" three_events)
    as (_ & _ & A).
  apply A; [vm_compute; discriminate | lia].
Defined.


(** X5, at an example: the laptop is removed, the tablet stays. *)
Lemma removeMACAddress_behaviour_witness :
  (mac_database.removeMACAddress true "AA:BB:CC:DD:EE:FF" two_devices).2 =
  mac_database.mkResult true "MAC address removed successfully" None.
Proof.
  pose proof (removeMACAddress_behaviour true "AA:BB:CC:DD:EE:FF" two_devices)
    as H. cbn zeta in H. destruct H as (_ & A).
  destruct (A laptop ltac:(vm_compute; reflexivity)) as (B & _).
  exact B.
Defined.

(** X6, at an example. *)
Lemma accesses_accounted_for_witness :
  store_accounted
    (mac_database.checkAccess sample_uuid true ["11:22:33:44:55:66"]
       sample_device two_devices).1.
Proof.
  assert (H : store_accounted two_devices).
  { intros d Hd. injection Hd as <-. vm_compute. lia. }
  destruct (accesses_accounted_for sample_uuid true "Unexpected token"
              two_devices H) as (A & _).
  apply A.
Defined.

(** X7, at an example: a refused check leaves one event. *)
Lemma access_log_writers_witness :
  ∃ ev,
    events_of
      (mac_database.checkAccess sample_uuid true ["00:00:00:00:00:01"]
         sample_device two_devices).1 =
      js.slice_last 1000 (events_of two_devices ++ [ev]) ∧
    mac_database.log_success ev = false ∧
    mac_database.log_macAddress ev = "00:00:00:00:00:01".
Proof.
  destruct (access_log_writers sample_uuid true two_devices) as (A & _).
  destruct (A ltac:(vm_compute; discriminate) ["00:00:00:00:00:01"]
              sample_device) as (ev & E & _ & S & M & _).
  exists ev. split; [exact E |]. split; [exact S | exact M].
Defined.

(** X8, at an example: the entry edited by hand gets an identifier and
    the access type [trial], and keeps the rest. *)
Lemma maintenance_repairs_witness :
  (mac_database.maintenance sample_uuid true "Unexpected token"
     needs_fixing).2 =
  mac_database.mkResult true "Maintenance completed successfully"
    (Some (mac_database.mkMaintenanceData 1
             (fixes_needed
                (map_to_list
                   (mac_database.macAddresses
                      (mac_database.readDatabase needs_fixing)))))).
Proof.
  assert (Hne : ∀ n, sample_uuid n ≠ "")
    by (intros n; unfold sample_uuid; discriminate).
  pose proof (maintenance_repairs sample_uuid true "Unexpected token" Hne
                needs_fixing ltac:(vm_compute; discriminate)) as H.
  cbn zeta in H. destruct H as (A & _). exact A.
Defined.

(** X9, at examples: a dotted spelling is accepted and stored under the
    colon-separated key; ten digits are rejected. *)
Lemma accepted_addresses_witness :
  macdb.normalizeMac "0011.2233.4455" = "00:11:22:33:44:55" ∧
  macdb.addMacAddress sample_sha256 "ENOENT" "00:11:22:33:44" ∅ one_device =
    (one_device, macdb.Throw "Invalid MAC address format").
Proof.
  split.
  - destruct (accepted_addresses sample_sha256 "ENOENT" "0011.2233.4455")
      as (_ & A & _).
    rewrite A. vm_compute. reflexivity.
  - destruct (accepted_addresses sample_sha256 "ENOENT" "00:11:22:33:44")
      as (_ & _ & A).
    apply A. vm_compute. intros H. discriminate H.
Defined.

(** X10, at an example: an authentication that finds a lock file left
    behind leaves it in place and does not write the document. *)
Lemma lock_file_respected_witness :
  macdb.lockFile
    (macdb.authenticateMac "ENOENT" "aa:bb:cc:dd:ee:ff" stale_lock).1 = true ∧
  macdb.dbFile
    (macdb.authenticateMac "ENOENT" "aa:bb:cc:dd:ee:ff" stale_lock).1 =
    macdb.dbFile stale_lock.
Proof.
  destruct (lock_file_respected sample_sha256 "ENOENT" "TypeError" stale_lock)
    as (_ & _ & _ & A & _).
  destruct (A "aa:bb:cc:dd:ee:ff") as [_ B]. apply B. reflexivity.
Defined.

(** X11, at an example: disabled under one spelling, refused under
    another. *)
Lemma disabled_address_refused_witness :
  (macdb.authenticateMac "ENOENT" "aabb.ccdd.eeff"
     (macdb.set_clock 3000
        (macdb_admin.toggleMacAddress "ENOENT" "AA-BB-CC-DD-EE-FF" (Some false)
           one_device).1)).2 =
  macdb.Return
    (macdb.mkAuthResult false (Some "MAC address is disabled") None None None).
Proof.
  pose proof (disabled_address_refused "ENOENT" "AA-BB-CC-DD-EE-FF"
                "aabb.ccdd.eeff" registered one_device one_device_doc
                3000 4000 5000) as H.
  cbn zeta in H.
  destruct H as (_ & A & _);
    [split; reflexivity | vm_compute; reflexivity | vm_compute; reflexivity
    | vm_compute; reflexivity |].
  exact A.
Defined.

(** X12, at an example: added with colons, authenticated with hyphens. *)
Lemma address_lifecycle_witness :
  (macdb.authenticateMac "ENOENT" "11-22-33-44-55-66"
     (macdb.set_clock 3000
        (macdb.addMacAddress sample_sha256 "ENOENT" "11:22:33:44:55:66" ∅
           one_device).1)).2 =
  macdb.Return
    (macdb.mkAuthResult true None (Some "11:22:33:44:55:66") (Some 3000%Z)
       (Some 1)).
Proof.
  pose proof (address_lifecycle sample_sha256 "ENOENT" "11:22:33:44:55:66"
                "11-22-33-44-55-66" ∅ one_device one_device_doc
                3000 4000 5000 6000) as H.
  cbn zeta in H.
  destruct H as (_ & A & _);
    [split; reflexivity | repeat constructor | vm_compute; reflexivity
    | vm_compute; reflexivity | vm_compute; reflexivity |].
  rewrite A. vm_compute. reflexivity.
Defined.

(** X13, at an example: one address, which is active. *)
Lemma statistics_agree_witness :
  ∃ w1 st,
    macdb_admin.getStats "ENOENT" one_device = (w1, macdb.Return st) ∧
    macdb_admin.totalAddresses st = 1 ∧
    macdb_admin.totalAddresses st =
      macdb.totalEntries (macdb.metadata one_device_doc).
Proof.
  destruct (statistics_agree "ENOENT" one_device one_device_doc)
    as (w1 & _ & _ & st & _ & _ & E & _ & _ & _ & _ & _ & T & _);
    [split; reflexivity |].
  exists w1, st. split; [exact E |]. rewrite T. split; vm_compute; reflexivity.
Defined.

(** X14, at an example: of two items one is malformed; both get a
    result and the entry that was there stays. *)
Lemma import_only_adds_witness :
  length
    (macdb_admin.importMacAddresses sample_sha256 "ENOENT" "TypeError"
       [macdb_admin.ImportString "11:22:33:44:55:66";
        macdb_admin.ImportString "oops"] None one_device).2 = 2.
Proof.
  destruct (import_only_adds sample_sha256 "ENOENT" "TypeError"
              [macdb_admin.ImportString "11:22:33:44:55:66";
               macdb_admin.ImportString "oops"] one_device one_device_doc)
    as (d' & _ & _ & L & _);
    [split; reflexivity |].
  exact L.
Defined.

(** X15, at an example: the stored address is imported again. *)
Lemma import_overwrite_starts_afresh_witness :
  length
    (macdb_admin.importMacAddresses sample_sha256 "ENOENT" "TypeError"
       [macdb_admin.ImportString "AA-BB-CC-DD-EE-FF"] (Some true)
       one_device).2 = 1.
Proof.
  destruct (import_overwrite_starts_afresh sample_sha256 "ENOENT" "TypeError"
              [macdb_admin.ImportString "AA-BB-CC-DD-EE-FF"] one_device
              one_device_doc)
    as (d' & _ & _ & L & _);
    [split; reflexivity | repeat constructor |].
  exact L.
Defined.

(** X18, at an example: added in upper case, checked in lower case. *)
Lemma kv_device_lifecycle_witness :
  (mac_auth_admin.handleAddMac
     (mac_auth_admin.mkAddBody (Some "AA:BB:CC:DD:EE:FF") (Some "Lab laptop")
        None (Some "122316"))
     (mac_auth.mkWorld None true 2000 [])).2 =
  mac_auth.mkResponse 200 true "MAC address added successfully"
    (Some (mac_auth_admin.mkAddData "aa:bb:cc:dd:ee:ff" (Some "Lab laptop")
             "trial" 2000)).
Proof.
  pose proof (kv_device_lifecycle "AA:BB:CC:DD:EE:FF" "aa:bb:cc:dd:ee:ff"
                (Some "Lab laptop") None (Some "122316") None
                (mac_auth.mkWorld None true 2000 [])) as H.
  cbn zeta in H.
  destruct H as (A & _);
    [reflexivity | reflexivity | vm_compute; reflexivity
    | vm_compute; reflexivity | vm_compute; reflexivity | reflexivity
    | reflexivity |].
  rewrite A. vm_compute. reflexivity.
Defined.

(** X19, at an example: one store call for the read and one for the
    write for two items. *)
Lemma kv_bulk_add_witness :
  mac_auth.trace
    (mac_auth_admin.handleBulkAdd
       (mac_auth_admin.mkBulkBody
          (Some [mac_auth_admin.mkBulkItem (Some "AA:BB:CC:DD:EE:FF") None
                   (Some "root");
                 mac_auth_admin.mkBulkItem (Some "oops") None None])
          (Some "122316"))
       (mac_auth.mkWorld None true 2000 [])).1 = [KvGet; KvSet true].
Proof.
  pose proof (kv_bulk_add
                [mac_auth_admin.mkBulkItem (Some "AA:BB:CC:DD:EE:FF") None
                   (Some "root");
                 mac_auth_admin.mkBulkItem (Some "oops") None None]
                (Some "122316") (mac_auth.mkWorld None true 2000 [])) as H.
  cbn zeta in H. destruct H as (A & _); [reflexivity |]. exact A.
Defined.

(** X20, at an example: a removal while the store is out of reach. *)
Lemma kv_store_unreachable_witness :
  (mac_auth_admin.handleRemoveMac
     (mac_auth_admin.mkRemoveBody (Some "aa:bb:cc:dd:ee:ff") (Some "122316"))
     (mac_auth.mkWorld None false 2000 [])).2 =
  mac_auth.mkResponse 404 false "MAC address not found in whitelist" None.
Proof.
  destruct (kv_store_unreachable (mac_auth.mkWorld None false 2000 []))
    as (_ & _ & A & _); [reflexivity |].
  rewrite (A "aa:bb:cc:dd:ee:ff" (Some "122316"));
    [reflexivity | reflexivity | vm_compute; reflexivity].
Defined.

(** X22, at an example: the list of a store that was never written. *)
Lemma kv_list_statistics_witness :
  ∃ ld,
    mac_auth_admin.handleListMacs (Some "122316")
      (mac_auth.mkWorld None true 2000 []) =
      (mac_auth.emit [KvGet] (mac_auth.mkWorld None true 2000 []),
       mac_auth.mkResponse 200 true "MAC addresses retrieved successfully"
         (Some ld)) ∧
    mac_auth_admin.kv_total (mac_auth_admin.kv_statistics ld) = 0.
Proof.
  destruct (kv_list_statistics (Some "122316")
              (mac_auth.mkWorld None true 2000 []))
    as (ld & E & H); [reflexivity |].
  cbn zeta in H. destruct H as (_ & _ & T & _).
  exists ld. split; [exact E |]. rewrite T. reflexivity.
Defined.

(** X25, at an example: added with spaces around it and in upper case. *)
Lemma file_address_lifecycle_witness :
  (mac_auth_file_handlers.handleAddMAC
     (mac_auth_file.mkRequest "POST" None None)
     (mac_auth_file_handlers.mkAddBody (Some " AA:BB:CC:DD:EE:FF ") None
        (Some "122316"))
     (mac_auth_file.mkWorld Missing [] Missing 2000 [])).2 =
  mac_auth_file_handlers.mkReply 201 true "MAC address added to whitelist"
    (Some (mac_auth_file.mkEntry "aa:bb:cc:dd:ee:ff" "No description" 2000
             "admin" None None (Some 0))).
Proof.
  pose proof (file_address_lifecycle
                (mac_auth_file.mkRequest "POST" None None)
                (mac_auth_file.mkRequest "DELETE" None None)
                " AA:BB:CC:DD:EE:FF " "aa:bb:cc:dd:ee:ff" None None
                (mac_auth_file.mkWorld Missing [] Missing 2000 [])) as H.
  cbn zeta in H.
  destruct H as (A & _);
    [reflexivity | reflexivity | vm_compute; reflexivity
    | vm_compute; reflexivity | reflexivity |].
  etransitivity; [exact A |]. vm_compute. reflexivity.
Defined.

